(** * G1 region, refinement, object-header and PLAB-sizing core of HotSpot

    A shallow embedding of the functions of
    [oops/oop.inline.hpp], [gc/g1/g1EvacStats.cpp],
    [gc/g1/concurrentG1RefineThread.cpp] and [gc/g1/heapRegion.cpp]
    that the properties below are about, followed by the properties.

    Conventions.  Machine words are integers [Z] with the wrap-around of
    the C++ type written out ([size_t] and [uintptr_t] are 64 bits wide,
    [narrowOop] 32 bits).  Addresses are their numeric value, [NULL] is 0.
    A debug-build [assert] and a [guarantee] that does not hold end the
    computation in [Abort]. *)

From Stdlib Require Import ZArith Lia Bool List String QArith.Qround QArith.QArith_base.
From Stdlib Require Import Sorted.
From stdpp Require Import base option list gmap.

Local Open Scope Z_scope.

(* ===================================================================== *)
(** * Part I: the embedding                                               *)
(* ===================================================================== *)

(** ** Outcomes: normal return or a failed assertion *)

Inductive outcome (A : Type) : Type :=
| Normal (a : A)
| Abort (msg : string).
Arguments Normal {A} a.
Arguments Abort {A} msg.

#[global] Instance outcome_ret : MRet outcome := fun A a => Normal a.
#[global] Instance outcome_bind : MBind outcome := fun A B k m =>
  match m with
  | Normal a => k a
  | Abort msg => Abort msg
  end.

(** [assert(cond, msg)] of utilities/debug.hpp, debug builds. *)
Definition vmassert (cond : bool) (msg : string) : outcome unit :=
  if cond then Normal tt else Abort msg.

(** [guarantee(cond, msg)]: checked in every build. *)
Definition guarantee (cond : bool) (msg : string) : outcome unit :=
  if cond then Normal tt else Abort msg.

(** ** Machine integers *)

Definition size_t (x : Z) : Z := x mod 2 ^ 64.
Definition uintptr_t (x : Z) : Z := x mod 2 ^ 64.
Definition uint64_t (x : Z) : Z := x mod 2 ^ 64.
Definition narrowOop (x : Z) : Z := x mod 2 ^ 32.

Definition NULL : Z := 0.

(** ** Compressed ordinary object pointers (oop.inline.hpp, 319-356) *)

(** The globals the encoding reads.  They are set up by [Universe] and the
    heap reservation code, which is not part of the sources at hand, so
    they are parameters of the embedding. *)
Record Universe : Type := {
  narrow_oop_base : Z;          (* Universe::narrow_oop_base() *)
  narrow_oop_shift : Z;         (* Universe::narrow_oop_shift() *)
  reserved_start : Z;           (* Universe::heap()->reserved_region().start() *)
  reserved_end : Z;             (* Universe::heap()->reserved_region().end() *)
  LogMinObjAlignmentInBytes : Z;(* globalDefinitions.hpp *)
  MinObjAlignmentInBytes : Z;   (* globalDefinitions.hpp *)
  OopEncodingHeapMax : Z        (* globalDefinitions.hpp *)
}.

Module oopDesc.
Section CompressedOops.
Context (U : Universe).

(** Modelled from the spec: globalDefinitions.hpp is missing; the mask
    that selects the bits below the object alignment. *)
Definition MinObjAlignmentInBytesMask : Z := MinObjAlignmentInBytes U - 1.

(** Modelled from the spec: [CollectedHeap::is_in_reserved] is missing;
    the spec's "within the heap's reserved bounds", a half-open range. *)
Definition is_in_reserved (p : Z) : bool :=
  (reserved_start U <=? p) && (p <? reserved_end U).

(** Modelled from the spec: [oopDesc::is_null] (oops/oop.hpp) is missing;
    the test against the null value, for wide and narrow oops alike. *)
Definition is_null (v : Z) : bool := v =? 0.

(** Modelled from the spec: [pointer_delta(left, right, 1)]
    (globalDefinitions.hpp) is missing; the distance in bytes between two
    addresses, the left one asserted not to be the smaller. *)
Definition pointer_delta (left right : Z) : outcome Z :=
  _ ← vmassert (right <=? left) "avoid underflow";
  mret (size_t (left - right)).

Definition check_obj_alignment (obj : Z) : bool :=
  Z.land obj MinObjAlignmentInBytesMask =? 0.

Definition decode_heap_oop_not_null (v : Z) : outcome Z :=
  _ ← vmassert (negb (is_null v)) "narrow oop value can never be zero";
  let base := narrow_oop_base U in
  let shift := narrow_oop_shift U in
  let result := uintptr_t (uintptr_t base + uintptr_t (Z.shiftl (uintptr_t v) shift)) in
  _ ← vmassert (check_obj_alignment result) "address not aligned";
  mret result.

Definition decode_heap_oop (v : Z) : outcome Z :=
  if is_null v then mret NULL else decode_heap_oop_not_null v.

Definition encode_heap_oop_not_null (v : Z) : outcome Z :=
  _ ← vmassert (negb (is_null v)) "oop value can never be zero";
  _ ← vmassert (check_obj_alignment v) "Address not aligned";
  _ ← vmassert (is_in_reserved v) "Address not in heap";
  let base := narrow_oop_base U in
  let shift := narrow_oop_shift U in
  d ← pointer_delta v base;
  let pd := uint64_t d in
  _ ← vmassert (pd <? OopEncodingHeapMax U) "change encoding max if new encoding";
  let result := Z.shiftr pd shift in
  _ ← vmassert (Z.land result 0xffffffff00000000 =? 0) "narrow oop overflow";
  back ← decode_heap_oop (narrowOop result);
  _ ← vmassert (back =? v) "reversibility";
  mret (narrowOop result).

Definition encode_heap_oop (v : Z) : outcome Z :=
  if is_null v then mret 0 else encode_heap_oop_not_null v.

(** Lines 545-563, used only for asserts.  [klass_or_null] is the klass
    word of the object and [mark] its header word; [is_at_safepoint] is
    the answer of [SafepointSynchronize::is_at_safepoint()]. *)
Definition is_oop (klass_or_null mark : Z) (is_at_safepoint : bool)
    (obj : Z) (ignore_mark_word : bool) : bool :=
  if negb (check_obj_alignment obj) then false
  else if negb (is_in_reserved obj) then false
  else if is_in_reserved klass_or_null then false
  else if ignore_mark_word then true
  else if negb (mark =? NULL) then true
  else negb is_at_safepoint.

(** Lines 567-569. *)
Definition is_oop_or_null (klass_or_null mark : Z) (is_at_safepoint : bool)
    (obj : Z) (ignore_mark_word : bool) : bool :=
  if obj =? NULL then true
  else is_oop klass_or_null mark is_at_safepoint obj ignore_mark_word.

(** Lines 179-187.  The result is the word left in the member of the
    [_metadata] union that is in use; [narrowKlass] has the 32 bits of
    [narrowOop]. *)
Definition set_klass_to_list_ptr (UseCompressedClassPointers : bool) (k : Z)
  : outcome Z :=
  if UseCompressedClassPointers
  then n ← encode_heap_oop k; mret (narrowOop n)
  else mret k.

(** Lines 189-197, on the word of the member in use. *)
Definition list_ptr_from_klass (UseCompressedClassPointers : bool) (metadata : Z)
  : outcome Z :=
  if UseCompressedClassPointers
  then decode_heap_oop (narrowOop metadata)
  else mret metadata.

(** The address a narrow value stands for, as a number. *)
Definition narrow_target (v : Z) : Z :=
  narrow_oop_base U + v * 2 ^ narrow_oop_shift U.

(** A narrow value within the configured offset range: 32 bits wide and,
    unless null, standing for an aligned address of the reserved heap. *)
Definition valid_narrow (v : Z) : Prop :=
  0 <= v < 2 ^ 32 /\
  (v = 0 \/ (is_in_reserved (narrow_target v) = true /\
            check_obj_alignment (narrow_target v) = true)).

(** What the heap reservation code establishes about the globals: the
    encoding base is aligned to the encoding granule and lies strictly
    below the reserved heap (so that the narrow value 0 is free for
    NULL), and the heap ends within the reach of a 32-bit offset. *)
Record wf_universe : Prop := {
  wf_base : 0 <= narrow_oop_base U < reserved_start U;
  wf_end : reserved_end U <= 2 ^ 64;
  wf_shift : 0 <= narrow_oop_shift U <= LogMinObjAlignmentInBytes U;
  wf_align : MinObjAlignmentInBytes U = 2 ^ LogMinObjAlignmentInBytes U;
  wf_base_aligned : narrow_oop_base U mod 2 ^ narrow_oop_shift U = 0;
  wf_reach : reserved_end U - narrow_oop_base U <= 2 ^ 32 * 2 ^ narrow_oop_shift U;
  wf_max : reserved_end U - narrow_oop_base U <= OopEncodingHeapMax U
}.

End CompressedOops.
End oopDesc.

(** A layout as the heap reservation code sets it up: heap-based
    compressed oops, 8-byte object alignment, the encoding base one page
    below a 1 GB reserved region. *)
Definition example_universe : Universe := {|
  narrow_oop_base := 2 ^ 35 - 4096;
  narrow_oop_shift := 3;
  reserved_start := 2 ^ 35;
  reserved_end := 2 ^ 35 + 2 ^ 30;
  LogMinObjAlignmentInBytes := 3;
  MinObjAlignmentInBytes := 8;
  OopEncodingHeapMax := 2 ^ 35
|}.

(** ** The mark word *)

(** The operations of [markOopDesc] (oops/markOop.hpp) that the header
    code below calls.  markOop.hpp is not part of the sources at hand, so
    the header code is embedded over this interface. *)
Class markOopDesc : Type := {
  is_marked : Z -> bool;
  is_unlocked : Z -> bool;
  has_no_hash : Z -> bool;
  hash : Z -> Z;
  encode_pointer_as_mark : Z -> Z;
  decode_pointer : Z -> Z
}.

(** An instance of the interface.  The spec has the mark word hold, in a
    single machine word, one of unlocked-with-identity-hash,
    locked-with-stack-lock-pointer, forwarded-with-target-address and
    marked-with-age, told apart by low-order tag bits.  This instance is
    the 64-bit layout: a two-bit lock tag (01 unlocked, 11 marked or
    forwarded), a biased-lock bit above it, and a 31-bit hash from bit 8. *)
Module markOop64.
(** Modelled from the spec: the two-bit lock tag, missing with
    markOop.hpp. *)
Definition lock_mask_in_place : Z := 3.
(** Modelled from the spec: the lock tag with the biased-lock bit. *)
Definition biased_lock_mask_in_place : Z := 7.
(** Modelled from the spec: the tag of an unlocked header. *)
Definition unlocked_value : Z := 1.
(** Modelled from the spec: the tag of a marked or forwarded header. *)
Definition marked_value : Z := 3.
(** Modelled from the spec: the tag bits of a biased header. *)
Definition biased_lock_pattern : Z := 5.
(** Modelled from the spec: where the identity hash starts. *)
Definition hash_shift : Z := 8.
(** Modelled from the spec: the flag of globals.hpp, at its default. *)
Definition UseBiasedLocking : bool := true.
(** Modelled from the spec: the 31 bits of the identity hash. *)
Definition hash_mask : Z := 2 ^ 31 - 1.
(** Modelled from the spec: the hash value that means none is cached. *)
Definition no_hash : Z := 0.

(** Modelled from the spec: [mask_bits] of globalDefinitions.hpp. *)
Definition mask_bits (x m : Z) : Z := Z.land x m.

(** Modelled from the spec: the header is forwarded-with-target-address
    or marked-with-age when its lock tag is 11. *)
Definition is_marked (m : Z) : bool :=
  mask_bits m lock_mask_in_place =? marked_value.
(** Modelled from the spec: the header is unlocked when its three tag
    bits are 001. *)
Definition is_unlocked (m : Z) : bool :=
  mask_bits m biased_lock_mask_in_place =? unlocked_value.
(** Modelled from the spec: the header is biased when its three tag
    bits are 101. *)
Definition has_bias_pattern (m : Z) : bool :=
  mask_bits m biased_lock_mask_in_place =? biased_lock_pattern.
(** Modelled from the spec: the identity hash bit-packed into the word. *)
Definition hash (m : Z) : Z := mask_bits (Z.shiftr m hash_shift) hash_mask.
(** Modelled from the spec: no hash is cached in the word. *)
Definition has_no_hash (m : Z) : bool := hash m =? no_hash.
(** Modelled from the spec: the word without its lock tag. *)
Definition clear_lock_bits (m : Z) : Z :=
  uintptr_t (Z.land m (Z.lnot lock_mask_in_place)).
(** Modelled from the spec: the word with the marked tag put in. *)
Definition set_marked (m : Z) : Z :=
  Z.lor (clear_lock_bits m) marked_value.
(** Modelled from the spec: [forward_to] encodes the target as the
    header's mark value. *)
Definition encode_pointer_as_mark (p : Z) : Z := set_marked p.
(** Modelled from the spec: [forwardee] decodes the mark word as an
    address. *)
Definition decode_pointer (m : Z) : Z :=
  if UseBiasedLocking && has_bias_pattern m then NULL else clear_lock_bits m.
End markOop64.

(** Modelled from the spec: the 64-bit mark word as an instance of the
    interface. *)
#[global] Instance markOop64_ops : markOopDesc := {|
  is_marked := markOop64.is_marked;
  is_unlocked := markOop64.is_unlocked;
  has_no_hash := markOop64.has_no_hash;
  hash := markOop64.hash;
  encode_pointer_as_mark := markOop64.encode_pointer_as_mark;
  decode_pointer := markOop64.decode_pointer
|}.

(** ** Forwarding (oop.inline.hpp, 589-646) *)

Module Forwarding.
Section WithMark.
Context {M : markOopDesc}.

(** [oopDesc::is_forwarded] and [oopDesc::forwardee] of an object whose
    header currently holds [mark]. *)
Definition is_forwarded (mark : Z) : bool := is_marked mark.
Definition forwardee (mark : Z) : Z := decode_pointer mark.

(** Where a thread stands inside [oopDesc::forward_to_atomic(p)].  Each
    constructor is the point just before one access to the shared
    header word; what lies between two accesses is thread-local. *)
Inductive pc : Type :=
| AtEntry (p : Z)                      (* line 619, before [mark()] *)
| AtLoop (p oldMark : Z)               (* line 626, loop test *)
| AtAssert (p oldMark curMark : Z)     (* line 628, after the CAS *)
| Returned (p result : Z)
| Crashed (p : Z).

(** One access of a thread to the header word [m]: the new header word
    and the thread's next point, [None] once the call has ended.
    [Atomic::cmpxchg_ptr(new, &_mark, old)] stores [new] if the word
    equals [old] and returns the word it found. *)
Definition thread_step (m : Z) (c : pc) : option (Z * pc) :=
  match c with
  | AtEntry p =>
      let oldMark := m in
      let forwardPtrMark := encode_pointer_as_mark p in
      if decode_pointer forwardPtrMark =? p
      then Some (m, AtLoop p oldMark)
      else Some (m, Crashed p)
  | AtLoop p oldMark =>
      if is_marked oldMark
      then Some (m, Returned p (forwardee m))
      else
        let forwardPtrMark := encode_pointer_as_mark p in
        let curMark := m in
        let m' := if m =? oldMark then forwardPtrMark else m in
        Some (m', AtAssert p oldMark curMark)
  | AtAssert p oldMark curMark =>
      if is_forwarded m
      then if curMark =? oldMark
           then Some (m, Returned p NULL)
           else Some (m, AtLoop p curMark)
      else Some (m, Crashed p)
  | Returned _ _ => None
  | Crashed _ => None
  end.

(** An object under evacuation: its header word and the GC workers that
    are inside [forward_to_atomic] on it. *)
Record object : Type := {
  _mark : Z;
  workers : list pc
}.

(** Worker [i] performs its next header access; a worker that does not
    exist or has returned leaves the object as it is. *)
Definition step (i : nat) (o : object) : object :=
  match workers o !! i with
  | Some c =>
      match thread_step (_mark o) c with
      | Some (m', c') => {| _mark := m'; workers := <[i := c']> (workers o) |}
      | None => o
      end
  | None => o
  end.

(** An interleaving: the workers take their accesses in the order of
    the schedule. *)
Fixpoint run (sched : list nat) (o : object) : object :=
  match sched with
  | [] => o
  | i :: rest => run rest (step i o)
  end.

(** How many accesses of worker [i] a schedule holds. *)
Fixpoint turns (i : nat) (sched : list nat) : nat :=
  match sched with
  | [] => O
  | j :: rest => if Nat.eqb i j then S (turns i rest) else turns i rest
  end.

(** The points a worker passes, access by access, after its CAS
    installed the pointer. *)
Definition won_pc (p old : Z) (k : nat) : pc :=
  match k with
  | O => AtAssert p old old
  | S _ => Returned p NULL
  end.

(** The points a worker passes, access by access, after its CAS found
    the header [cur] instead of [old]. *)
Definition lost_pc (p old cur : Z) (k : nat) : pc :=
  match k with
  | O => AtAssert p old cur
  | S O => AtLoop p cur
  | S (S _) => Returned p (forwardee cur)
  end.

(** The workers of a race, all at the entry of [forward_to_atomic], one
    for each target of [ps]. *)
Definition entered (ps : list Z) : list pc := AtEntry <$> ps.

(** Where a worker with target [p] can stand while the header still
    holds the unmarked word [m0] the race began with. *)
Definition waiting_pc (m0 p : Z) (c : pc) : Prop :=
  c = AtEntry p \/ c = AtLoop p m0.

(** Where the worker whose CAS installed its target can stand. *)
Definition winner_pc (m0 p : Z) (c : pc) : Prop :=
  c = AtAssert p m0 m0 \/ c = Returned p NULL.

(** Where any other worker can stand once the header holds the
    forwarding word [fwd]. *)
Definition loser_pc (m0 fwd p : Z) (c : pc) : Prop :=
  c = AtEntry p \/ c = AtLoop p m0 \/ c = AtAssert p m0 fwd \/
  c = AtLoop p fwd \/ c = Returned p (forwardee fwd).

(** The states of a race from the header [m0] with the targets [ps]:
    either nobody has forwarded the object yet, or exactly the worker
    [w] has and everybody else is on the way to reading its target. *)
Definition race_inv (m0 : Z) (ps : list Z) (o : object) : Prop :=
  length (workers o) = length ps /\
  ((_mark o = m0 /\
    forall j p, ps !! j = Some p ->
      exists c, workers o !! j = Some c /\ waiting_pc m0 p c) \/
   (exists w pw, ps !! w = Some pw /\
      _mark o = encode_pointer_as_mark pw /\
      forall j p, ps !! j = Some p ->
        exists c, workers o !! j = Some c /\
          ((j = w /\ winner_pc m0 p c) \/
           (j <> w /\ loser_pc m0 (encode_pointer_as_mark pw) p c)))).

(** Lines 596-604: [forward_to(p)]; the result is the header word that
    [set_mark] stores, whatever the header held before. *)
Definition forward_to (U : Universe) (p : Z) : outcome Z :=
  _ ← vmassert (oopDesc.check_obj_alignment U p)
        "forwarding to something not aligned";
  _ ← vmassert (oopDesc.is_in_reserved U p)
        "forwarding to something not in heap";
  let m := encode_pointer_as_mark p in
  _ ← vmassert (decode_pointer m =? p) "encoding must be reversable";
  mret m.

(** Lines 607-615 with [cas_set_mark], lines 95-97: [cas_forward_to(p,
    compare)] on an object whose header holds [mark]; the result is the
    header afterwards and the value returned. *)
Definition cas_forward_to (U : Universe) (mark p compare : Z) : outcome (Z * bool) :=
  _ ← vmassert (oopDesc.check_obj_alignment U p)
        "forwarding to something not aligned";
  _ ← vmassert (oopDesc.is_in_reserved U p)
        "forwarding to something not in heap";
  let m := encode_pointer_as_mark p in
  _ ← vmassert (decode_pointer m =? p) "encoding must be reversable";
  let found := mark in
  mret (if mark =? compare then m else mark, found =? compare).

(** A bound on the header accesses a worker still makes before
    [forward_to_atomic] has returned: one to read the header, one for
    the CAS and one for the assertion after it, and after a CAS that
    failed one more for the loop test that ends the loop. *)
Definition accesses_left (c : pc) : nat :=
  match c with
  | AtEntry _ => 4
  | AtLoop _ oldMark => if is_marked oldMark then 1 else 3
  | AtAssert _ oldMark curMark => if curMark =? oldMark then 1 else 2
  | Returned _ _ => 0
  | Crashed _ => 0
  end.

(** The points a worker passes, access by access, when it enters
    [forward_to_atomic(q)] on a header [m] that is forwarded already. *)
Definition late_pc (q m : Z) (k : nat) : pc :=
  match k with
  | O => AtEntry q
  | S O => AtLoop q m
  | S (S _) => Returned q (forwardee m)
  end.

End WithMark.
End Forwarding.

(** Two workers racing to forward an object with an unlocked, unhashed
    header, both before their CAS. *)
Definition racing_object : Forwarding.object := {|
  Forwarding._mark := 1;
  Forwarding.workers := [Forwarding.AtLoop 4096 1; Forwarding.AtLoop 8192 1]
|}.

(** The same race after worker 1 has won and returned. *)
Definition forwarded_object : Forwarding.object := {|
  Forwarding._mark := 8195;
  Forwarding.workers := [Forwarding.AtLoop 4096 1; Forwarding.Returned 8192 NULL]
|}.

(** ** Identity hash (oop.inline.hpp, 754-765) *)

Module IdentityHash.
Section WithMark.
Context {M : markOopDesc}.
(** The object store [H], the header read [mark()] and the out-of-line
    [slow_identity_hash()] (oop.cpp, calling into the synchronizer),
    which may change the store. *)
Context {H : Type} (mark : H -> Z) (slow_identity_hash : H -> Z * H).

Definition identity_hash (h : H) : Z * H :=
  let mrk := mark h in
  if is_unlocked mrk && negb (has_no_hash mrk) then (hash mrk, h)
  else if is_marked mrk then (hash mrk, h)
  else slow_identity_hash h.

End WithMark.
End IdentityHash.

(** ** PLAB sizing (g1EvacStats.cpp, 49-119) *)

(** The filter [_filter] of [PLABStats], an [AdaptiveWeightedAverage]
    (gc/shared/gcUtil.hpp, not part of the sources at hand), seen at the
    two places the sizing code touches it.  The filter computes in
    [float]; [sample] stands for [_filter.sample(x)] on a [size_t] and
    [average] for [(size_t)_filter.average()]. *)
Class AdaptiveWeightedAverage (F : Type) : Type := {
  sample : F -> Z -> F;
  average : F -> Z
}.

(** Modelled from the spec: gcUtil.hpp is missing.  The spec calls the
    filter an exponentially-weighted moving average; this one works over
    the rationals with a percentage weight and truncates its average. *)
Record ExpAvg : Type := {
  exp_weight : Z;
  exp_average : Q
}.

(** Modelled from the spec: one step of the moving average, the new
    sample weighted by [exp_weight] percent. *)
Definition exp_avg_sample (f : ExpAvg) (new_sample : Z) : ExpAvg := {|
  exp_weight := exp_weight f;
  exp_average :=
    ((100 - exp_weight f) # 100) * exp_average f
    + (exp_weight f # 100) * inject_Z new_sample
|}%Q.

(** Modelled from the spec: the moving average as a filter; the cast of
    the average to [size_t] truncates. *)
#[global] Instance ExpAvg_filter : AdaptiveWeightedAverage ExpAvg := {|
  sample := exp_avg_sample;
  average := fun f => size_t (Qfloor (exp_average f))
|}.

(** The flags and constants the sizing code reads.  [plab_sz_of_waste x]
    stands for [(size_t)((double)x / G1LastPLABAverageOccupancy)], a
    floating-point quotient. *)
Record PLABFlags : Type := {
  ResizePLAB : bool;
  TargetPLABWastePct : Z;
  plab_sz_of_waste : Z -> Z;
  min_size : Z;                (* PLAB::min_size() *)
  max_size : Z;                (* PLAB::max_size() *)
  MinObjAlignment : Z
}.

Module G1EvacStats.
Section WithFilter.
Context {F : Type} {filter : AdaptiveWeightedAverage F} (flags : PLABFlags).

(** The fields of [PLABStats] and [G1EvacStats], in words. *)
Record t : Type := {
  _allocated : Z;
  _wasted : Z;
  _undo_wasted : Z;
  _unused : Z;
  _desired_net_plab_sz : Z;
  _filter : F;
  _region_end_waste : Z;
  _regions_filled : Z;
  _direct_allocated : Z;
  _failure_used : Z;
  _failure_waste : Z
}.

(** Modelled from the spec: [PLABStats::used()] (gc/shared/plab.hpp) is
    missing; what was allocated less what was wasted or left unused. *)
Definition used (s : t) : Z :=
  size_t (_allocated s - size_t (_wasted s + _unused s)).

(** Modelled from the spec: [G1EvacStats::reset()] (g1EvacStats.hpp) is
    missing; it clears all per-collection accumulators and keeps the
    desired size and the filter. *)
Definition reset (s : t) : t := {|
  _allocated := 0;
  _wasted := 0;
  _undo_wasted := 0;
  _unused := 0;
  _desired_net_plab_sz := _desired_net_plab_sz s;
  _filter := _filter s;
  _region_end_waste := 0;
  _regions_filled := 0;
  _direct_allocated := 0;
  _failure_used := 0;
  _failure_waste := 0
|}.

(** [_allocated = v]. *)
Definition set_allocated (s : t) (v : Z) : t := {|
  _allocated := v;
  _wasted := _wasted s;
  _undo_wasted := _undo_wasted s;
  _unused := _unused s;
  _desired_net_plab_sz := _desired_net_plab_sz s;
  _filter := _filter s;
  _region_end_waste := _region_end_waste s;
  _regions_filled := _regions_filled s;
  _direct_allocated := _direct_allocated s;
  _failure_used := _failure_used s;
  _failure_waste := _failure_waste s
|}.

(** [_filter] and [_desired_net_plab_sz] after lines 113-114. *)
Definition set_filter_and_desired (s : t) (f : F) (v : Z) : t := {|
  _allocated := _allocated s;
  _wasted := _wasted s;
  _undo_wasted := _undo_wasted s;
  _unused := _unused s;
  _desired_net_plab_sz := v;
  _filter := f;
  _region_end_waste := _region_end_waste s;
  _regions_filled := _regions_filled s;
  _direct_allocated := _direct_allocated s;
  _failure_used := _failure_used s;
  _failure_waste := _failure_waste s
|}.

(** Modelled from the spec: [align_object_size] (globalDefinitions.hpp)
    is missing; a size in words rounded up to the allocation alignment,
    a power of two. *)
Definition align_object_size (size : Z) : Z :=
  Z.land (size + (MinObjAlignment flags - 1)) (Z.lnot (MinObjAlignment flags - 1)).
(** Modelled from the spec: [is_object_aligned] (globalDefinitions.hpp)
    is missing; a size is object-aligned when rounding leaves it. *)
Definition is_object_aligned (size : Z) : bool :=
  size =? align_object_size size.

(** Modelled from the spec: [MAX2] (globalDefinitions.hpp) is missing;
    the larger of two values. *)
Definition MAX2 (a b : Z) : Z := if a >? b then a else b.

(** Lines 61-71: the round in which nothing was allocated. *)
Definition guard_zero_allocation (s : t) : outcome t :=
  if _allocated s =? 0 then
    _ ← vmassert (_unused s =? 0) "Inconsistency in PLAB stats";
    mret (set_allocated s 1)
  else mret s.

(** Lines 108-111. *)
Definition used_for_waste_calculation (s : t) : Z :=
  if used s >? _region_end_waste s
  then size_t (used s - _region_end_waste s)
  else 0.
Definition total_waste_allowed (s : t) : Z :=
  size_t (used_for_waste_calculation s * TargetPLABWastePct flags).
Definition cur_plab_sz (s : t) : Z :=
  plab_sz_of_waste flags (total_waste_allowed s).

(** The logging calls ([log_plab_allocation], [log_sizing]) have no
    effect on the statistics and are left out. *)
Definition adjust_desired_plab_sz (s : t) : outcome t :=
  if negb (ResizePLAB flags) then mret (reset s)
  else
    _ ← vmassert (is_object_aligned (max_size flags)
                   && (min_size flags <=? max_size flags))
          "PLAB clipping computation may be incorrect";
    s1 ← guard_zero_allocation s;
    let f := sample (_filter s1) (cur_plab_sz s1) in
    let desired := MAX2 (min_size flags) (average f) in
    mret (reset (set_filter_and_desired s1 f desired)).

End WithFilter.
Arguments t F : clear implicits.
End G1EvacStats.

(** Sizing flags of a run with 16-byte object alignment: sizes in words
    are aligned to 2, the waste target is 10 percent and the last buffer
    is taken to be half full. *)
Definition example_flags : PLABFlags := {|
  ResizePLAB := true;
  TargetPLABWastePct := 10;
  plab_sz_of_waste := fun x => x / 50;
  min_size := 258;
  max_size := 131072;
  MinObjAlignment := 2
|}.

(** The statistics at the end of a pause, with a filter that has not
    seen a sample yet and gives the first one full weight. *)
Definition example_stats (allocated wasted unused region_end_waste : Z)
  : G1EvacStats.t ExpAvg := {|
  G1EvacStats._allocated := allocated;
  G1EvacStats._wasted := wasted;
  G1EvacStats._undo_wasted := 0;
  G1EvacStats._unused := unused;
  G1EvacStats._desired_net_plab_sz := 1024;
  G1EvacStats._filter := {| exp_weight := 100; exp_average := 0 |};
  G1EvacStats._region_end_waste := region_end_waste;
  G1EvacStats._regions_filled := 0;
  G1EvacStats._direct_allocated := 0;
  G1EvacStats._failure_used := 0;
  G1EvacStats._failure_waste := 0
|}.

(** The sizing as the specification words it, next to the code above:
    the statistics of the round (an empty round counts as one allocated
    word), the candidate size from the waste target, and the desired size
    with and without a final rounding to the allocation alignment. *)
Module PLABSizingSpec.
Section WithFilter.
Context {F : Type} {filter : AdaptiveWeightedAverage F} (flags : PLABFlags).

Definition round_stats (s : G1EvacStats.t F) : G1EvacStats.t F :=
  if G1EvacStats._allocated s =? 0 then G1EvacStats.set_allocated s 1 else s.

Definition used_for_waste (s : G1EvacStats.t F) : Z :=
  Z.max (G1EvacStats.used (round_stats s) - G1EvacStats._region_end_waste s) 0.

Definition candidate_size (s : G1EvacStats.t F) : Z :=
  plab_sz_of_waste flags (size_t (used_for_waste s * TargetPLABWastePct flags)).

Definition filtered (s : G1EvacStats.t F) : F :=
  sample (G1EvacStats._filter s) (candidate_size s).

Definition desired_size (s : G1EvacStats.t F) : Z :=
  Z.max (min_size flags) (average (filtered s)).

Definition desired_size_rounded (s : G1EvacStats.t F) : Z :=
  G1EvacStats.align_object_size flags (desired_size s).

End WithFilter.
End PLABSizingSpec.

(** ** The refinement thread chain (concurrentG1RefineThread.cpp) *)

(** [DirtyCardQueueSet] (gc/g1/dirtyCardQueue.hpp and .cpp) is not part
    of the sources at hand.  Of the queue of completed buffers the refinement
    threads see the backlog size, the flag through which mutators wake the
    primary thread, and a padding; processing takes exactly one buffer off
    the queue unless the backlog is at or below the caller's threshold. *)
Module DirtyCardQueueSet.
(** Modelled from the spec: the state of the queue of completed
    buffers. *)
Record t : Type := {
  _process_completed : bool;
  _n_completed_buffers : Z;
  _completed_queue_padding : Z
}.

(** Modelled from the spec: the backlog. *)
Definition completed_buffers_num (q : t) : Z := _n_completed_buffers q.
(** Modelled from the spec: the mutator-visible predicate that activates
    the primary thread. *)
Definition process_completed_buffers (q : t) : bool := _process_completed q.
(** Modelled from the spec: the padding of the queue. *)
Definition completed_queue_padding (q : t) : Z := _completed_queue_padding q.

(** Modelled from the spec: sets the predicate of the primary thread. *)
Definition set_process_completed (q : t) (x : bool) : t := {|
  _process_completed := x;
  _n_completed_buffers := _n_completed_buffers q;
  _completed_queue_padding := _completed_queue_padding q
|}.

(** Modelled from the spec: sets the padding. *)
Definition set_completed_queue_padding (q : t) (padding : Z) : t := {|
  _process_completed := _process_completed q;
  _n_completed_buffers := _n_completed_buffers q;
  _completed_queue_padding := padding
|}.

(** Modelled from the spec: a mutator's write barrier hands over [n]
    more completed buffers. *)
Definition enqueue_completed (q : t) (n : Z) : t := {|
  _process_completed := _process_completed q;
  _n_completed_buffers := _n_completed_buffers q + n;
  _completed_queue_padding := _completed_queue_padding q
|}.

(** Modelled from the spec: with a backlog at or below [stop_at] nothing
    is processed and the primary predicate is cleared; otherwise exactly
    one buffer is processed.  The result says whether one was. *)
Definition apply_closure_to_completed_buffer (q : t) (stop_at : Z) : bool * t :=
  if _n_completed_buffers q <=? stop_at
  then (false, set_process_completed q false)
  else (true, {| _process_completed := _process_completed q;
                 _n_completed_buffers := _n_completed_buffers q - 1;
                 _completed_queue_padding := _completed_queue_padding q |}).
End DirtyCardQueueSet.

Module ConcurrentG1RefineThread.

(** The fields of a refinement thread that the service loop reads or
    writes; [_next] is the position of the successor in the chain. *)
Record t : Type := {
  _worker_id : nat;
  _active : bool;
  _next : option nat;
  _activation_threshold : Z;
  _deactivation_threshold : Z
}.

(** The chain of threads and the queue they drain. *)
Record chain : Type := {
  threads : list t;
  dcqs : DirtyCardQueueSet.t
}.

(** Modelled from the spec: [is_primary()] (concurrentG1RefineThread.hpp)
    is missing; thread 0 is the primary one. *)
Definition is_primary (th : t) : bool := Nat.eqb (_worker_id th) 0.

(** Modelled from the spec: [set_active(x)] (concurrentG1RefineThread.hpp)
    is missing; it stores the activation flag. *)
Definition set_active (th : t) (x : bool) : t := {|
  _worker_id := _worker_id th;
  _active := x;
  _next := _next th;
  _activation_threshold := _activation_threshold th;
  _deactivation_threshold := _deactivation_threshold th
|}.

(** Lines 69-74. *)
Definition update_thresholds (th : t) (activate deactivate : Z) : outcome t :=
  _ ← vmassert (deactivate <? activate) "precondition";
  mret {| _worker_id := _worker_id th;
          _active := _active th;
          _next := _next th;
          _activation_threshold := activate;
          _deactivation_threshold := deactivate |}.

(** Lines 83-86, for the thread at position [i]. *)
Definition is_active (i : nat) (c : chain) : bool :=
  match threads c !! i with
  | Some th =>
      if is_primary th
      then DirtyCardQueueSet.process_completed_buffers (dcqs c)
      else _active th
  | None => false
  end.

(** The common body of [activate] and [deactivate], lines 90-95 and
    101-106: a secondary thread stores its own flag, the primary one the
    flag of the queue. *)
Definition set_flag (i : nat) (x : bool) (c : chain) : chain :=
  match threads c !! i with
  | Some th =>
      if negb (is_primary th)
      then {| threads := <[i := set_active th x]> (threads c); dcqs := dcqs c |}
      else {| threads := threads c;
              dcqs := DirtyCardQueueSet.set_process_completed (dcqs c) x |}
  | None => c
  end.

(** Lines 88-97; the notification of the monitor wakes the thread and
    changes no field. *)
Definition activate (i : nat) (c : chain) : chain := set_flag i true c.

(** Lines 99-107. *)
Definition deactivate (i : nat) (c : chain) : chain := set_flag i false c.

(** Lines 133-153: one pass of the inner loop of [run_service] by the
    thread at position [i] that is not a yield.  The result says whether
    a buffer was processed, that is whether the loop goes on. *)
Definition service_pass (yellow_zone : Z) (i : nat) (c : chain) : bool * chain :=
  match threads c !! i with
  | None => (false, c)
  | Some th =>
      let curr_buffer_num := DirtyCardQueueSet.completed_buffers_num (dcqs c) in
      let c1 :=
        if (DirtyCardQueueSet.completed_queue_padding (dcqs c) >? 0)
           && (curr_buffer_num <=? yellow_zone)
        then {| threads := threads c;
                dcqs := DirtyCardQueueSet.set_completed_queue_padding (dcqs c) 0 |}
        else c in
      let c2 :=
        match _next th with
        | Some j =>
            match threads c1 !! j with
            | Some nx =>
                if negb (is_active j c1)
                   && (curr_buffer_num >? _activation_threshold nx)
                then activate j c1
                else c1
            | None => c1
            end
        | None => c1
        end in
      let '(processed, q) :=
        DirtyCardQueueSet.apply_closure_to_completed_buffer
          (dcqs c2) (_deactivation_threshold th) in
      (processed, {| threads := threads c2; dcqs := q |})
  end.

(** What the thread observes at the head of a pass of the inner loop:
    whether termination or a safepoint yield is requested, and how many
    buffers mutators have enqueued since the pass before. *)
Record observation : Type := {
  should_terminate : bool;
  should_yield : bool;
  enqueued : Z
}.

(** Lines 127-158: the inner loop and the deactivation that follows it,
    along a list of observations; the thread is still in the loop when
    the list ends. *)
Fixpoint service_loop (yellow_zone : Z) (obs : list observation)
    (i : nat) (c : chain) : chain :=
  match obs with
  | [] => c
  | o :: rest =>
      let c0 := {| threads := threads c;
                   dcqs := DirtyCardQueueSet.enqueue_completed (dcqs c) (enqueued o) |} in
      if should_terminate o then deactivate i c0
      else if should_yield o then service_loop yellow_zone rest i c0
      else
        let '(processed, c1) := service_pass yellow_zone i c0 in
        if processed then service_loop yellow_zone rest i c1
        else deactivate i c1
  end.

(** Hysteresis of the whole chain. *)
Definition hysteresis (c : chain) : Prop :=
  forall (i : nat) (th : t), threads c !! i = Some th ->
    _deactivation_threshold th < _activation_threshold th.

(** The buffers enqueued along a list of observations. *)
Definition total_enqueued (obs : list observation) : Z :=
  foldr (fun o acc => enqueued o + acc) 0 obs.

(** A thread list that differs from [ts0] at most by an activated
    successor [succ]. *)
Definition only_successor_activated (succ : option nat) (ts0 ts : list t) : Prop :=
  length ts = length ts0 /\
  forall k thk, ts0 !! k = Some thk ->
    ts !! k = Some thk \/ (succ = Some k /\ ts !! k = Some (set_active thk true)).

End ConcurrentG1RefineThread.

(** A thread of a chain of three with thresholds (4,1), (8,5), (12,9),
    idle. *)
Definition example_thread (id : nat) (next : option nat) (on off : Z)
  : ConcurrentG1RefineThread.t := {|
  ConcurrentG1RefineThread._worker_id := id;
  ConcurrentG1RefineThread._active := false;
  ConcurrentG1RefineThread._next := next;
  ConcurrentG1RefineThread._activation_threshold := on;
  ConcurrentG1RefineThread._deactivation_threshold := off
|}.

(** The chain with a backlog of [n] buffers. *)
Definition example_chain (n : Z) : ConcurrentG1RefineThread.chain := {|
  ConcurrentG1RefineThread.threads :=
    [example_thread 0 (Some 1%nat) 4 1;
     example_thread 1 (Some 2%nat) 8 5;
     example_thread 2 None 12 9];
  ConcurrentG1RefineThread.dcqs := {|
    DirtyCardQueueSet._process_completed := true;
    DirtyCardQueueSet._n_completed_buffers := n;
    DirtyCardQueueSet._completed_queue_padding := 0
  |}
|}.

(** ** Heap regions (heapRegion.cpp) *)

(** The constants and flags [setup_heap_region_size] reads:
    [HeapRegionBounds] (heapRegionBounds.hpp), whether the flag
    [G1HeapRegionSize] still has its default, and the shifts of
    globalDefinitions.hpp and of the card table.  None of them is defined
    in the sources at hand, so they are parameters. *)
Record RegionSizing : Type := {
  G1HeapRegionSize_is_default : bool;    (* FLAG_IS_DEFAULT(G1HeapRegionSize) *)
  HeapRegionBounds_min_size : Z;
  HeapRegionBounds_max_size : Z;
  HeapRegionBounds_target_number : Z;
  LogHeapWordSize : Z;
  card_shift : Z                         (* CardTableModRefBS::card_shift *)
}.

(** Modelled from the spec: the types of a region (heapRegionType.hpp is
    missing) are the tags the spec lists. *)
Inductive HeapRegionType : Type :=
| Free | Eden | Survivor | Old | StartsHumongous | ContinuesHumongous | Archive.

(** [HeapRegionRemSet] (heapRegionRemSet.hpp) is not part of the sources
    at hand.  A remembered set maps a source region to the cards of the
    owning region that hold pointers from it, and lists the code roots. *)
Module HeapRegionRemSet.
(** Modelled from the spec: the mapping from source regions to cards and
    the list of code roots. *)
Record t : Type := {
  _other_regions : gmap nat (gset nat);
  _code_roots : list Z
}.

(** Modelled from the spec: nothing is remembered. *)
Definition is_empty (rs : t) : bool :=
  bool_decide (_other_regions rs = ∅) && bool_decide (_code_roots rs = []).

(** Modelled from the spec: the set is cleared when its region goes back
    to Free. *)
Definition clear (rs : t) : t := {| _other_regions := ∅; _code_roots := [] |}.
(** Modelled from the spec: [clear] for a caller that holds the lock. *)
Definition clear_locked (rs : t) : t := clear rs.
End HeapRegionRemSet.

Module HeapRegion.

(** The static members set by [setup_heap_region_size] (lines 45-49),
    with the flag [G1HeapRegionSize] it reads and may overwrite. *)
Record globals : Type := {
  LogOfHRGrainBytes : Z;
  LogOfHRGrainWords : Z;
  GrainBytes : Z;
  GrainWords : Z;
  CardsPerRegion : Z;
  G1HeapRegionSize : Z
}.

(** Modelled from the spec: [log2_long] (globalDefinitions.hpp) is
    missing.  By the comment at its call it gives the largest power of
    two that is at most its argument; its loop doubles the 64-bit [p]
    while [p] is not zero and at most [x], counting in [i]. *)
Fixpoint log2_long_loop (fuel : nat) (i p x : Z) : Z :=
  match fuel with
  | O => i
  | S fuel' =>
      if negb (p =? 0) && (p <=? x)
      then log2_long_loop fuel' (i + 1) (uint64_t (p * 2)) x
      else i
  end.
(** Modelled from the spec: [log2_long] itself, the loop entered with
    [i = -1] and [p = 1]; 65 rounds exhaust a 64-bit [p]. *)
Definition log2_long (x : Z) : Z := log2_long_loop 65 (-1) 1 (uint64_t x).

(** [(size_t)1 << n]; a shift count outside 0..63 is undefined. *)
Definition shift_one (n : Z) : outcome Z :=
  if (0 <=? n) && (n <? 64) then mret (size_t (Z.shiftl 1 n))
  else Abort "undefined shift".

(** Modelled from the spec: [MAX2] (globalDefinitions.hpp) is missing;
    the larger of two values. *)
Definition MAX2 (a b : Z) : Z := if a >? b then a else b.

(** Lines 113-160. *)
Definition setup_heap_region_size (cfg : RegionSizing)
    (initial_heap_size max_heap_size : Z) (g : globals) : outcome globals :=
  let region_size :=
    if G1HeapRegionSize_is_default cfg then
      let average_heap_size := size_t (initial_heap_size + max_heap_size) / 2 in
      MAX2 (average_heap_size / HeapRegionBounds_target_number cfg)
           (HeapRegionBounds_min_size cfg)
    else G1HeapRegionSize g in
  let region_size_log := log2_long region_size in
  region_size ← shift_one region_size_log;
  let region_size :=
    if region_size <? HeapRegionBounds_min_size cfg
    then HeapRegionBounds_min_size cfg
    else if region_size >? HeapRegionBounds_max_size cfg
         then HeapRegionBounds_max_size cfg
         else region_size in
  let region_size_log := log2_long region_size in
  _ ← guarantee (LogOfHRGrainBytes g =? 0) "we should only set it once";
  let LogOfHRGrainBytes' := region_size_log in
  _ ← guarantee (LogOfHRGrainWords g =? 0) "we should only set it once";
  let LogOfHRGrainWords' := LogOfHRGrainBytes' - LogHeapWordSize cfg in
  _ ← guarantee (GrainBytes g =? 0) "we should only set it once";
  let GrainBytes' := region_size in
  _ ← guarantee (GrainWords g =? 0) "we should only set it once";
  let GrainWords' := Z.shiftr GrainBytes' (LogHeapWordSize cfg) in
  one ← shift_one LogOfHRGrainWords';
  _ ← guarantee (one =? GrainWords') "sanity";
  _ ← guarantee (CardsPerRegion g =? 0) "we should only set it once";
  let CardsPerRegion' := Z.shiftr GrainBytes' (card_shift cfg) in
  mret {| LogOfHRGrainBytes := LogOfHRGrainBytes';
          LogOfHRGrainWords := LogOfHRGrainWords';
          GrainBytes := GrainBytes';
          GrainWords := GrainWords';
          CardsPerRegion := CardsPerRegion';
          G1HeapRegionSize := GrainBytes' |}.

(** Lines 114-119: the region size the set-up starts from, the flag if
    it was given and else the average heap size over the target number
    of regions, at least the minimum size. *)
Definition requested_region_size (cfg : RegionSizing)
    (initial_heap_size max_heap_size : Z) (g : globals) : Z :=
  if G1HeapRegionSize_is_default cfg then
    let average_heap_size := size_t (initial_heap_size + max_heap_size) / 2 in
    MAX2 (average_heap_size / HeapRegionBounds_target_number cfg)
         (HeapRegionBounds_min_size cfg)
  else G1HeapRegionSize g.

(** Lines 105-107. *)
Definition max_region_size (cfg : RegionSizing) : Z := HeapRegionBounds_max_size cfg.
(** Lines 109-111. *)
Definition min_region_size_in_words (cfg : RegionSizing) : Z :=
  Z.shiftr (HeapRegionBounds_min_size cfg) (LogHeapWordSize cfg).

(** The globals before the set-up: all zero, the flag as configured. *)
Definition initial_globals (flag : Z) : globals := {|
  LogOfHRGrainBytes := 0;
  LogOfHRGrainWords := 0;
  GrainBytes := 0;
  GrainWords := 0;
  CardsPerRegion := 0;
  G1HeapRegionSize := flag
|}.

(** Whether the set-up has not run yet, as its guarantees test it. *)
Definition unset (g : globals) : bool :=
  (LogOfHRGrainBytes g =? 0) && (LogOfHRGrainWords g =? 0) &&
  (GrainBytes g =? 0) && (GrainWords g =? 0) && (CardsPerRegion g =? 0).

(** What the flag and constant definitions establish: the bounds are
    powers of two that hold at least a heap word each, and the
    target number of regions is positive. *)
Record wf_sizing (cfg : RegionSizing) (log_min log_max : Z) : Prop := {
  wf_min : HeapRegionBounds_min_size cfg = 2 ^ log_min;
  wf_max : HeapRegionBounds_max_size cfg = 2 ^ log_max;
  wf_logs : 0 <= LogHeapWordSize cfg <= log_min /\ log_min <= log_max < 64;
  wf_target : 0 < HeapRegionBounds_target_number cfg;
  wf_card : 0 <= card_shift cfg
}.


(** The fields of a region that the operations below read or write.
    [HeapWord*] values are counted in words.  The first record is the
    part held by [G1ContiguousSpace] and its base classes. *)
Record space : Type := {
  _bottom : Z;
  _end : Z;
  _top : Z;
  _scan_top : Z;
  _compaction_top : Z;
  _gc_time_stamp : Z
}.

(** The marking information of a region. *)
Record marking : Type := {
  _prev_marked_bytes : Z;
  _next_marked_bytes : Z;
  _prev_top_at_mark_start : Z;
  _next_top_at_mark_start : Z
}.

(** The bookkeeping of a young region. *)
Record young : Type := {
  _young_index_in_cset : Z;
  _surv_rate_group : option Z;
  _age_index : Z
}.

(** [_humongous_start_region] is a position in the region table;
    [_in_collection_set] is the answer of the heap to
    [in_collection_set()]. *)
Record t : Type := {
  _space : space;
  _type : HeapRegionType;
  _allocation_context : Z;
  _humongous_start_region : option nat;
  _in_collection_set : bool;
  _young : young;
  _pre_dummy_top : Z;
  _rem_set : HeapRegionRemSet.t;
  _marking : marking
}.

(** Modelled from the spec: the accessors of space.hpp and
    heapRegion.hpp are missing; each reads the attribute it names. *)
Definition bottom (r : t) : Z := _bottom (_space r).
(** Modelled from the spec: the accessor of [top]. *)
Definition top (r : t) : Z := _top (_space r).
(** Modelled from the spec: the accessor of [end]. *)
Definition end_ (r : t) : Z := _end (_space r).
(** Modelled from the spec: the accessor of the owned remembered set. *)
Definition rem_set (r : t) : HeapRegionRemSet.t := _rem_set r.

(** Assignments to one component of the record. *)
Definition with_space (r : t) (s : space) : t := {|
  _space := s; _type := _type r; _allocation_context := _allocation_context r;
  _humongous_start_region := _humongous_start_region r;
  _in_collection_set := _in_collection_set r; _young := _young r;
  _pre_dummy_top := _pre_dummy_top r; _rem_set := _rem_set r;
  _marking := _marking r |}.
(** The region with another type. *)
Definition with_type (r : t) (ty : HeapRegionType) : t := {|
  _space := _space r; _type := ty; _allocation_context := _allocation_context r;
  _humongous_start_region := _humongous_start_region r;
  _in_collection_set := _in_collection_set r; _young := _young r;
  _pre_dummy_top := _pre_dummy_top r; _rem_set := _rem_set r;
  _marking := _marking r |}.
(** The region with other young bookkeeping. *)
Definition with_young (r : t) (y : young) : t := {|
  _space := _space r; _type := _type r; _allocation_context := _allocation_context r;
  _humongous_start_region := _humongous_start_region r;
  _in_collection_set := _in_collection_set r; _young := y;
  _pre_dummy_top := _pre_dummy_top r; _rem_set := _rem_set r;
  _marking := _marking r |}.
(** The region with another remembered set. *)
Definition with_rem_set (r : t) (rs : HeapRegionRemSet.t) : t := {|
  _space := _space r; _type := _type r; _allocation_context := _allocation_context r;
  _humongous_start_region := _humongous_start_region r;
  _in_collection_set := _in_collection_set r; _young := _young r;
  _pre_dummy_top := _pre_dummy_top r; _rem_set := rs;
  _marking := _marking r |}.
(** The region with other marking information. *)
Definition with_marking (r : t) (m : marking) : t := {|
  _space := _space r; _type := _type r; _allocation_context := _allocation_context r;
  _humongous_start_region := _humongous_start_region r;
  _in_collection_set := _in_collection_set r; _young := _young r;
  _pre_dummy_top := _pre_dummy_top r; _rem_set := _rem_set r;
  _marking := m |}.

(** The inline members of heapRegion.hpp that [hr_clear] calls are not
    part of the sources at hand.  Each resets the attribute it names. *)

(** Modelled from the spec: [AllocationContext::system()], the context
    of a region that no allocation context owns. *)
Definition AllocationContext_system : Z := 0.
(** Modelled from the spec: sets the attribute [allocation_context]. *)
Definition set_allocation_context (r : t) (context : Z) : t := {|
  _space := _space r; _type := _type r; _allocation_context := context;
  _humongous_start_region := _humongous_start_region r;
  _in_collection_set := _in_collection_set r; _young := _young r;
  _pre_dummy_top := _pre_dummy_top r; _rem_set := _rem_set r;
  _marking := _marking r |}.
(** Modelled from the spec: sets the attribute [young_index_in_cset]. *)
Definition set_young_index_in_cset (r : t) (index : Z) : t :=
  with_young r {| _young_index_in_cset := index;
                  _surv_rate_group := _surv_rate_group (_young r);
                  _age_index := _age_index (_young r) |}.
(** Modelled from the spec: detaches the region from its survivor-rate
    group, if it has one, and resets the age index with it. *)
Definition uninstall_surv_rate_group (r : t) : t :=
  match _surv_rate_group (_young r) with
  | Some _ =>
      with_young r {| _young_index_in_cset := _young_index_in_cset (_young r);
                      _surv_rate_group := None;
                      _age_index := -1 |}
  | None => r
  end.
(** Modelled from the spec: forgets the dummy top. *)
Definition reset_pre_dummy_top (r : t) : t := {|
  _space := _space r; _type := _type r; _allocation_context := _allocation_context r;
  _humongous_start_region := _humongous_start_region r;
  _in_collection_set := _in_collection_set r; _young := _young r;
  _pre_dummy_top := NULL; _rem_set := _rem_set r;
  _marking := _marking r |}.
(** Modelled from the spec: zeroes [prev_marked_bytes] and
    [next_marked_bytes], the liveness accounting of both marking epochs. *)
Definition zero_marked_bytes (r : t) : t :=
  with_marking r {| _prev_marked_bytes := 0; _next_marked_bytes := 0;
                    _prev_top_at_mark_start := _prev_top_at_mark_start (_marking r);
                    _next_top_at_mark_start := _next_top_at_mark_start (_marking r) |}.
(** Modelled from the spec: puts both tops at mark start back to
    [bottom]. *)
Definition init_top_at_mark_start (r : t) : t :=
  with_marking r {| _prev_marked_bytes := _prev_marked_bytes (_marking r);
                    _next_marked_bytes := _next_marked_bytes (_marking r);
                    _prev_top_at_mark_start := bottom r;
                    _next_top_at_mark_start := bottom r |}.
(** Modelled from the spec: whether the region is part of the active
    collection set. *)
Definition in_collection_set (r : t) : bool := _in_collection_set r.

(** Lines 221-224; the trace event changes no field. *)
Definition set_free (r : t) : t := with_type r Free.

(** [G1ContiguousSpace::clear], lines 974-979, with
    [CompactibleSpace::clear], which resets the compaction top; the
    mangling of the unused area and the block offset table are not
    part of the region record. *)
Definition clear (r : t) : t :=
  with_space r {| _bottom := bottom r;
                  _end := end_ r;
                  _top := bottom r;
                  _scan_top := bottom r;
                  _compaction_top := bottom r;
                  _gc_time_stamp := _gc_time_stamp (_space r) |}.

(** Line 193, [_gc_time_stamp = stamp]. *)
Definition set_gc_time_stamp (r : t) (stamp : Z) : t :=
  with_space r {| _bottom := bottom r;
                  _end := end_ r;
                  _top := top r;
                  _scan_top := _scan_top (_space r);
                  _compaction_top := _compaction_top (_space r);
                  _gc_time_stamp := stamp |}.

(** Lines 170-195; [heap_gc_time_stamp] is
    [G1CollectedHeap::heap()->get_gc_time_stamp()]. *)
Definition hr_clear (heap_gc_time_stamp : Z)
    (keep_remset clear_space locked : bool) (r : t) : outcome t :=
  _ ← vmassert (bool_decide (_humongous_start_region r = None))
        "we should have already filtered out humongous regions";
  _ ← vmassert (negb (in_collection_set r))
        "Should not clear heap region in the collection set";
  let r := set_allocation_context r AllocationContext_system in
  let r := set_young_index_in_cset r (-1) in
  let r := uninstall_surv_rate_group r in
  let r := set_free r in
  let r := reset_pre_dummy_top r in
  let r :=
    if negb keep_remset then
      if locked
      then with_rem_set r (HeapRegionRemSet.clear_locked (rem_set r))
      else with_rem_set r (HeapRegionRemSet.clear (rem_set r))
    else r in
  let r := zero_marked_bytes r in
  let r := init_top_at_mark_start r in
  let r := set_gc_time_stamp r heap_gc_time_stamp in
  mret (if clear_space then clear r else r).

(** A region that is clear already: free, empty, nothing remembered. *)
Definition already_clear (r : t) : Prop :=
  _type r = Free /\ top r = bottom r /\
  HeapRegionRemSet.is_empty (rem_set r) = true.

(** *** Scanning a card (lines 355-459) *)

(** Modelled from the spec: [MemRegion] (memory/memRegion.hpp) is
    missing; the card range, from [start()] up to [end()]. *)
Record MemRegion : Type := { mr_start : Z; mr_end : Z }.

(** Modelled from the spec: [MemRegion::contains], the inner range lies
    within the outer one. *)
Definition contains (outer inner : MemRegion) : bool :=
  (mr_start outer <=? mr_start inner) && (mr_end inner <=? mr_end outer).

(** What the scan asks of the heap and of the objects in it: the
    region table, whether a collection is running, the klass word of
    an object as a load sees it ([klass_or_null] and
    [klass_or_null_acquire] read the same word), the liveness oracle,
    and the layout queries.  All of it is defined outside the sources
    at hand. *)
Record heap : Type := {
  regions : list t;
  is_gc_active : bool;
  klass_or_null_acquire : Z -> Z;
  is_oop : Z -> bool;
  is_obj_dead : Z -> t -> bool;
  is_objArray : Z -> bool;
  size : Z -> Z;
  block_size : t -> Z -> Z;
  block_start : t -> Z -> Z
}.

(** An application of the closure to the reference fields of an
    object: all of them, or those inside a memory region. *)
Inductive iteration : Type :=
| oop_iterate (obj : Z)
| oop_iterate_bounded (obj : Z) (mr : MemRegion).

(** The object a closure application is made on. *)
Definition iterated_object (it : iteration) : Z :=
  match it with
  | oop_iterate obj => obj
  | oop_iterate_bounded obj _ => obj
  end.


(** Modelled from the spec: [is_humongous()] (heapRegion.hpp) is
    missing; the region starts or continues a humongous object. *)
Definition is_humongous (r : t) : bool :=
  match _type r with
  | StartsHumongous | ContinuesHumongous => true
  | _ => false
  end.
(** Modelled from the spec: [is_old()] (heapRegion.hpp) is missing. *)
Definition is_old (r : t) : bool :=
  match _type r with
  | Old => true
  | _ => false
  end.

(** Lines 358-397.  The result pairs the returned flag with the
    closure applications made, in order. *)
Definition do_oops_on_card_in_humongous (mr : MemRegion) (hr : t) (g1h : heap)
  : outcome (bool * list iteration) :=
  _ ← vmassert (is_humongous hr) "precondition";
  match _humongous_start_region hr ≫= fun k => regions g1h !! k with
  | None => Abort "no start region"
  | Some sr =>
      let obj := bottom sr in
      if negb (is_gc_active g1h) && (klass_or_null_acquire g1h obj =? NULL)
      then mret (false, [])
      else if negb (is_obj_dead g1h obj sr) then
        if is_objArray g1h obj || (bottom sr <? mr_start mr)
        then mret (true, [oop_iterate_bounded obj mr])
        else mret (true, [oop_iterate obj])
      else mret (true, [])
  end.

(** Lines 434-456, the walk over the objects on the card; the walk
    gives up with [Abort] when the fuel runs out. *)
Fixpoint walk_card (fuel : nat) (g1h : heap) (r : t) (mr : MemRegion) (cur : Z)
  : outcome (list iteration) :=
  match fuel with
  | O => Abort "out of fuel"
  | S fuel' =>
      let obj := cur in
      _ ← vmassert (is_oop g1h obj) "Not an oop";
      _ ← vmassert (negb (klass_or_null_acquire g1h obj =? NULL)) "Unparsable heap";
      let '(cur', its) :=
        if is_obj_dead g1h obj r
        then (cur + block_size g1h r cur, [])
        else
          let cur' := cur + size g1h obj in
          if negb (is_objArray g1h obj)
             || ((mr_start mr <=? obj) && (cur' <=? mr_end mr))
          then (cur', [oop_iterate obj])
          else (cur', [oop_iterate_bounded obj mr]) in
      if cur' <? mr_end mr
      then rest ← walk_card fuel' g1h r mr cur'; mret (its ++ rest)
      else mret its
  end.

(** Lines 399-459. *)
Definition oops_on_card_seq_iterate_careful (fuel : nat) (g1h : heap)
    (r : t) (mr : MemRegion) : outcome (bool * list iteration) :=
  _ ← vmassert (contains {| mr_start := bottom r; mr_end := end_ r |} mr)
        "Card region not in heap region";
  if is_humongous r then do_oops_on_card_in_humongous mr r g1h
  else
    _ ← vmassert (is_old r) "precondition";
    let start := mr_start mr in
    let cur := block_start g1h r start in
    _ ← vmassert (cur <=? start) "cur";
    _ ← vmassert (start <? cur + block_size g1h r cur) "start";
    its ← walk_card fuel g1h r mr cur;
    mret (true, its).

(** *** Humongous regions (lines 251-277) *)

(** Modelled from the spec: [is_starts_humongous()] (heapRegion.hpp) is
    missing; the region holds the start of a humongous object. *)
Definition is_starts_humongous (r : t) : bool :=
  match _type r with
  | StartsHumongous => true
  | _ => false
  end.

(** Modelled from the spec: [capacity()] (space.hpp) is missing; the
    bytes between [bottom] and [end]. *)
Definition capacity (cfg : RegionSizing) (r : t) : Z :=
  (end_ r - bottom r) * 2 ^ LogHeapWordSize cfg.

(** The region with another start region. *)
Definition with_humongous_start_region (r : t) (start : option nat) : t := {|
  _space := _space r; _type := _type r; _allocation_context := _allocation_context r;
  _humongous_start_region := start;
  _in_collection_set := _in_collection_set r; _young := _young r;
  _pre_dummy_top := _pre_dummy_top r; _rem_set := _rem_set r;
  _marking := _marking r |}.

(** Modelled from the spec: the setters of [HeapRegionType]
    (heapRegionType.hpp) for the two humongous tags are missing.  The
    only edge of the transition graph into either tag comes from
    [Free], and a transition off the graph is asserted. *)
Definition set_type_from_free (r : t) (ty : HeapRegionType) : outcome t :=
  _ ← vmassert (match _type r with Free => true | _ => false end)
        "type transition";
  mret (with_type r ty).

(** Lines 251-260, for the region at position [self] of the region
    table.  The trace event changes no field, and the block offset
    table, the only user of [obj_top] and [fill_size], is not part of
    the region record. *)
Definition set_starts_humongous (self : nat) (obj_top fill_size : Z) (r : t)
  : outcome t :=
  _ ← vmassert (negb (is_humongous r)) "sanity / pre-condition";
  _ ← vmassert (top r =? bottom r) "should be empty";
  r ← set_type_from_free r StartsHumongous;
  mret (with_humongous_start_region r (Some self)).

(** Lines 262-270; [first_hr] is the region at position [first] of the
    region table. *)
Definition set_continues_humongous (table : list t) (first : nat) (r : t)
  : outcome t :=
  _ ← vmassert (negb (is_humongous r)) "sanity / pre-condition";
  _ ← vmassert (top r =? bottom r) "should be empty";
  match table !! first with
  | None => Abort "no region"
  | Some first_hr =>
      _ ← vmassert (is_starts_humongous first_hr) "pre-condition";
      r ← set_type_from_free r ContinuesHumongous;
      mret (with_humongous_start_region r (Some first))
  end.

(** Lines 272-277. *)
Definition clear_humongous (cfg : RegionSizing) (g : globals) (r : t) : outcome t :=
  _ ← vmassert (is_humongous r) "pre-condition";
  _ ← vmassert (capacity cfg r =? GrainBytes g) "pre-condition";
  mret (with_humongous_start_region r None).

(** *** Initialisation and the scan limit (lines 301-309, 1008-1071) *)

(** Modelled from the spec: [set_top] (space.hpp) is missing; it stores
    [top]. *)
Definition set_top (r : t) (value : Z) : t :=
  with_space r {| _bottom := bottom r;
                  _end := end_ r;
                  _top := value;
                  _scan_top := _scan_top (_space r);
                  _compaction_top := _compaction_top (_space r);
                  _gc_time_stamp := _gc_time_stamp (_space r) |}.

(** Modelled from the spec: [CompactibleSpace::initialize] and the
    [Space::initialize] it calls (space.cpp) are missing.  They store
    the bounds of the memory region, clear the space if asked to, and
    put the compaction top at [bottom]. *)
Definition CompactibleSpace_initialize (r : t) (mr : MemRegion)
    (clear_space : bool) : t :=
  let r := with_space r {| _bottom := mr_start mr;
                           _end := mr_end mr;
                           _top := top r;
                           _scan_top := _scan_top (_space r);
                           _compaction_top := _compaction_top (_space r);
                           _gc_time_stamp := _gc_time_stamp (_space r) |} in
  let r := if clear_space then clear r else r in
  with_space r {| _bottom := bottom r;
                  _end := end_ r;
                  _top := top r;
                  _scan_top := _scan_top (_space r);
                  _compaction_top := bottom r;
                  _gc_time_stamp := _gc_time_stamp (_space r) |}.

(** [G1ContiguousSpace::initialize], lines 1065-1071; the saved mark
    word and the block offset table are not part of the region record,
    and neither is the mangling. *)
Definition G1ContiguousSpace_initialize (r : t) (mr : MemRegion)
    (clear_space : bool) : t :=
  let r := CompactibleSpace_initialize r mr clear_space in
  with_space r {| _bottom := bottom r;
                  _end := end_ r;
                  _top := bottom r;
                  _scan_top := bottom r;
                  _compaction_top := _compaction_top (_space r);
                  _gc_time_stamp := _gc_time_stamp (_space r) |}.

(** [G1ContiguousSpace::scan_top], lines 1008-1019. *)
Definition scan_top (heap_gc_time_stamp : Z) (r : t) : outcome Z :=
  let local_top := top r in
  let local_time_stamp := _gc_time_stamp (_space r) in
  _ ← vmassert (local_time_stamp <=? heap_gc_time_stamp) "invariant";
  if local_time_stamp <? heap_gc_time_stamp
  then mret local_top
  else mret (_scan_top (_space r)).

(** [G1ContiguousSpace::record_timestamp], lines 1021-1036. *)
Definition record_timestamp (heap_gc_time_stamp : Z) (r : t) : outcome t :=
  let curr_gc_time_stamp := heap_gc_time_stamp in
  if _gc_time_stamp (_space r) <? curr_gc_time_stamp then
    let st := _scan_top (_space r) in
    _ ← guarantee ((st =? bottom r) || (st =? top r)) "invariant";
    mret (set_gc_time_stamp r curr_gc_time_stamp)
  else mret r.

(** [G1ContiguousSpace::record_retained_region], lines 1038-1042. *)
Definition record_retained_region (r : t) : t :=
  with_space r {| _bottom := bottom r;
                  _end := end_ r;
                  _top := top r;
                  _scan_top := top r;
                  _compaction_top := _compaction_top (_space r);
                  _gc_time_stamp := _gc_time_stamp (_space r) |}.

(** Lines 301-309; [hr_clear(false, false)] leaves [locked] at its
    default. *)
Definition initialize (heap_gc_time_stamp : Z) (mr : MemRegion)
    (clear_space : bool) (r : t) : outcome t :=
  _ ← vmassert (HeapRegionRemSet.is_empty (rem_set r))
        "Remembered set must be empty";
  let r := G1ContiguousSpace_initialize r mr clear_space in
  r ← hr_clear heap_gc_time_stamp false false false r;
  let r := set_top r (bottom r) in
  record_timestamp heap_gc_time_stamp r.

(** What the walk over a card needs of the word at [a]: it parses as
    an object whose klass is set, and the step from it, by [block_size]
    if the object is dead and by [size] if it is live, is positive. *)
Definition walkable (g1h : heap) (r : t) (a : Z) : Prop :=
  is_oop g1h a = true /\
  klass_or_null_acquire g1h a <> NULL /\
  1 <= (if is_obj_dead g1h a r then block_size g1h r a else size g1h a).

(** A set of addresses from which the region parses up to [limit]:
    each of them is walkable, and the step from it leads to another of
    them or to [limit] or beyond. *)
Definition parsable (g1h : heap) (r : t) (limit : Z) (starts : Z -> Prop) : Prop :=
  forall a, starts a ->
    walkable g1h r a /\
    let next :=
      a + (if is_obj_dead g1h a r then block_size g1h r a else size g1h a) in
    (next < limit -> starts next).

(** A closure application as the walk from [cur] makes them: on a live
    object at or after [cur] that starts before the end of the card
    range (the first object visited may start anywhere), unbounded
    unless the object is an object array that sticks out of the card
    range. *)
Definition card_application (g1h : heap) (r : t) (mr : MemRegion) (cur : Z)
    (it : iteration) : Prop :=
  let obj := iterated_object it in
  cur <= obj /\ (obj < mr_end mr \/ obj = cur) /\
  is_obj_dead g1h obj r = false /\
  ((it = oop_iterate obj /\
    (is_objArray g1h obj = false \/
     (mr_start mr <= obj /\ obj + size g1h obj <= mr_end mr))) \/
   (it = oop_iterate_bounded obj mr /\
    is_objArray g1h obj = true /\
    (obj < mr_start mr \/ mr_end mr < obj + size g1h obj))).

(** *** [HeapRegionDCTOC::walk_mem_region] (lines 62-103) *)

(** Lines 85-95, the loop over the objects that end below [top]; the
    result pairs the last object reached with the closure applications
    made.  [g1h->is_obj_dead(obj)] looks the region of [obj] up, which
    is [_hr] for the objects walked here. *)
Fixpoint walk_mem_region_loop (fuel : nat) (g1h : heap) (r : t)
    (top cur next_obj : Z) : outcome (Z * list iteration) :=
  match fuel with
  | O => Abort "out of fuel"
  | S fuel' =>
      if next_obj <? top then
        let its := if negb (is_obj_dead g1h cur r) then [oop_iterate cur] else [] in
        let cur := next_obj in
        let oop_size := block_size g1h r cur in
        let next_obj := cur + oop_size in
        res ← walk_mem_region_loop fuel' g1h r top cur next_obj;
        mret (res.1, its ++ res.2)
      else mret (cur, [])
  end.

(** Lines 62-103; [oop_iterate_size(cl, mr)] applies the closure within
    [mr] and returns the size of the object. *)
Definition walk_mem_region (fuel : nat) (g1h : heap) (r : t) (mr : MemRegion)
    (bottom top : Z) : outcome (list iteration) :=
  let cur := bottom in
  let first :=
    if negb (is_obj_dead g1h cur r)
    then (size g1h cur, [oop_iterate_bounded cur mr])
    else (block_size g1h r cur, []) in
  let oop_size := first.1 in
  let cur := cur + oop_size in
  if cur <? top then
    let oop_size := block_size g1h r cur in
    let next_obj := cur + oop_size in
    res ← walk_mem_region_loop fuel g1h r top cur next_obj;
    let cur := res.1 in
    let last :=
      if negb (is_obj_dead g1h cur r) then [oop_iterate_bounded cur mr] else [] in
    mret (first.2 ++ res.2 ++ last)
  else mret first.2.

(** A set of block starts closed under the step by [block_size] while
    below [top], each block at least a word long. *)
Definition blocks_below (g1h : heap) (r : t) (top : Z) (blocks : Z -> Prop) : Prop :=
  forall a, blocks a ->
    1 <= block_size g1h r a /\
    (a + block_size g1h r a < top -> blocks (a + block_size g1h r a)).

(** A closure application as [walk_mem_region] makes them: on a live
    object; unbounded only on an object after the first whose block
    ends below [top], bounded by the card range on the first object
    and on the one whose block reaches [top]. *)
Definition region_application (g1h : heap) (r : t) (mr : MemRegion)
    (bottom top : Z) (it : iteration) : Prop :=
  let obj := iterated_object it in
  is_obj_dead g1h obj r = false /\
  ((it = oop_iterate obj /\ bottom < obj /\ obj + block_size g1h r obj < top) \/
   (it = oop_iterate_bounded obj mr /\
    (obj = bottom \/ (bottom < obj < top /\ top <= obj + block_size g1h r obj)))).

(** Addresses in increasing order within [lo, hi). *)
Definition sorted_between (lo hi : Z) (l : list Z) : Prop :=
  StronglySorted Z.lt l /\ Forall (fun a => lo <= a < hi) l.

End HeapRegion.

(** The values of the sources' platform: regions of 1 MB to 32 MB, 2048
    regions aimed at, 8-byte heap words, 512-byte cards. *)
Definition example_sizing : RegionSizing := {|
  G1HeapRegionSize_is_default := true;
  HeapRegionBounds_min_size := 1048576;
  HeapRegionBounds_max_size := 33554432;
  HeapRegionBounds_target_number := 2048;
  LogHeapWordSize := 3;
  card_shift := 9
|}.

(** The same bounds with the flag [G1HeapRegionSize] given on the
    command line. *)
Definition example_flag_sizing : RegionSizing := {|
  G1HeapRegionSize_is_default := false;
  HeapRegionBounds_min_size := 1048576;
  HeapRegionBounds_max_size := 33554432;
  HeapRegionBounds_target_number := 2048;
  LogHeapWordSize := 3;
  card_shift := 9
|}.

(** A region of 1024 words with nothing remembered and outside the
    collection set. *)
Definition example_region (ty : HeapRegionType) (bottom top : Z)
    (start : option nat) : HeapRegion.t := {|
  HeapRegion._space := {|
    HeapRegion._bottom := bottom;
    HeapRegion._end := bottom + 1024;
    HeapRegion._top := top;
    HeapRegion._scan_top := bottom;
    HeapRegion._compaction_top := bottom;
    HeapRegion._gc_time_stamp := 0 |};
  HeapRegion._type := ty;
  HeapRegion._allocation_context := 0;
  HeapRegion._humongous_start_region := start;
  HeapRegion._in_collection_set := false;
  HeapRegion._young := {|
    HeapRegion._young_index_in_cset := -1;
    HeapRegion._surv_rate_group := None;
    HeapRegion._age_index := -1 |};
  HeapRegion._pre_dummy_top := NULL;
  HeapRegion._rem_set := {|
    HeapRegionRemSet._other_regions := ∅;
    HeapRegionRemSet._code_roots := [] |};
  HeapRegion._marking := {|
    HeapRegion._prev_marked_bytes := 0;
    HeapRegion._next_marked_bytes := 0;
    HeapRegion._prev_top_at_mark_start := bottom;
    HeapRegion._next_top_at_mark_start := bottom |}
|}.

(** A heap with one humongous object of 1536 words that starts at word
    4096 and spans two regions; [klass] is what a load of its klass word
    gives. *)
Definition example_heap (klass : Z) : HeapRegion.heap := {|
  HeapRegion.regions :=
    [example_region StartsHumongous 4096 5120 (Some 0%nat);
     example_region ContinuesHumongous 5120 5632 (Some 0%nat)];
  HeapRegion.is_gc_active := false;
  HeapRegion.klass_or_null_acquire := fun obj => if obj =? 4096 then klass else NULL;
  HeapRegion.is_oop := fun obj => obj =? 4096;
  HeapRegion.is_obj_dead := fun _ _ => false;
  HeapRegion.is_objArray := fun _ => false;
  HeapRegion.size := fun _ => 1536;
  HeapRegion.block_size := fun _ _ => 1536;
  HeapRegion.block_start := fun _ _ => 4096
|}.

(** A heap with one old region of 1024 words from word 4096 that is
    filled with objects of 16 words each; the object at 4112 is dead. *)
Definition example_old_heap : HeapRegion.heap := {|
  HeapRegion.regions := [example_region Old 4096 5120 None];
  HeapRegion.is_gc_active := true;
  HeapRegion.klass_or_null_acquire := fun _ => 7;
  HeapRegion.is_oop := fun obj => obj mod 16 =? 0;
  HeapRegion.is_obj_dead := fun obj _ => obj =? 4112;
  HeapRegion.is_objArray := fun _ => false;
  HeapRegion.size := fun _ => 16;
  HeapRegion.block_size := fun _ _ => 16;
  HeapRegion.block_start := fun _ a => a / 16 * 16
|}.

(** ** Oop fields of objects (oop.inline.hpp, 44-86 and 358-455) *)

Module oopFields.

(** A call into the barrier set: [write_ref_field_pre(p, v)] before a
    store and [write_ref_field(p, v, release)] after it. *)
Inductive barrier : Type :=
| write_ref_field_pre (p v : Z)
| write_ref_field (p v : Z) (release : bool).

(** The memory the field accessors work on: the contents of the oop
    fields by address, and the calls made into the barrier set, oldest
    first.  The ordering of the accesses ([release], [fence]) is not
    part of this sequential view. *)
Record memory : Type := {
  cells : gmap Z Z;
  barriers : list barrier
}.

Section WithUniverse.
Context (U : Universe) (UseCompressedOops always_do_update_barrier : bool).

(** [*p] and [*p = x]. *)
Definition load (mem : memory) (p : Z) : Z := cells mem !!! p.
Definition store (mem : memory) (p x : Z) : memory :=
  {| cells := <[p := x]> (cells mem); barriers := barriers mem |}.

(** Lines 44-51; what the barrier set does with the call lies outside
    the sources at hand, the call is recorded. *)
Definition update_barrier_set (mem : memory) (p v : Z) (release : bool) : memory :=
  {| cells := cells mem; barriers := barriers mem ++ [write_ref_field p v release] |}.
Definition update_barrier_set_pre (mem : memory) (p v : Z) : memory :=
  {| cells := cells mem; barriers := barriers mem ++ [write_ref_field_pre p v] |}.

(** An oop that may be stored in a field: null, or an aligned address of
    the reserved heap. *)
Definition valid_oop (v : Z) : Prop :=
  v = NULL \/ (oopDesc.is_in_reserved U v = true /\
               oopDesc.check_obj_alignment U v = true).

(** Lines 363-366 and 373-376 for a [narrowOop*], and the overloads for
    an [oop*], which load and store the oop as it is. *)
Definition load_decode_heap_oop_narrow (mem : memory) (p : Z) : outcome Z :=
  oopDesc.decode_heap_oop U (load mem p).
Definition load_decode_heap_oop_wide (mem : memory) (p : Z) : outcome Z :=
  mret (load mem p).
Definition encode_store_heap_oop_narrow (mem : memory) (p v : Z) : outcome memory :=
  n ← oopDesc.encode_heap_oop U v; mret (store mem p n).
Definition encode_store_heap_oop_wide (mem : memory) (p v : Z) : outcome memory :=
  mret (store mem p v).

(** The choice between the two overloads that every accessor makes on
    [UseCompressedOops]. *)
Definition load_decode_heap_oop (mem : memory) (p : Z) : outcome Z :=
  if UseCompressedOops then load_decode_heap_oop_narrow mem p
  else load_decode_heap_oop_wide mem p.
Definition encode_store_heap_oop (mem : memory) (p v : Z) : outcome memory :=
  if UseCompressedOops then encode_store_heap_oop_narrow mem p v
  else encode_store_heap_oop_wide mem p v.

(** Lines 66-76, [oop_store(volatile T* p, oop v)]. *)
Definition oop_store_volatile (mem : memory) (p v : Z) : outcome memory :=
  let mem := update_barrier_set_pre mem p v in
  mem ← encode_store_heap_oop mem p v;
  mret (update_barrier_set mem p v true).

(** Lines 53-64, [oop_store(T* p, oop v)]. *)
Definition oop_store (mem : memory) (p v : Z) : outcome memory :=
  if always_do_update_barrier then oop_store_volatile mem p v
  else
    let mem := update_barrier_set_pre mem p v in
    mem ← encode_store_heap_oop mem p v;
    mret (update_barrier_set mem p v false).

(** Line 297, [field_base(offset)] of the object at [this]. *)
Definition field_base (this offset : Z) : Z := this + offset.

(** Lines 440-455. *)
Definition obj_field (mem : memory) (this offset : Z) : outcome Z :=
  load_decode_heap_oop mem (field_base this offset).
Definition obj_field_put (mem : memory) (this offset value : Z) : outcome memory :=
  oop_store mem (field_base this offset) value.
Definition obj_field_put_raw (mem : memory) (this offset value : Z) : outcome memory :=
  encode_store_heap_oop mem (field_base this offset) value.

(** Lines 499-503. *)
Definition release_obj_field_put (mem : memory) (this offset value : Z)
  : outcome memory :=
  oop_store_volatile mem (field_base this offset) value.

(** Lines 403-413.  The result is the oop returned and the memory
    left. *)
Definition atomic_exchange_oop (mem : memory) (exchange_value dest : Z)
  : outcome (Z * memory) :=
  if UseCompressedOops then
    val ← oopDesc.encode_heap_oop U exchange_value;
    let old := load mem dest in
    let mem := store mem dest val in
    r ← oopDesc.decode_heap_oop U old;
    mret (r, mem)
  else
    let old := load mem dest in
    mret (old, store mem dest exchange_value).

(** Lines 415-436; [Atomic::cmpxchg(val, dest, cmp)] stores [val] if the
    field holds [cmp] and returns what the field held. *)
Definition atomic_compare_exchange_oop (mem : memory)
    (exchange_value dest compare_value : Z) (prebarrier : bool)
  : outcome (Z * memory) :=
  if UseCompressedOops then
    let mem := if prebarrier then update_barrier_set_pre mem dest exchange_value
               else mem in
    val ← oopDesc.encode_heap_oop U exchange_value;
    cmp ← oopDesc.encode_heap_oop U compare_value;
    let old := load mem dest in
    let mem := if old =? cmp then store mem dest val else mem in
    r ← oopDesc.decode_heap_oop U old;
    mret (r, mem)
  else
    let mem := if prebarrier then update_barrier_set_pre mem dest exchange_value
               else mem in
    let old := load mem dest in
    let mem := if old =? compare_value then store mem dest exchange_value else mem in
    mret (old, mem).

(** The field at [p] holds the oop [v], in the representation that
    [UseCompressedOops] selects. *)
Definition holds (mem : memory) (p v : Z) : Prop :=
  if UseCompressedOops then oopDesc.encode_heap_oop U v = Normal (load mem p)
  else load mem p = v.

End WithUniverse.
End oopFields.

(** A memory with one field, at address 2^35 + 80, that holds the narrow
    oop 520. *)
Definition example_memory : oopFields.memory := {|
  oopFields.cells := {[ 2 ^ 35 + 80 := 520 ]};
  oopFields.barriers := []
|}.


(** ** Log outputs (logConfiguration.cpp) *)

Module LogConfiguration.

(** Modelled from the spec: [LogOutput] (logOutput.hpp) is missing; of
    an output the code at hand uses its identity and its name. *)
Record LogOutput : Type := {
  output_id : nat;
  name : string
}.

(** The calls that reach outside the array of outputs: an output is
    switched off on every tag set ([set_output_level(out, Off)] and
    [update_decorators()] on each), deleted, or has its description
    set to "all=off". *)
Inductive event : Type :=
| set_output_level_Off (out : LogOutput)
| delete_output_object (out : LogOutput)
| set_config_string_all_off (out : LogOutput).

(** The array [_outputs] with its length [_n_outputs], and the calls
    made so far, oldest first. *)
Record t : Type := {
  _outputs : list LogOutput;
  events : list event
}.

(** Modelled from the spec: [SIZE_MAX], the largest [size_t]. *)
Definition SIZE_MAX : Z := 2 ^ 64 - 1.

(** Lines 162-169, the loop from index [i] on. *)
Fixpoint find_output_from (outputs : list LogOutput) (i : nat) (nm : string) : Z :=
  match outputs with
  | [] => SIZE_MAX
  | o :: rest =>
      if String.eqb (name o) nm then Z.of_nat i
      else find_output_from rest (S i) nm
  end.

(** Lines 162-169. *)
Definition find_output (s : t) (nm : string) : Z :=
  find_output_from (_outputs s) 0 nm.

(** Lines 191-196. *)
Definition add_output (s : t) (output : LogOutput) : nat * t :=
  let idx := length (_outputs s) in
  (idx, {| _outputs := _outputs s ++ [output]; events := events s |}).

(** Lines 198-207: the last output takes the place of the deleted one
    and the array shrinks by one. *)
Definition delete_output (idx : nat) (s : t) : outcome t :=
  _ ← vmassert ((1 <? idx)%nat && (idx <? length (_outputs s))%nat)
        "idx must be in range 1 < idx < _n_outputs";
  let n := (length (_outputs s) - 1)%nat in
  match _outputs s !! idx, _outputs s !! n with
  | Some output, Some last =>
      mret {| _outputs := take n (<[idx := last]> (_outputs s));
              events := events s ++ [delete_output_object output] |}
  | _, _ => Abort "index out of bounds"
  end.

(** Lines 272-288. *)
Definition disable_output (idx : nat) (s : t) : outcome t :=
  _ ← vmassert (idx <? length (_outputs s))%nat "invalid index";
  match _outputs s !! idx with
  | Some out =>
      let s := {| _outputs := _outputs s;
                  events := events s ++ [set_output_level_Off out] |} in
      if (1 <? idx)%nat then delete_output idx s
      else mret {| _outputs := _outputs s;
                   events := events s ++ [set_config_string_all_off out] |}
  | None => Abort "index out of bounds"
  end.

(** The loop of lines 292-294 and 107-109, [i] counting down to 1. *)
Fixpoint disable_outputs_from (i : nat) (s : t) : outcome t :=
  match i with
  | O => mret s
  | S i' => s ← disable_output i' s; disable_outputs_from i' s
  end.

(** Lines 290-296; taking the lock and notifying the listeners change
    neither the array nor the outputs. *)
Definition disable_logging (s : t) : outcome t :=
  disable_outputs_from (length (_outputs s)) s.

(** What switching off the output at index [i] calls. *)
Definition disable_events (i : nat) (out : LogOutput) : list event :=
  [set_output_level_Off out;
   if (1 <? i)%nat then delete_output_object out
   else set_config_string_all_off out].

End LogConfiguration.

(** The outputs after the start-up with two files added. *)
Definition example_outputs : LogConfiguration.t := {|
  LogConfiguration._outputs :=
    [ {| LogConfiguration.output_id := 0; LogConfiguration.name := "stdout" |};
      {| LogConfiguration.output_id := 1; LogConfiguration.name := "stderr" |};
      {| LogConfiguration.output_id := 2; LogConfiguration.name := "file=gc.log" |};
      {| LogConfiguration.output_id := 3; LogConfiguration.name := "file=safepoint.log" |} ];
  LogConfiguration.events := []
|}.

(** ** Read edges between modules (moduleEntry.cpp) *)

Module ModuleEntry.

(** What the code asks of other modules and of their class loader
    data, both known by identity here: moduleEntry.hpp and
    classLoaderData.hpp are not part of the sources at hand, so the
    answers are parameters. *)
Record world : Type := {
  is_named_of : nat -> bool;                    (* m->is_named() *)
  loader_data_of : nat -> nat;                  (* m->loader_data() *)
  is_the_null_class_loader_data : nat -> bool;
  is_system_class_loader_data : nat -> bool;
  is_builtin_class_loader_data : nat -> bool;
  is_unloading : nat -> bool;
  javabase_moduleEntry : option nat             (* ModuleEntryTable::javabase_moduleEntry() *)
}.

(** The fields of a module entry that the code on read edges uses;
    [_reads] is [None] for the null pointer. *)
Record t : Type := {
  _is_named : bool;                             (* name() != NULL *)
  _loader_data : nat;
  _reads : option (list nat);
  _must_walk_reads : bool;
  _can_read_all_unnamed : bool;
  _has_default_read_edges : bool
}.

(** The entry with another reads list. *)
Definition with_reads (this : t) (reads : option (list nat)) : t := {|
  _is_named := _is_named this; _loader_data := _loader_data this;
  _reads := reads; _must_walk_reads := _must_walk_reads this;
  _can_read_all_unnamed := _can_read_all_unnamed this;
  _has_default_read_edges := _has_default_read_edges this |}.
(** The entry with another walk flag. *)
Definition with_must_walk_reads (this : t) (b : bool) : t := {|
  _is_named := _is_named this; _loader_data := _loader_data this;
  _reads := _reads this; _must_walk_reads := b;
  _can_read_all_unnamed := _can_read_all_unnamed this;
  _has_default_read_edges := _has_default_read_edges this |}.
(** Modelled from the spec: [set_can_read_all_unnamed()]
    (moduleEntry.hpp) is missing; it sets the flag it names. *)
Definition set_can_read_all_unnamed (this : t) : t := {|
  _is_named := _is_named this; _loader_data := _loader_data this;
  _reads := _reads this; _must_walk_reads := _must_walk_reads this;
  _can_read_all_unnamed := true;
  _has_default_read_edges := _has_default_read_edges this |}.

(** Modelled from the spec: [GrowableArray::contains]
    (utilities/growableArray.hpp) is missing; some element equals [m]. *)
Definition contains (l : list nat) (m : nat) : bool := existsb (Nat.eqb m) l.
(** Modelled from the spec: [GrowableArray::append_if_missing] appends
    an element that the array does not contain. *)
Definition append_if_missing (l : list nat) (m : nat) : list nat :=
  if contains l m then l else l ++ [m].
(** Modelled from the spec: [GrowableArray::delete_at] shrinks the array
    by one and, unless the index was the last one, puts the former last
    element at the index. *)
Definition delete_at (l : list nat) (index : nat) : list nat :=
  let len := (length l - 1)%nat in
  if (index <? len)%nat
  then match l !! len with
       | Some last => take len (<[index := last]> l)
       | None => take len l
       end
  else take len l.

(** Lines 169-172. *)
Definition has_reads (this : t) : bool :=
  match _reads this with
  | Some l => negb (bool_decide (l = []))
  | None => false
  end.

(** Lines 99-128; [m] is [None] for the null pointer. *)
Definition can_read (w : world) (this : t) (m : option nat) : outcome bool :=
  match m with
  | None => Abort "No module to lookup in this module's reads list"
  | Some m =>
      if negb (_is_named this) || bool_decide (javabase_moduleEntry w = Some m)
      then mret true
      else if _has_default_read_edges this && negb (is_named_of w m)
              && (let cld := loader_data_of w m in
                  is_the_null_class_loader_data w cld
                  || is_system_class_loader_data w cld)
      then mret true
      else if negb (has_reads this) then mret false
      else match _reads this with
           | Some l => mret (contains l m)
           | None => Abort "null reads list"
           end
  end.

(** The answer of [can_read] for a module that is not null, as one
    boolean. *)
Definition readable (w : world) (this : t) (m : nat) : bool :=
  negb (_is_named this)
  || bool_decide (javabase_moduleEntry w = Some m)
  || (_has_default_read_edges this && negb (is_named_of w m)
      && (is_the_null_class_loader_data w (loader_data_of w m)
          || is_system_class_loader_data w (loader_data_of w m)))
  || match _reads this with
     | Some l => contains l m
     | None => false
     end.

(** Lines 155-167; the trace line changes nothing. *)
Definition set_read_walk_required (w : world) (this : t) (m_loader_data : nat) : t :=
  if negb (_must_walk_reads this)
     && negb (Nat.eqb (_loader_data this) m_loader_data)
     && negb (is_builtin_class_loader_data w m_loader_data)
  then with_must_walk_reads this true
  else this.

(** Lines 131-148. *)
Definition add_read (w : world) (this : t) (m : option nat) : t :=
  match m with
  | None => set_can_read_all_unnamed this
  | Some m =>
      let this :=
        match _reads this with
        | None => with_reads this (Some [])
        | Some _ => this
        end in
      let this := set_read_walk_required w this (loader_data_of w m) in
      match _reads this with
      | Some l => with_reads this (Some (append_if_missing l m))
      | None => this
      end
  end.

(** Lines 187-198, the loop with [idx] counting down from [n - 1]. *)
Fixpoint purge_reads_loop (w : world) (n : nat) (this : t) : outcome t :=
  match n with
  | O => mret this
  | S idx =>
      match _reads this with
      | None => Abort "null reads list"
      | Some l =>
          match l !! idx with
          | None => Abort "illegal index"
          | Some module_idx =>
              let cld_idx := loader_data_of w module_idx in
              if is_unloading w cld_idx
              then purge_reads_loop w idx (with_reads this (Some (delete_at l idx)))
              else purge_reads_loop w idx (set_read_walk_required w this cld_idx)
          end
      end
  end.

(** Lines 175-202. *)
Definition purge_reads (w : world) (is_at_safepoint : bool) (this : t) : outcome t :=
  _ ← vmassert is_at_safepoint "must be at safepoint";
  if _must_walk_reads this && has_reads this then
    let this := with_must_walk_reads this false in
    match _reads this with
    | Some l => purge_reads_loop w (length l) this
    | None => Abort "null reads list"
    end
  else mret this.

(** Whether the module [m] is still alive. *)
Definition live (w : world) (m : nat) : bool :=
  negb (is_unloading w (loader_data_of w m)).

(** Whether a read edge to [m] makes the walk of the reads list
    necessary. *)
Definition needs_walk (w : world) (this : t) (m : nat) : bool :=
  negb (Nat.eqb (_loader_data this) (loader_data_of w m))
  && negb (is_builtin_class_loader_data w (loader_data_of w m)).

End ModuleEntry.

(** A world of five modules: module [m] is defined by loader [m],
    loader 0 is the boot loader, loader 1 the system loader, and the
    loaders 3 and 4 are being unloaded. *)
Definition example_world : ModuleEntry.world := {|
  ModuleEntry.is_named_of := fun _ => true;
  ModuleEntry.loader_data_of := fun m => m;
  ModuleEntry.is_the_null_class_loader_data := fun c => Nat.eqb c 0;
  ModuleEntry.is_system_class_loader_data := fun c => Nat.eqb c 1;
  ModuleEntry.is_builtin_class_loader_data := fun c => Nat.leb c 1;
  ModuleEntry.is_unloading := fun c => Nat.leb 3 c;
  ModuleEntry.javabase_moduleEntry := Some 0%nat
|}.

(** A named module of loader 2 with the given reads list. *)
Definition example_module (reads : option (list nat)) (walk : bool)
  : ModuleEntry.t := {|
  ModuleEntry._is_named := true;
  ModuleEntry._loader_data := 2;
  ModuleEntry._reads := reads;
  ModuleEntry._must_walk_reads := walk;
  ModuleEntry._can_read_all_unnamed := false;
  ModuleEntry._has_default_read_edges := false
|}.

(** ** The system dictionary (dictionary.cpp) *)

Module Dictionary.

(** What the dictionary asks of klasses and class loader data:
    klass.hpp, instanceKlass.hpp, classLoaderData.hpp and dictionary.hpp
    are not part of the sources at hand, so the answers are
    parameters.  Pointers are numbers, [NULL] is 0. *)
Record world : Type := {
  klass_name : Z -> Z;                          (* klass->name() *)
  klass_protection_domain : Z -> Z;             (* klass()->protection_domain() *)
  class_loader_data : Z -> Z;                   (* ik->class_loader_data() *)
  is_instance_klass : Z -> bool;                (* klass->is_instance_klass() *)
  is_the_null_class_loader_data : Z -> bool;
  is_unloading : Z -> bool;
  is_strongly_reachable : Z -> Z -> bool;       (* Dictionary::is_strongly_reachable *)
  compute_hash : Z -> Z -> Z;                   (* compute_hash(name, loader_data) *)
  table_size : Z
}.

(** An entry of a bucket: its own address, the hash and the klass held
    by the hashtable entry, the loader, and the protection domains of
    [_pd_set], newest first. *)
Record DictionaryEntry : Type := {
  entry_address : Z;
  _hash : Z;
  _klass : Z;
  _loader_data : Z;
  _pd_set : list Z
}.

(** The buckets, each with its chain from the head on, and the entry
    the class iterator stands at. *)
Record t : Type := {
  _buckets : list (list DictionaryEntry);
  _current_class_entry : Z
}.

(** Modelled from the spec: [hash_to_index] (hashtable.hpp) is missing;
    the hash modulo the table size. *)
Definition hash_to_index (w : world) (hash : Z) : Z := hash mod table_size w.
(** Modelled from the spec: [index_for(name, loader_data)]
    (dictionary.hpp), the index of the hash of the two. *)
Definition index_for (w : world) (name loader_data : Z) : Z :=
  hash_to_index w (compute_hash w name loader_data).
(** Modelled from the spec: [bucket(index)] (hashtable.hpp), the chain
    at an index. *)
Definition bucket (d : t) (index : Z) : list DictionaryEntry :=
  _buckets d !!! Z.to_nat index.
(** Modelled from the spec: [DictionaryEntry::equals] (dictionary.hpp);
    the entry is for this name and loader. *)
Definition equals (w : world) (e : DictionaryEntry) (class_name loader_data : Z) : bool :=
  (klass_name w (_klass e) =? class_name) && (_loader_data e =? loader_data).
(** The entry with another set of protection domains. *)
Definition with_pd_set (e : DictionaryEntry) (pds : list Z) : DictionaryEntry := {|
  entry_address := entry_address e; _hash := _hash e; _klass := _klass e;
  _loader_data := _loader_data e; _pd_set := pds |}.

(** Whether a protection domain is in a set. *)
Definition in_pd_set (pds : list Z) (protection_domain : Z) : bool :=
  existsb (Z.eqb protection_domain) pds.

(** Lines 92-123, with the block for debug builds. *)
Definition contains_protection_domain (w : world) (e : DictionaryEntry)
    (protection_domain : Z) : outcome bool :=
  _ ← (if protection_domain =? klass_protection_domain w (_klass e)
       then vmassert (negb (in_pd_set (_pd_set e) protection_domain))
              "A klass's protection domain should not show up in its sys. dict. PD set"
       else mret tt);
  if protection_domain =? klass_protection_domain w (_klass e)
  then mret true
  else mret (in_pd_set (_pd_set e) protection_domain).

(** Lines 126-143; the cache entry stands for the protection domain it
    was got for, and the trace output changes nothing. *)
Definition add_protection_domain_entry (w : world) (e : DictionaryEntry)
    (protection_domain : Z) : outcome DictionaryEntry :=
  c ← contains_protection_domain w e protection_domain;
  if negb c
  then mret (with_pd_set e (protection_domain :: _pd_set e))
  else mret e.

(** Lines 396-410, on a chain; the result is the position in the chain
    with the entry. *)
Fixpoint get_entry_from (w : world) (chain : list DictionaryEntry) (pos : nat)
    (hash class_name loader_data : Z) : option (nat * DictionaryEntry) :=
  match chain with
  | [] => None
  | entry :: rest =>
      if (_hash entry =? hash) && equals w entry class_name loader_data
      then Some (pos, entry)
      else get_entry_from w rest (S pos) hash class_name loader_data
  end.

(** Lines 396-410. *)
Definition get_entry (w : world) (d : t) (index hash class_name loader_data : Z)
  : option (nat * DictionaryEntry) :=
  get_entry_from w (bucket d index) 0 hash class_name loader_data.

(** Lines 424-431; [NULL] for no entry. *)
Definition find_class (w : world) (d : t) (index hash name loader_data : Z)
  : outcome Z :=
  _ ← vmassert (index =? index_for w name loader_data) "incorrect index?";
  match get_entry w d index hash name loader_data with
  | Some (_, entry) => mret (_klass entry)
  | None => mret NULL
  end.

(** Lines 68-78, without the dumping of shared spaces; [address] is
    where [Hashtable::new_entry] allocates the entry. *)
Definition new_entry (w : world) (address hash klass loader_data : Z)
  : outcome DictionaryEntry :=
  let entry := {| entry_address := address; _hash := hash; _klass := klass;
                  _loader_data := loader_data; _pd_set := [] |} in
  _ ← vmassert (is_instance_klass w klass) "Must be";
  mret entry.

(** Lines 373-384.  Modelled from the spec: [add_entry] of
    hashtable.hpp is missing; it puts the entry at the head of its
    bucket. *)
Definition add_klass (w : world) (d : t) (address : Z)
    (class_name loader_data obj : Z) : outcome t :=
  _ ← vmassert (negb (obj =? NULL)) "adding NULL obj";
  _ ← vmassert (klass_name w obj =? class_name) "sanity check on name";
  _ ← vmassert (negb (loader_data =? NULL)) "Must be non-NULL";
  let hash := compute_hash w class_name loader_data in
  let index := hash_to_index w hash in
  entry ← new_entry w address hash obj loader_data;
  mret {| _buckets := <[Z.to_nat index := entry :: bucket d index]> (_buckets d);
          _current_class_entry := _current_class_entry d |}.

(** Lines 446-461. *)
Definition add_protection_domain (w : world) (d : t)
    (index hash klass loader_data protection_domain : Z) : outcome t :=
  let klass_name := klass_name w klass in
  match get_entry w d index hash klass_name loader_data with
  | None => Abort "entry must be present, we just created it"
  | Some (pos, entry) =>
      _ ← vmassert (negb (protection_domain =? NULL))
            "real protection domain should be present";
      entry ← add_protection_domain_entry w entry protection_domain;
      c ← contains_protection_domain w entry protection_domain;
      _ ← vmassert c "now protection domain should be present";
      mret {| _buckets :=
                <[Z.to_nat index := <[pos := entry]> (bucket d index)]> (_buckets d);
              _current_class_entry := _current_class_entry d |}
  end.

(** Lines 156-188: whether [do_unloading] removes an entry. *)
Definition purge_entry (w : world) (probe : DictionaryEntry) : outcome bool :=
  let e := _klass probe in
  let loader_data := _loader_data probe in
  if negb (is_strongly_reachable w loader_data e) then
    _ ← vmassert (negb (is_the_null_class_loader_data w loader_data))
          "unloading entry with null class loader";
    let k_def_class_loader_data := class_loader_data w e in
    if is_unloading w loader_data then mret true
    else if is_unloading w k_def_class_loader_data then
      _ ← vmassert (negb (k_def_class_loader_data =? loader_data))
            "cannot have live defining loader and unreachable klass";
      mret true
    else mret false
  else mret false.

(** Lines 153-201, the walk along one chain; the result is the chain
    left and the entry the class iterator stands at. *)
Fixpoint do_unloading_chain (w : world) (chain : list DictionaryEntry)
    (current : Z) : outcome (list DictionaryEntry * Z) :=
  match chain with
  | [] => mret ([], current)
  | probe :: rest =>
      purge_entry w probe ≫= fun purge : bool =>
      if purge
      then do_unloading_chain w rest
             (if entry_address probe =? current then NULL else current)
      else
        res ← do_unloading_chain w rest current;
        mret (probe :: res.1, res.2)
  end.

(** Lines 152-202, the loop over the buckets. *)
Fixpoint do_unloading_buckets (w : world) (buckets : list (list DictionaryEntry))
    (current : Z) : outcome (list (list DictionaryEntry) * Z) :=
  match buckets with
  | [] => mret ([], current)
  | chain :: rest =>
      res ← do_unloading_chain w chain current;
      res' ← do_unloading_buckets w rest res.2;
      mret (res.1 :: res'.1, res'.2)
  end.

(** Lines 146-202. *)
Definition do_unloading (w : world) (is_at_safepoint : bool) (d : t) : outcome t :=
  _ ← vmassert is_at_safepoint "must be at safepoint";
  res ← do_unloading_buckets w (_buckets d) (_current_class_entry d);
  mret {| _buckets := res.1; _current_class_entry := res.2 |}.

(** Whether [do_unloading] keeps an entry: it is strongly reachable, or
    neither its loader nor the defining loader of its klass is being
    unloaded. *)
Definition kept (w : world) (probe : DictionaryEntry) : bool :=
  is_strongly_reachable w (_loader_data probe) (_klass probe)
  || (negb (is_unloading w (_loader_data probe))
      && negb (is_unloading w (class_loader_data w (_klass probe)))).

(** The invariant that the debug block of
    [contains_protection_domain] checks. *)
Definition pd_set_ok (w : world) (e : DictionaryEntry) : Prop :=
  in_pd_set (_pd_set e) (klass_protection_domain w (_klass e)) = false.

End Dictionary.

(** A world in which klass [k] has the name [k + 100], the protection
    domain [k + 200] and the defining loader [k mod 10]; loader 1 is the
    boot loader, loader 3 is being unloaded, and only the classes of the
    boot loader are strongly reachable. *)
Definition example_dictionary_world : Dictionary.world := {|
  Dictionary.klass_name := fun k => k + 100;
  Dictionary.klass_protection_domain := fun k => k + 200;
  Dictionary.class_loader_data := fun k => k mod 10;
  Dictionary.is_instance_klass := fun _ => true;
  Dictionary.is_the_null_class_loader_data := fun c => c =? 1;
  Dictionary.is_unloading := fun c => c =? 3;
  Dictionary.is_strongly_reachable := fun c _ => c =? 1;
  Dictionary.compute_hash := fun n c => n + c;
  Dictionary.table_size := 2
|}.

(** An entry for klass [k] and loader [c]. *)
Definition example_entry (k c : Z) (pds : list Z) : Dictionary.DictionaryEntry := {|
  Dictionary.entry_address := 1000 + k;
  Dictionary._hash := k + 100 + c;
  Dictionary._klass := k;
  Dictionary._loader_data := c;
  Dictionary._pd_set := pds
|}.

(** A dictionary of two buckets. *)
Definition example_dictionary : Dictionary.t := {|
  Dictionary._buckets :=
    [ [example_entry 12 2 [300]; example_entry 11 1 []];
      [example_entry 13 2 []; example_entry 22 3 []] ];
  Dictionary._current_class_entry := 1013
|}.

(* ===================================================================== *)
(** * Part II: properties                                                 *)
(* ===================================================================== *)

(** ** Helpers on outcomes and machine words *)

Lemma bind_Normal {A B} (a : A) (k : A -> outcome B) : (Normal a ≫= k) = k a.
Proof. reflexivity. Qed.

Lemma vmassert_true (msg : string) : vmassert true msg = Normal tt.
Proof. reflexivity. Qed.

Lemma size_t_small x : 0 <= x < 2 ^ 64 -> size_t x = x.
Proof. intros H. unfold size_t. apply Z.mod_small. exact H. Qed.

Lemma land_high_mask_small r : 0 <= r < 2 ^ 32 -> Z.land r 0xffffffff00000000 = 0.
Proof.
  intros Hr. apply Z.bits_inj'. intros n Hn.
  rewrite Z.land_spec, Z.bits_0.
  destruct (Z.ltb_spec n 32) as [Hlt | Hge].
  - change 0xffffffff00000000 with (Z.shiftl (Z.ones 32) 32).
    rewrite Z.shiftl_spec_low by lia. apply andb_false_r.
  - assert (Hpow : 2 ^ 32 <= 2 ^ n) by (apply Z.pow_le_mono_r; lia).
    assert (Hbit : Z.testbit r n = false).
    { apply Z.testbit_false; [exact Hn |].
      rewrite Z.div_small by lia. reflexivity. }
    rewrite Hbit. reflexivity.
Qed.

Lemma land_mask_mod a k : 0 <= k -> Z.land a (2 ^ k - 1) = a mod 2 ^ k.
Proof.
  intros Hk. rewrite <- Z.land_ones by exact Hk.
  rewrite Z.ones_equiv. reflexivity.
Qed.

Lemma mod_pow2_le a j k : 0 <= j <= k -> a mod 2 ^ k = 0 -> a mod 2 ^ j = 0.
Proof.
  intros Hjk Ha.
  assert (Hj : 0 < 2 ^ j) by (apply Z.pow_pos_nonneg; lia).
  assert (Hk : 0 < 2 ^ k) by (apply Z.pow_pos_nonneg; lia).
  apply Z.mod_divide in Ha; [| lia]. destruct Ha as [q Hq].
  replace k with (k - j + j) in Hq by lia.
  rewrite Z.pow_add_r in Hq by lia.
  subst a. rewrite Z.mul_assoc. apply Z.mod_mul. lia.
Qed.

(** ** Compressed oops *)

Section CompressedOopFacts.
Import oopDesc.
Context (U : Universe) (WF : wf_universe U).

Lemma aligned_mod a :
  check_obj_alignment U a = true -> a mod 2 ^ narrow_oop_shift U = 0.
Proof.
  destruct WF as [_ _ Hs Ha _ _ _].
  unfold check_obj_alignment, MinObjAlignmentInBytesMask.
  rewrite Ha, land_mask_mod by lia. intros H%Z.eqb_eq.
  apply mod_pow2_le with (k := LogMinObjAlignmentInBytes U); [lia | exact H].
Qed.

Lemma in_reserved_bounds a :
  is_in_reserved U a = true -> reserved_start U <= a < reserved_end U.
Proof. unfold is_in_reserved. intros H. apply andb_prop in H as [H1 H2]. lia. Qed.

(** Decoding the quotient [q] of an in-heap offset gives the address
    back; no assertion fires. *)
Lemma decode_quotient a q :
  is_in_reserved U a = true -> check_obj_alignment U a = true ->
  a = narrow_target U q -> 0 <= q ->
  decode_heap_oop U q = Normal a.
Proof.
  intros Hin Hal Hq Hq0.
  pose proof (in_reserved_bounds a Hin) as Hb.
  destruct WF as [Hbase Hend Hs _ _ Hreach _].
  unfold narrow_target in Hq.
  assert (Hp : 0 < 2 ^ narrow_oop_shift U) by (apply Z.pow_pos_nonneg; lia).
  assert (Hqpos : 0 < q) by nia.
  unfold decode_heap_oop, is_null.
  destruct (Z.eqb_spec q 0) as [-> | _]; [lia |].
  unfold decode_heap_oop_not_null, is_null.
  destruct (Z.eqb_spec q 0) as [-> | _]; [lia |].
  cbn [negb]. rewrite vmassert_true, bind_Normal.
  assert (Hres : uintptr_t (uintptr_t (narrow_oop_base U)
                   + uintptr_t (Z.shiftl (uintptr_t q) (narrow_oop_shift U))) = a).
  { unfold uintptr_t. rewrite Z.shiftl_mul_pow2 by lia.
    rewrite (Z.mod_small q) by nia.
    rewrite (Z.mod_small (narrow_oop_base U)) by lia.
    rewrite (Z.mod_small (q * _)) by nia.
    rewrite Z.mod_small by lia. lia. }
  rewrite Hres, Hal. reflexivity.
Qed.

Lemma encode_in_heap a :
  is_in_reserved U a = true -> check_obj_alignment U a = true ->
  exists q, encode_heap_oop U a = Normal q /\ 0 <= q < 2 ^ 32 /\
            a = narrow_target U q.
Proof.
  intros Hin Hal.
  pose proof (in_reserved_bounds a Hin) as Hb.
  pose proof (aligned_mod a Hal) as Hmod.
  pose proof WF as [Hbase Hend Hs _ Hbal Hreach Hmax].
  assert (Hp : 0 < 2 ^ narrow_oop_shift U) by (apply Z.pow_pos_nonneg; lia).
  set (d := a - narrow_oop_base U).
  assert (Hd : d mod 2 ^ narrow_oop_shift U = 0).
  { unfold d. rewrite Zminus_mod, Hmod, Hbal. reflexivity. }
  set (q := d / 2 ^ narrow_oop_shift U).
  assert (Hdq : d = q * 2 ^ narrow_oop_shift U).
  { unfold q. pose proof (Z.div_mod d (2 ^ narrow_oop_shift U)). lia. }
  assert (Hq : 0 <= q < 2 ^ 32) by (unfold d in *; nia).
  exists q. split; [| split; [exact Hq | unfold narrow_target, d in *; lia]].
  unfold encode_heap_oop, is_null.
  destruct (Z.eqb_spec a 0) as [-> | _]; [lia |].
  unfold encode_heap_oop_not_null, is_null, pointer_delta.
  destruct (Z.eqb_spec a 0) as [-> | _]; [lia |].
  cbn [negb]. rewrite vmassert_true, bind_Normal.
  rewrite Hal, vmassert_true, bind_Normal.
  rewrite Hin, vmassert_true, bind_Normal.
  destruct (Z.leb_spec (narrow_oop_base U) a) as [_ | ?]; [| lia].
  rewrite vmassert_true, !bind_Normal.
  unfold uint64_t. fold d. rewrite size_t_small by (unfold d; lia).
  rewrite (Z.mod_small d) by (unfold d; lia).
  destruct (Z.ltb_spec d (OopEncodingHeapMax U)) as [_ | ?]; [| unfold d in *; lia].
  rewrite vmassert_true, bind_Normal.
  rewrite Z.shiftr_div_pow2 by lia. fold q.
  rewrite land_high_mask_small by exact Hq.
  change (0 =? 0) with true. rewrite vmassert_true, bind_Normal.
  unfold narrowOop. rewrite Z.mod_small by exact Hq.
  rewrite (decode_quotient a q Hin Hal) by (unfold narrow_target, d in *; lia).
  rewrite bind_Normal, Z.eqb_refl, vmassert_true, bind_Normal. reflexivity.
Qed.

End CompressedOopFacts.

Example encode_heap_oop_example :
  oopDesc.encode_heap_oop example_universe (2 ^ 35 + 64) = Normal 520.
Proof. reflexivity. Qed.

Example decode_heap_oop_example :
  oopDesc.decode_heap_oop example_universe 520 = Normal (2 ^ 35 + 64).
Proof. reflexivity. Qed.

Example encode_heap_oop_unaligned :
  oopDesc.encode_heap_oop example_universe (2 ^ 35 + 3) = Abort "Address not aligned".
Proof. reflexivity. Qed.

(** C2.  Pointer-compression round trip.  With the encoding globals as the
    heap reservation sets them up, every object-aligned address [a] of the
    reserved heap is encoded without a failed assertion and decodes back to
    [a], and every valid narrow value [v] decodes without a failed
    assertion and encodes back to [v]; the narrow value is
    [(a - base) >> shift] and the address [base + (v << shift)]. *)
Theorem compressed_oop_round_trip (U : Universe) (WF : oopDesc.wf_universe U) :
  (forall a, oopDesc.is_in_reserved U a = true ->
             oopDesc.check_obj_alignment U a = true ->
     oopDesc.encode_heap_oop U a
       = Normal (Z.shiftr (a - narrow_oop_base U) (narrow_oop_shift U)) /\
     (oopDesc.encode_heap_oop U a ≫= oopDesc.decode_heap_oop U) = Normal a) /\
  (forall v, oopDesc.valid_narrow U v ->
     oopDesc.decode_heap_oop U v
       = Normal (if v =? 0 then NULL
                 else narrow_oop_base U + Z.shiftl v (narrow_oop_shift U)) /\
     (oopDesc.decode_heap_oop U v ≫= oopDesc.encode_heap_oop U) = Normal v).
Proof.
  pose proof WF as [Hbase Hend Hs _ Hbal Hreach Hmax].
  assert (Hp : 0 < 2 ^ narrow_oop_shift U) by (apply Z.pow_pos_nonneg; lia).
  split.
  - intros a Hin Hal.
    destruct (encode_in_heap U WF a Hin Hal) as (q & Hq & Hr & Ha).
    rewrite Hq, bind_Normal. split.
    + f_equal. unfold oopDesc.narrow_target in Ha.
      rewrite Z.shiftr_div_pow2 by lia.
      replace (a - narrow_oop_base U) with (q * 2 ^ narrow_oop_shift U) by lia.
      rewrite Z.div_mul by lia. reflexivity.
    + apply (decode_quotient U WF a q Hin Hal Ha). lia.
  - intros v [Hv [-> | [Hin Hal]]].
    + split; reflexivity.
    + pose proof (in_reserved_bounds U _ Hin) as Hb.
      unfold oopDesc.narrow_target in Hb.
      destruct (Z.eqb_spec v 0) as [-> | Hnz]; [lia |].
      rewrite Z.shiftl_mul_pow2 by lia. fold (oopDesc.narrow_target U v).
      rewrite (decode_quotient U WF _ v Hin Hal eq_refl) by lia.
      split; [reflexivity |]. rewrite bind_Normal.
      destruct (encode_in_heap U WF _ Hin Hal) as (q & Hq & Hr & Ha).
      rewrite Hq. f_equal. unfold oopDesc.narrow_target in Ha. nia.
Qed.

Lemma example_universe_wf : oopDesc.wf_universe example_universe.
Proof. constructor; cbn -[Z.pow Z.modulo]; first [lia | reflexivity]. Qed.

Lemma compressed_oop_round_trip_witness :
  (oopDesc.encode_heap_oop example_universe (2 ^ 35 + 64)
     ≫= oopDesc.decode_heap_oop example_universe) = Normal (2 ^ 35 + 64) /\
  (oopDesc.decode_heap_oop example_universe 520
     ≫= oopDesc.encode_heap_oop example_universe) = Normal 520.
Proof.
  destruct (compressed_oop_round_trip example_universe example_universe_wf)
    as [Henc Hdec].
  split.
  - apply Henc; reflexivity.
  - apply Hdec. split; [lia |]. right. split; reflexivity.
Defined.

(** ** Forwarding *)

Section ForwardingFacts.
Import Forwarding.
Context {M : markOopDesc}.

(** A header that holds a forwarding pointer is not changed by any
    access of [forward_to_atomic]: the CAS expects an unmarked word. *)
Lemma thread_step_marked_stable m c m' c' :
  is_marked m = true -> thread_step m c = Some (m', c') -> m' = m.
Proof.
  intros Hm Hstep. destruct c as [p | p old | p old cur | p r | p]; cbn in Hstep.
  - destruct (_ =? _); congruence.
  - destruct (is_marked old) eqn:Hold; [congruence |].
    destruct (Z.eqb_spec m old) as [-> | _]; congruence.
  - unfold is_forwarded in Hstep. rewrite Hm in Hstep.
    destruct (_ =? _); congruence.
  - discriminate.
  - discriminate.
Qed.

Lemma step_marked_stable j o :
  is_marked (_mark o) = true -> _mark (step j o) = _mark o.
Proof.
  intros Hm. unfold step.
  destruct (workers o !! j) as [c |]; [| reflexivity].
  destruct (thread_step (_mark o) c) as [[m' c'] |] eqn:Hstep; [| reflexivity].
  cbn. eapply thread_step_marked_stable; eassumption.
Qed.

Lemma step_lookup_ne i j o : i <> j -> workers (step j o) !! i = workers o !! i.
Proof.
  intros Hne. unfold step.
  destruct (workers o !! j) as [c |]; [| reflexivity].
  destruct (thread_step (_mark o) c) as [[m' c'] |]; [| reflexivity].
  cbn. apply list_lookup_insert_ne. congruence.
Qed.

Lemma step_lookup_eq i o c :
  workers o !! i = Some c ->
  workers (step i o) !! i
    = Some (match thread_step (_mark o) c with
            | Some (_, c') => c'
            | None => c
            end).
Proof.
  intros Hc. unfold step. rewrite Hc.
  destruct (thread_step (_mark o) c) as [[m' c'] |]; [| exact Hc].
  cbn. apply list_lookup_insert_eq. eapply lookup_lt_Some. exact Hc.
Qed.

Lemma turns_cons_eq i rest : turns i (i :: rest) = S (turns i rest).
Proof. cbn. rewrite Nat.eqb_refl. reflexivity. Qed.

Lemma turns_cons_ne i j rest : i <> j -> turns i (j :: rest) = turns i rest.
Proof. intros Hne. cbn. apply Nat.eqb_neq in Hne. rewrite Hne. reflexivity. Qed.

Lemma won_run i p old sched : forall o k,
  is_marked (_mark o) = true ->
  workers o !! i = Some (won_pc p old k) ->
  _mark (run sched o) = _mark o /\
  workers (run sched o) !! i = Some (won_pc p old (k + turns i sched)).
Proof.
  induction sched as [| j rest IH]; intros o k Hm Hw.
  - cbn. rewrite Nat.add_0_r. auto.
  - cbn [run].
    pose proof (step_marked_stable j o Hm) as Hstable.
    destruct (Nat.eq_dec i j) as [<- | Hne].
    + rewrite turns_cons_eq.
      destruct (IH (step i o) (S k)) as [IH1 IH2].
      * rewrite Hstable. exact Hm.
      * rewrite (step_lookup_eq i o _ Hw).
        destruct k as [| k']; cbn; [| reflexivity].
        unfold is_forwarded. rewrite Hm, Z.eqb_refl. reflexivity.
      * rewrite IH1, IH2, Hstable, Nat.add_succ_r. split; [reflexivity |].
        destruct k; reflexivity.
    + rewrite (turns_cons_ne i j rest Hne).
      destruct (IH (step j o) k) as [IH1 IH2].
      * rewrite Hstable. exact Hm.
      * rewrite step_lookup_ne by exact Hne. exact Hw.
      * rewrite IH1, IH2, Hstable. auto.
Qed.

Lemma lost_run i p old cur sched : forall o k,
  is_marked cur = true -> cur <> old -> _mark o = cur ->
  workers o !! i = Some (lost_pc p old cur k) ->
  _mark (run sched o) = cur /\
  workers (run sched o) !! i = Some (lost_pc p old cur (k + turns i sched)).
Proof.
  intros o k Hm Hne. revert o k.
  induction sched as [| j rest IH]; intros o k Hmark Hw.
  - cbn. rewrite Nat.add_0_r. auto.
  - cbn [run].
    assert (Hstable : _mark (step j o) = cur).
    { rewrite step_marked_stable; [exact Hmark | rewrite Hmark; exact Hm]. }
    destruct (Nat.eq_dec i j) as [<- | Hij].
    + rewrite turns_cons_eq, Nat.add_succ_r.
      destruct (IH (step i o) (S k) Hstable) as [IH1 IH2].
      * rewrite (step_lookup_eq i o _ Hw), Hmark.
        destruct k as [| [| k']]; cbn.
        -- unfold is_forwarded. rewrite Hm.
           destruct (Z.eqb_spec cur old); [contradiction | reflexivity].
        -- rewrite Hm. reflexivity.
        -- reflexivity.
      * auto.
    + rewrite (turns_cons_ne i j rest Hij).
      apply IH; [exact Hstable |].
      rewrite step_lookup_ne by exact Hij. exact Hw.
Qed.

End ForwardingFacts.

(** The race of two workers: worker 1 wins, both return, and worker 0
    returns what worker 1 installed. *)
Example racing_object_run :
  Forwarding.run [1; 0; 1; 0; 0]%nat racing_object
  = {| Forwarding._mark := 8195;
       Forwarding.workers :=
         [Forwarding.Returned 4096 8192; Forwarding.Returned 8192 NULL] |}.
Proof. reflexivity. Qed.

(** The two outcomes of the CAS, seen from a worker that stands before
    it with an unmarked [oldMark] in hand, while the workers take their
    header accesses in any order.
    (a) If the header still holds [oldMark] the CAS installs the pointer:
    from then on the header is forwarded and [forwardee()] is [p] in every
    later state, and the worker returns NULL on its next access.
    (b) If another worker forwarded the object in the meantime the CAS
    fails: the header stays what that worker installed, and after its
    next two accesses the worker has returned that forwardee. *)
Lemma cas_outcome_from_loop {M : markOopDesc}
    (o : Forwarding.object) (i : nat) (p oldMark : Z) (sched : list nat) :
  Forwarding.workers o !! i = Some (Forwarding.AtLoop p oldMark) ->
  is_marked oldMark = false ->
  (Forwarding._mark o = oldMark ->
   decode_pointer (encode_pointer_as_mark p) = p ->
   is_marked (encode_pointer_as_mark p) = true ->
   let o' := Forwarding.run sched (Forwarding.step i o) in
   Forwarding.is_forwarded (Forwarding._mark o') = true /\
   Forwarding.forwardee (Forwarding._mark o') = p /\
   Forwarding.workers o' !! i
     = Some (match Forwarding.turns i sched with
             | O => Forwarding.AtAssert p oldMark oldMark
             | S _ => Forwarding.Returned p NULL
             end)) /\
  (Forwarding._mark o <> oldMark ->
   is_marked (Forwarding._mark o) = true ->
   let o' := Forwarding.run sched (Forwarding.step i o) in
   Forwarding._mark o' = Forwarding._mark o /\
   Forwarding.workers o' !! i
     = Some (match Forwarding.turns i sched with
             | O => Forwarding.AtAssert p oldMark (Forwarding._mark o)
             | S O => Forwarding.AtLoop p (Forwarding._mark o)
             | S (S _) =>
                 Forwarding.Returned p
                   (Forwarding.forwardee (Forwarding._mark o))
             end)).
Proof.
  intros Hw Hold.
  pose proof (step_lookup_eq i o _ Hw) as Hi. cbn in Hi. rewrite Hold in Hi.
  split.
  - intros Hmark Hdec Henc o'.
    assert (Hm' : Forwarding._mark (Forwarding.step i o) = encode_pointer_as_mark p).
    { unfold Forwarding.step. rewrite Hw. cbn. rewrite Hold. cbn.
      rewrite Hmark, Z.eqb_refl. reflexivity. }
    rewrite Hmark in Hi.
    destruct (won_run i p oldMark sched (Forwarding.step i o) O) as [H1 H2].
    + rewrite Hm'. exact Henc.
    + exact Hi.
    + subst o'. unfold Forwarding.is_forwarded, Forwarding.forwardee.
      rewrite H1, Hm', H2. auto.
  - intros Hne Hm o'.
    assert (Hm' : Forwarding._mark (Forwarding.step i o) = Forwarding._mark o).
    { apply step_marked_stable. exact Hm. }
    destruct (lost_run i p oldMark (Forwarding._mark o) sched
                (Forwarding.step i o) O Hm Hne Hm' Hi) as [H1 H2].
    subst o'. rewrite H1, H2. auto.
Qed.


(** ** Identity hash *)

(** C5 as stated fails for a forwarded object: with the header word
    itself as the store and a slow path that answers 42, the header 4099
    (forwarded to address 4096) is marked, and its identity hash is the
    hash field of that word, 16, not the answer of the slow path. *)
Lemma identity_hash_forwarded_counterexample :
  is_marked 4099 = true /\
  Forwarding.forwardee 4099 = 4096 /\
  IdentityHash.identity_hash (fun m => m) (fun h => (42, h)) 4099 = (16, 4099) /\
  IdentityHash.identity_hash (fun m => m) (fun h => (42, h)) 4099
    <> (fun h : Z => (42, h)) 4099.
Proof. repeat split. discriminate. Qed.

(** C5, amended.  [identity_hash] reads the header once.  If the header
    is unlocked and carries a hash, that hash is returned and the store is
    left as it is.  If the header is marked (the object is forwarded), the
    hash field of the header word is returned, again without touching the
    store and without the slow path.  Only when the header is not marked
    and is either not unlocked (locked) or carries no hash does the call
    go to [slow_identity_hash]. *)
Theorem identity_hash_dispatch {M : markOopDesc} {H : Type}
    (mark : H -> Z) (slow_identity_hash : H -> Z * H) (h : H) :
  (is_unlocked (mark h) = true -> has_no_hash (mark h) = false ->
   IdentityHash.identity_hash mark slow_identity_hash h = (hash (mark h), h)) /\
  (is_marked (mark h) = true ->
   IdentityHash.identity_hash mark slow_identity_hash h = (hash (mark h), h)) /\
  (is_marked (mark h) = false ->
   is_unlocked (mark h) = false \/ has_no_hash (mark h) = true ->
   IdentityHash.identity_hash mark slow_identity_hash h = slow_identity_hash h).
Proof.
  unfold IdentityHash.identity_hash. repeat split.
  - intros -> ->. reflexivity.
  - intros ->. destruct (_ && _); reflexivity.
  - intros -> [-> | ->]; [reflexivity |].
    rewrite andb_false_r. reflexivity.
Qed.

Lemma identity_hash_dispatch_witness :
  IdentityHash.identity_hash (fun m => m) (fun h => (42, h)) 0x2a01 = (0x2a, 0x2a01) /\
  IdentityHash.identity_hash (fun m => m) (fun h => (42, h)) 4099 = (16, 4099) /\
  IdentityHash.identity_hash (fun m => m) (fun h => (42, h)) 4096 = (42, 4096).
Proof.
  pose proof (identity_hash_dispatch (M := markOop64_ops)
                (fun m => m) (fun h => (42, h))) as Hthm.
  split; [| split].
  - destruct (Hthm 0x2a01) as (Hfast & _ & _). apply Hfast; reflexivity.
  - destruct (Hthm 4099) as (_ & Hfwd & _). apply Hfwd; reflexivity.
  - destruct (Hthm 4096) as (_ & _ & Hslow).
    apply Hslow; [reflexivity | left; reflexivity].
Defined.

(** ** PLAB sizing *)

Section PLABFacts.
Import G1EvacStats.
Context {F : Type} {filter : AdaptiveWeightedAverage F} (flags : PLABFlags).

Lemma MAX2_max a b : MAX2 a b = Z.max a b.
Proof. unfold MAX2. destruct (Z.gtb_spec a b); lia. Qed.

Lemma used_range (s : t F) : 0 <= used s < 2 ^ 64.
Proof. unfold used, size_t. apply Z.mod_pos_bound. lia. Qed.

Lemma used_for_waste_max (s : t F) :
  0 <= _region_end_waste s ->
  used_for_waste_calculation s = Z.max (used s - _region_end_waste s) 0.
Proof.
  intros Hrew. pose proof (used_range s) as Hu. unfold used_for_waste_calculation.
  destruct (Z.gtb_spec (used s) (_region_end_waste s)).
  - rewrite size_t_small by lia. lia.
  - lia.
Qed.

(** With resizing on and the clipping assertion satisfied, the call is
    the guard for the empty round followed by the sizing proper. *)
Lemma adjust_unfold (s : t F) :
  ResizePLAB flags = true ->
  is_object_aligned flags (max_size flags) = true ->
  min_size flags <= max_size flags ->
  adjust_desired_plab_sz flags s
  = (guard_zero_allocation s ≫= fun s1 =>
     let f := sample (_filter s1) (cur_plab_sz flags s1) in
     Normal (reset (set_filter_and_desired s1 f
                      (MAX2 (min_size flags) (average f))))).
Proof.
  intros Hre Hal Hmm. unfold adjust_desired_plab_sz. rewrite Hre, Hal. cbn [negb andb].
  destruct (Z.leb_spec (min_size flags) (max_size flags)); [| lia].
  reflexivity.
Qed.

End PLABFacts.

Example adjust_desired_plab_sz_example :
  G1EvacStats._desired_net_plab_sz
    (match G1EvacStats.adjust_desired_plab_sz example_flags
             (example_stats 1600 40 55 5) with
     | Normal s' => s'
     | Abort _ => example_stats 0 0 0 0
     end) = 300.
Proof. reflexivity. Qed.

Example adjust_desired_plab_sz_fixed :
  G1EvacStats.adjust_desired_plab_sz
    {| ResizePLAB := false; TargetPLABWastePct := 10;
       plab_sz_of_waste := fun x => x / 50;
       min_size := 258; max_size := 131072; MinObjAlignment := 2 |}
    (example_stats 1600 40 55 5)
  = Normal (G1EvacStats.reset (example_stats 1600 40 55 5)).
Proof. reflexivity. Qed.

(** C3 as stated fails in both of its upper parts: after a pause that
    allocated ten million words the stored desired size is two million
    words, above [max_size]; and after a pause that allocated 2505 words
    it is 501 words, inside the bounds but not a multiple of the
    alignment 2. *)
Lemma desired_plab_sz_unclamped_counterexample :
  (exists s',
     G1EvacStats.adjust_desired_plab_sz example_flags
       (example_stats 10000000 0 0 0) = Normal s' /\
     G1EvacStats._desired_net_plab_sz s' = 2000000 /\
     ~ (G1EvacStats._desired_net_plab_sz s' <= max_size example_flags)) /\
  (exists s',
     G1EvacStats.adjust_desired_plab_sz example_flags
       (example_stats 2505 0 0 0) = Normal s' /\
     G1EvacStats._desired_net_plab_sz s' = 501 /\
     G1EvacStats.is_object_aligned example_flags
       (G1EvacStats._desired_net_plab_sz s') = false).
Proof.
  split; eexists; (split; [vm_compute; reflexivity |]); split;
    [reflexivity | | reflexivity | reflexivity].
  intros Hle. vm_compute in Hle. apply Hle. reflexivity.
Qed.

(** C3, amended.  With adaptive resizing on, a call that passes its
    assertions stores a desired size that is at least [min_size]; the
    stored value is neither clamped from above nor aligned. *)
Theorem desired_plab_sz_lower_bound {F : Type} {filter : AdaptiveWeightedAverage F}
    (flags : PLABFlags) (s : G1EvacStats.t F) :
  ResizePLAB flags = true ->
  G1EvacStats.is_object_aligned flags (max_size flags) = true ->
  min_size flags <= max_size flags ->
  (G1EvacStats._allocated s = 0 -> G1EvacStats._unused s = 0) ->
  exists s', G1EvacStats.adjust_desired_plab_sz flags s = Normal s' /\
             min_size flags <= G1EvacStats._desired_net_plab_sz s'.
Proof.
  intros Hre Hal Hmm Hzero.
  rewrite (adjust_unfold flags s Hre Hal Hmm).
  unfold G1EvacStats.guard_zero_allocation.
  destruct (Z.eqb_spec (G1EvacStats._allocated s) 0) as [Ha | Ha].
  - rewrite (Hzero Ha). cbn. eexists. split; [reflexivity |].
    cbn. rewrite MAX2_max. lia.
  - cbn. eexists. split; [reflexivity |].
    cbn. rewrite MAX2_max. lia.
Qed.

Lemma desired_plab_sz_lower_bound_witness :
  exists s', G1EvacStats.adjust_desired_plab_sz example_flags
               (example_stats 1000 20 30 50) = Normal s' /\
             258 <= G1EvacStats._desired_net_plab_sz s'.
Proof.
  apply (desired_plab_sz_lower_bound example_flags (example_stats 1000 20 30 50)).
  - reflexivity.
  - reflexivity.
  - cbn. lia.
  - cbn. lia.
Defined.

(** C6 as stated fails in its rounding step: after a pause that used
    1505 words the code stores 301 words, which is not a multiple of the
    alignment 2; rounded to the alignment it would be 302. *)
Lemma plab_sizing_not_rounded_counterexample :
  exists s',
    G1EvacStats.adjust_desired_plab_sz example_flags
      (example_stats 1505 0 0 0) = Normal s' /\
    G1EvacStats._desired_net_plab_sz s' = 301 /\
    PLABSizingSpec.desired_size_rounded example_flags
      (example_stats 1505 0 0 0) = 302.
Proof.
  eexists. split; [vm_compute; reflexivity |]. split; reflexivity.
Qed.

(** C6, amended.  With adaptive resizing on, a call that passes its
    assertions computes [used_for_waste = max(used - region_end_waste, 0)],
    multiplies it by [TargetPLABWastePct] (in [size_t]), converts the
    product to the candidate size through the quotient by
    [G1LastPLABAverageOccupancy], feeds the candidate to the filter and
    stores [max(min_size, filtered average)] as it is, without rounding
    to the allocation alignment; all per-collection accumulators are
    zero afterwards. *)
Theorem plab_sizing_algorithm {F : Type} {filter : AdaptiveWeightedAverage F}
    (flags : PLABFlags) (s : G1EvacStats.t F) :
  ResizePLAB flags = true ->
  G1EvacStats.is_object_aligned flags (max_size flags) = true ->
  min_size flags <= max_size flags ->
  (G1EvacStats._allocated s = 0 -> G1EvacStats._unused s = 0) ->
  0 <= G1EvacStats._region_end_waste s ->
  exists s', G1EvacStats.adjust_desired_plab_sz flags s = Normal s' /\
    G1EvacStats._desired_net_plab_sz s' = PLABSizingSpec.desired_size flags s /\
    G1EvacStats._filter s' = PLABSizingSpec.filtered flags s /\
    G1EvacStats._allocated s' = 0 /\ G1EvacStats._wasted s' = 0 /\
    G1EvacStats._undo_wasted s' = 0 /\ G1EvacStats._unused s' = 0 /\
    G1EvacStats._region_end_waste s' = 0 /\ G1EvacStats._regions_filled s' = 0 /\
    G1EvacStats._direct_allocated s' = 0 /\ G1EvacStats._failure_used s' = 0 /\
    G1EvacStats._failure_waste s' = 0.
Proof.
  intros Hre Hal Hmm Hzero Hrew.
  rewrite (adjust_unfold flags s Hre Hal Hmm).
  assert (Hguard : G1EvacStats.guard_zero_allocation s
                   = Normal (PLABSizingSpec.round_stats s)).
  { unfold G1EvacStats.guard_zero_allocation, PLABSizingSpec.round_stats.
    destruct (Z.eqb_spec (G1EvacStats._allocated s) 0) as [Ha | Ha];
      [rewrite (Hzero Ha) |]; reflexivity. }
  rewrite Hguard, bind_Normal. cbv zeta.
  assert (Hrs_rew : G1EvacStats._region_end_waste (PLABSizingSpec.round_stats s)
                    = G1EvacStats._region_end_waste s).
  { unfold PLABSizingSpec.round_stats. destruct (_ =? _); reflexivity. }
  assert (Hrs_filter : G1EvacStats._filter (PLABSizingSpec.round_stats s)
                       = G1EvacStats._filter s).
  { unfold PLABSizingSpec.round_stats. destruct (_ =? _); reflexivity. }
  assert (Hcur : G1EvacStats.cur_plab_sz flags (PLABSizingSpec.round_stats s)
                 = PLABSizingSpec.candidate_size flags s).
  { unfold G1EvacStats.cur_plab_sz, G1EvacStats.total_waste_allowed,
      PLABSizingSpec.candidate_size, PLABSizingSpec.used_for_waste.
    rewrite used_for_waste_max by (rewrite Hrs_rew; exact Hrew).
    rewrite Hrs_rew. reflexivity. }
  eexists. split; [reflexivity |].
  cbn. rewrite Hcur, Hrs_filter, MAX2_max.
  repeat split; reflexivity.
Qed.

Lemma plab_sizing_algorithm_witness :
  exists s', G1EvacStats.adjust_desired_plab_sz example_flags
               (example_stats 1600 40 55 5) = Normal s' /\
    G1EvacStats._desired_net_plab_sz s' = 300 /\
    G1EvacStats._allocated s' = 0.
Proof.
  destruct (plab_sizing_algorithm example_flags (example_stats 1600 40 55 5))
    as (s' & Hrun & Hsz & _ & Hal & _).
  - reflexivity.
  - reflexivity.
  - cbn. lia.
  - cbn. lia.
  - cbn. lia.
  - exists s'. split; [exact Hrun |]. split; [| exact Hal].
    rewrite Hsz. reflexivity.
Defined.

(** C7 as stated fails in what is asserted: a round with nothing
    allocated and nothing unused but five words wasted passes the
    assertion and returns normally. *)
Lemma plab_zero_round_wasted_counterexample :
  G1EvacStats._allocated (example_stats 0 5 0 0) = 0 /\
  G1EvacStats._wasted (example_stats 0 5 0 0) <> 0 /\
  exists s',
    G1EvacStats.adjust_desired_plab_sz example_flags
      (example_stats 0 5 0 0) = Normal s'.
Proof.
  split; [reflexivity |]. split; [discriminate |].
  eexists. vm_compute. reflexivity.
Qed.

(** C7, amended.  In a round with [_allocated == 0] the code asserts
    that [_unused] is zero and nothing about [_wasted]: the assertion
    fires exactly when [_unused] is not zero, so it never fires when the
    empty round reports no unused words.  When it passes, [_allocated]
    is set to 1 and the call goes on as for a round that allocated one
    word, and returns normally. *)
Theorem plab_zero_allocation_round {F : Type} {filter : AdaptiveWeightedAverage F}
    (flags : PLABFlags) (s : G1EvacStats.t F) :
  ResizePLAB flags = true ->
  G1EvacStats.is_object_aligned flags (max_size flags) = true ->
  min_size flags <= max_size flags ->
  G1EvacStats._allocated s = 0 ->
  (G1EvacStats._unused s <> 0 ->
   G1EvacStats.adjust_desired_plab_sz flags s = Abort "Inconsistency in PLAB stats") /\
  (G1EvacStats._unused s = 0 ->
   G1EvacStats.guard_zero_allocation s = Normal (G1EvacStats.set_allocated s 1) /\
   G1EvacStats.adjust_desired_plab_sz flags s
   = G1EvacStats.adjust_desired_plab_sz flags (G1EvacStats.set_allocated s 1) /\
   exists s', G1EvacStats.adjust_desired_plab_sz flags s = Normal s').
Proof.
  intros Hre Hal Hmm Ha.
  rewrite !(adjust_unfold flags _ Hre Hal Hmm).
  unfold G1EvacStats.guard_zero_allocation. rewrite Ha. cbn [Z.eqb].
  split.
  - intros Hun. apply Z.eqb_neq in Hun. rewrite Hun. reflexivity.
  - intros Hun. rewrite Hun. cbn. repeat split. eexists. reflexivity.
Qed.

Lemma plab_zero_allocation_round_witness :
  G1EvacStats.adjust_desired_plab_sz example_flags (example_stats 0 0 3 0)
  = Abort "Inconsistency in PLAB stats" /\
  exists s', G1EvacStats.adjust_desired_plab_sz example_flags
               (example_stats 0 0 0 0) = Normal s'.
Proof.
  split.
  - destruct (plab_zero_allocation_round example_flags (example_stats 0 0 3 0))
      as [Hfire _]; [reflexivity | reflexivity | cbn; lia | reflexivity |].
    apply Hfire. discriminate.
  - destruct (plab_zero_allocation_round example_flags (example_stats 0 0 0 0))
      as [_ Hpass]; [reflexivity | reflexivity | cbn; lia | reflexivity |].
    apply Hpass. reflexivity.
Defined.

(** ** The refinement thread chain *)

Section RefineFacts.
Import ConcurrentG1RefineThread.

Lemma is_active_secondary j c nx :
  threads c !! j = Some nx -> is_primary nx = false ->
  is_active j c = _active nx.
Proof. intros Hj Hp. unfold is_active. rewrite Hj, Hp. reflexivity. Qed.

Lemma set_flag_other i j x c : i <> j -> threads (set_flag i x c) !! j = threads c !! j.
Proof.
  intros Hne. unfold set_flag.
  destruct (threads c !! i) as [th |]; [| reflexivity].
  destruct (negb (is_primary th)); [| reflexivity].
  cbn. apply list_lookup_insert_ne. exact Hne.
Qed.

Lemma set_flag_dcqs_buffers i x c :
  DirtyCardQueueSet.completed_buffers_num (dcqs (set_flag i x c))
  = DirtyCardQueueSet.completed_buffers_num (dcqs c).
Proof.
  unfold set_flag.
  destruct (threads c !! i) as [th |]; [| reflexivity].
  destruct (negb (is_primary th)); reflexivity.
Qed.

Lemma activate_secondary j c nx :
  threads c !! j = Some nx -> is_primary nx = false ->
  threads (activate j c) !! j = Some (set_active nx true).
Proof.
  intros Hj Hp. unfold activate, set_flag. rewrite Hj, Hp. cbn.
  apply list_lookup_insert_eq. eapply lookup_lt_Some. exact Hj.
Qed.

(** One pass leaves the successor's flag as it was unless the backlog
    read at the head of the pass exceeds the successor's threshold. *)
Lemma service_pass_successor yz i j c th nx :
  threads c !! i = Some th -> _next th = Some j ->
  threads c !! j = Some nx -> is_primary nx = false ->
  is_active j (service_pass yz i c).2
  = is_active j c
    || (DirtyCardQueueSet.completed_buffers_num (dcqs c) >? _activation_threshold nx).
Proof.
  intros Hi Hnext Hj Hp. unfold service_pass. rewrite Hi, Hnext.
  set (c1 := if _ && _ then _ else c).
  assert (Hthreads1 : threads c1 = threads c).
  { unfold c1. destruct (_ && _); reflexivity. }
  rewrite Hthreads1, Hj.
  assert (Hact1 : is_active j c1 = _active nx).
  { apply is_active_secondary; [rewrite Hthreads1; exact Hj | exact Hp]. }
  rewrite Hact1, (is_active_secondary j c nx Hj Hp).
  destruct (DirtyCardQueueSet.apply_closure_to_completed_buffer _ _)
    as [processed q] eqn:Hq.
  destruct (_active nx) eqn:Hnx; cbn [negb andb orb].
  - unfold is_active. cbn. rewrite Hthreads1, Hj, Hp. exact Hnx.
  - destruct (DirtyCardQueueSet.completed_buffers_num (dcqs c)
                >? _activation_threshold nx) eqn:Hgt.
    + unfold is_active. cbn [snd threads].
      rewrite (activate_secondary j c1 nx) by (rewrite ?Hthreads1; assumption).
      change (is_primary (set_active nx true)) with (is_primary nx).
      rewrite Hp. reflexivity.
    + unfold is_active. cbn. rewrite Hthreads1, Hj, Hp. exact Hnx.
Qed.

(** While the backlog stays at or below the successor's threshold a
    pass changes no thread record and does not grow the backlog. *)
Lemma service_pass_quiet yz i j c th nx :
  threads c !! i = Some th -> _next th = Some j ->
  threads c !! j = Some nx -> is_primary nx = false ->
  DirtyCardQueueSet.completed_buffers_num (dcqs c) <= _activation_threshold nx ->
  threads (service_pass yz i c).2 = threads c /\
  DirtyCardQueueSet.completed_buffers_num (dcqs (service_pass yz i c).2)
    <= DirtyCardQueueSet.completed_buffers_num (dcqs c).
Proof.
  intros Hi Hnext Hj Hp Hle. unfold service_pass. rewrite Hi, Hnext.
  set (c1 := if _ && _ then _ else c).
  assert (Hthreads1 : threads c1 = threads c).
  { unfold c1. destruct (_ && _); reflexivity. }
  assert (Hn1 : DirtyCardQueueSet.completed_buffers_num (dcqs c1)
                = DirtyCardQueueSet.completed_buffers_num (dcqs c)).
  { unfold c1. destruct (_ && _); reflexivity. }
  rewrite Hthreads1, Hj.
  destruct (Z.gtb_spec (DirtyCardQueueSet.completed_buffers_num (dcqs c))
              (_activation_threshold nx)) as [Hgt | _]; [lia |].
  rewrite andb_false_r.
  unfold DirtyCardQueueSet.apply_closure_to_completed_buffer.
  fold (DirtyCardQueueSet.completed_buffers_num (dcqs c1)). rewrite Hn1.
  destruct (DirtyCardQueueSet.completed_buffers_num (dcqs c)
              <=? _deactivation_threshold th);
    cbn; (split; [exact Hthreads1 |]);
    unfold DirtyCardQueueSet.completed_buffers_num in *; cbn; lia.
Qed.

Lemma service_loop_quiet yz i j th nx obs : forall c,
  i <> j ->
  threads c !! i = Some th -> _next th = Some j ->
  threads c !! j = Some nx -> is_primary nx = false ->
  (forall o, In o obs -> 0 <= enqueued o) ->
  DirtyCardQueueSet.completed_buffers_num (dcqs c) + total_enqueued obs
    <= _activation_threshold nx ->
  threads (service_loop yz obs i c) !! j = Some nx.
Proof.
  induction obs as [| o rest IH]; intros c Hij Hi Hnext Hj Hp Hpos Hle.
  - exact Hj.
  - cbn [service_loop].
    assert (Ho : 0 <= enqueued o) by (apply Hpos; left; reflexivity).
    assert (Hrest : forall o', In o' rest -> 0 <= enqueued o')
      by (intros o' Hin; apply Hpos; right; exact Hin).
    assert (Htot : 0 <= total_enqueued rest).
    { clear -Hrest. induction rest as [| o' r IHr]; cbn; [lia |].
      pose proof (Hrest o' (or_introl eq_refl)).
      assert (0 <= total_enqueued r) by (apply IHr; intros; apply Hrest; right; assumption).
      unfold total_enqueued in *. lia. }
    set (c0 := {| threads := threads c; dcqs := _ |}).
    assert (Hn0 : DirtyCardQueueSet.completed_buffers_num (dcqs c0)
                  = DirtyCardQueueSet.completed_buffers_num (dcqs c) + enqueued o)
      by reflexivity.
    cbn [total_enqueued foldr] in Hle. fold (total_enqueued rest) in Hle.
    destruct (should_terminate o).
    { unfold deactivate. rewrite set_flag_other by exact Hij. exact Hj. }
    destruct (should_yield o).
    { apply IH; try assumption. rewrite Hn0. lia. }
    destruct (service_pass_quiet yz i j c0 th nx Hi Hnext Hj Hp) as [Hth Hn];
      [rewrite Hn0; lia |].
    destruct (service_pass yz i c0) as [processed c1]. cbn [snd] in Hth, Hn.
    destruct processed.
    + apply IH; try assumption; rewrite ?Hth; try assumption. lia.
    + unfold deactivate. rewrite set_flag_other by exact Hij.
      rewrite Hth. exact Hj.
Qed.

End RefineFacts.

(** A backlog of 10 lets thread 0 wake thread 1 and lets thread 1 leave
    thread 2 idle. *)
Example example_chain_cascade :
  let c1 := (ConcurrentG1RefineThread.service_pass 6 0 (example_chain 10)).2 in
  let c2 := (ConcurrentG1RefineThread.service_pass 6 1 c1).2 in
  ConcurrentG1RefineThread.is_active 1 c1 = true /\
  ConcurrentG1RefineThread.is_active 2 c2 = false /\
  DirtyCardQueueSet.completed_buffers_num (ConcurrentG1RefineThread.dcqs c2) = 8.
Proof. repeat split. Qed.

(** C8.  Hysteresis of the refinement chain.  For every thread of the
    chain, the last one included, a threshold update with
    [deactivate < activate] passes its assertion, stores both values, and
    keeps [deactivation_threshold < activation_threshold] for every thread
    of the chain; with [activate <= deactivate] the assertion fails and
    nothing is stored.  For a thread with a successor, in one pass of the
    service loop the successor is active afterwards exactly if it was
    active before or the backlog read in the pass strictly exceeds the
    successor's activation threshold.  Hence along the whole inner loop
    an idle successor stays idle as long as the backlog, with all that
    mutators enqueue meanwhile, stays at or below that threshold. *)
Theorem refinement_chain_hysteresis
    (yellow_zone : Z) (c : ConcurrentG1RefineThread.chain) (i : nat)
    (th : ConcurrentG1RefineThread.t) :
  ConcurrentG1RefineThread.threads c !! i = Some th ->
  (forall activate deactivate,
     (deactivate < activate ->
      exists th',
        ConcurrentG1RefineThread.update_thresholds th activate deactivate = Normal th' /\
        ConcurrentG1RefineThread._activation_threshold th' = activate /\
        ConcurrentG1RefineThread._deactivation_threshold th' = deactivate /\
        ConcurrentG1RefineThread._deactivation_threshold th'
          < ConcurrentG1RefineThread._activation_threshold th' /\
        (ConcurrentG1RefineThread.hysteresis c ->
         ConcurrentG1RefineThread.hysteresis
           {| ConcurrentG1RefineThread.threads :=
                <[i := th']> (ConcurrentG1RefineThread.threads c);
              ConcurrentG1RefineThread.dcqs := ConcurrentG1RefineThread.dcqs c |})) /\
     (activate <= deactivate ->
      ConcurrentG1RefineThread.update_thresholds th activate deactivate
      = Abort "precondition")) /\
  (forall (j : nat) (nx : ConcurrentG1RefineThread.t),
     ConcurrentG1RefineThread._next th = Some j ->
     ConcurrentG1RefineThread.threads c !! j = Some nx ->
     ConcurrentG1RefineThread.is_primary nx = false ->
     i <> j ->
     ConcurrentG1RefineThread.is_active j
       (ConcurrentG1RefineThread.service_pass yellow_zone i c).2
     = ConcurrentG1RefineThread.is_active j c
       || (DirtyCardQueueSet.completed_buffers_num (ConcurrentG1RefineThread.dcqs c)
           >? ConcurrentG1RefineThread._activation_threshold nx) /\
     (forall obs,
        ConcurrentG1RefineThread.is_active j c = false ->
        (forall o, In o obs -> 0 <= ConcurrentG1RefineThread.enqueued o) ->
        DirtyCardQueueSet.completed_buffers_num (ConcurrentG1RefineThread.dcqs c)
          + ConcurrentG1RefineThread.total_enqueued obs
          <= ConcurrentG1RefineThread._activation_threshold nx ->
        ConcurrentG1RefineThread.is_active j
          (ConcurrentG1RefineThread.service_loop yellow_zone obs i c) = false)).
Proof.
  intros Hi. split.
  - intros a d. split.
    + intros Hlt. unfold ConcurrentG1RefineThread.update_thresholds.
      destruct (Z.ltb_spec d a) as [_ | ?]; [| lia].
      eexists. split; [reflexivity |]. cbn.
      split; [reflexivity |]. split; [reflexivity |]. split; [exact Hlt |].
      intros Hh k thk Hk. cbn in Hk.
      destruct (Nat.eq_dec i k) as [<- | Hne].
      * rewrite list_lookup_insert_eq in Hk by (eapply lookup_lt_Some; exact Hi).
        injection Hk as <-. cbn. exact Hlt.
      * rewrite list_lookup_insert_ne in Hk by exact Hne. eapply Hh. exact Hk.
    + intros Hge. unfold ConcurrentG1RefineThread.update_thresholds.
      destruct (Z.ltb_spec d a) as [? | _]; [lia | reflexivity].
  - intros j nx Hnext Hj Hp Hij. split.
    + eapply service_pass_successor; eassumption.
    + intros obs Hidle Hpos Hle.
      rewrite (is_active_secondary j c nx Hj Hp) in Hidle.
      rewrite (is_active_secondary j _ nx); [exact Hidle | | exact Hp].
      eapply service_loop_quiet; eassumption.
Qed.

Lemma refinement_chain_hysteresis_witness :
  (exists th',
     ConcurrentG1RefineThread.update_thresholds (example_thread 2 None 12 9) 20 15
     = Normal th' /\
     ConcurrentG1RefineThread._deactivation_threshold th'
       < ConcurrentG1RefineThread._activation_threshold th') /\
  ConcurrentG1RefineThread.update_thresholds (example_thread 2 None 12 9) 5 5
  = Abort "precondition" /\
  ConcurrentG1RefineThread.is_active 2
    (ConcurrentG1RefineThread.service_pass 6 1 (example_chain 10)).2 = false /\
  ConcurrentG1RefineThread.is_active 2
    (ConcurrentG1RefineThread.service_pass 6 1 (example_chain 13)).2 = true.
Proof.
  split; [| split; [| split]].
  - destruct (refinement_chain_hysteresis 6 (example_chain 10) 2
                (example_thread 2 None 12 9)) as (Hupd & _); [reflexivity |].
    destruct (Hupd 20 15) as (Hok & _).
    destruct Hok as (th' & Hrun & _ & _ & Hlt & _); [lia |].
    exists th'. split; [exact Hrun | exact Hlt].
  - destruct (refinement_chain_hysteresis 6 (example_chain 10) 2
                (example_thread 2 None 12 9)) as (Hupd & _); [reflexivity |].
    destruct (Hupd 5 5) as (_ & Hfail). apply Hfail. lia.
  - destruct (refinement_chain_hysteresis 6 (example_chain 10) 1
                (example_thread 1 (Some 2%nat) 8 5)) as (_ & Hsucc); [reflexivity |].
    destruct (Hsucc 2%nat (example_thread 2 None 12 9)) as (Hpass & _);
      [reflexivity | reflexivity | reflexivity | lia |].
    rewrite Hpass. reflexivity.
  - destruct (refinement_chain_hysteresis 6 (example_chain 13) 1
                (example_thread 1 (Some 2%nat) 8 5)) as (_ & Hsucc); [reflexivity |].
    destruct (Hsucc 2%nat (example_thread 2 None 12 9)) as (Hpass & _);
      [reflexivity | reflexivity | reflexivity | lia |].
    rewrite Hpass. reflexivity.
Defined.

(** ** Region size set-up *)

Section RegionSizeFacts.
Import HeapRegion.

Lemma uint64_small x : 0 <= x < 2 ^ 64 -> uint64_t x = x.
Proof. intros H. unfold uint64_t. apply Z.mod_small. exact H. Qed.

(** The loop of [log2_long], entered with [p = 2^k] and [i = k - 1]. *)
Lemma log2_long_loop_spec x : 1 <= x < 2 ^ 64 ->
  forall (fuel : nat) (k : Z),
    0 <= k <= 64 -> 65 <= Z.of_nat fuel + k ->
    (k = 0 \/ 2 ^ (k - 1) <= x) ->
    log2_long_loop fuel (k - 1) (uint64_t (2 ^ k)) x = Z.log2 x.
Proof.
  intros Hx. induction fuel as [| fuel IH]; intros k Hk Hfuel Hinv.
  - lia.
  - cbn [log2_long_loop].
    destruct (Z.eq_dec k 64) as [-> | Hk64].
    + change (uint64_t (2 ^ 64)) with 0. cbn [Z.eqb negb andb].
      symmetry. apply Z.log2_unique; [lia |].
      destruct Hinv as [? | Hinv]; [lia |].
      change (64 - 1) with 63 in *. change (63 + 1) with 64. lia.
    + assert (Hpk : 0 < 2 ^ k < 2 ^ 64).
      { split; [apply Z.pow_pos_nonneg; lia |].
        apply Z.pow_lt_mono_r; lia. }
      rewrite uint64_small by lia.
      destruct (Z.eqb_spec (2 ^ k) 0) as [? | _]; [lia |].
      cbn [negb andb].
      destruct (Z.leb_spec (2 ^ k) x) as [Hle | Hgt].
      * replace (k - 1 + 1) with (k + 1 - 1) by lia.
        replace (2 ^ k * 2) with (2 ^ (k + 1)) by (rewrite Z.pow_add_r; lia).
        apply IH; [lia | lia |]. right.
        replace (k + 1 - 1) with k by lia. exact Hle.
      * symmetry. apply Z.log2_unique.
        -- destruct Hinv as [-> | Hinv];
             [exfalso; rewrite Z.pow_0_r in Hgt; lia |].
           destruct (Z.eq_dec k 0) as [-> | ?];
             [exfalso; rewrite Z.pow_0_r in Hgt; lia | lia].
        -- destruct Hinv as [-> | Hinv];
             [exfalso; rewrite Z.pow_0_r in Hgt; lia |].
           replace (Z.succ (k - 1)) with k by lia. lia.
Qed.

Lemma log2_long_correct x : 1 <= x < 2 ^ 64 -> log2_long x = Z.log2 x.
Proof.
  intros Hx. unfold log2_long. rewrite (uint64_small x) by lia.
  apply (log2_long_loop_spec x Hx 65 0); [lia | lia | left; reflexivity].
Qed.

Lemma log2_long_pow2 c : 0 <= c < 64 -> log2_long (2 ^ c) = c.
Proof.
  intros Hc.
  assert (0 < 2 ^ c < 2 ^ 64)
    by (split; [apply Z.pow_pos_nonneg | apply Z.pow_lt_mono_r]; lia).
  rewrite log2_long_correct by lia. apply Z.log2_pow2. lia.
Qed.

Lemma shift_one_ok n : 0 <= n < 64 -> shift_one n = Normal (2 ^ n).
Proof.
  intros Hn. unfold shift_one.
  destruct (Z.leb_spec 0 n); [| lia]. destruct (Z.ltb_spec n 64); [| lia].
  cbn [andb]. rewrite Z.shiftl_mul_pow2, Z.mul_1_l by lia.
  rewrite size_t_small; [reflexivity |].
  split; [apply Z.pow_nonneg | apply Z.pow_lt_mono_r]; lia.
Qed.

Lemma region_MAX2_max a b : MAX2 a b = Z.max a b.
Proof. unfold MAX2. destruct (Z.gtb_spec a b); lia. Qed.

(** The set-up in closed form: the region size is [2^c] for a [c]
    between the logarithms of the bounds, and the five guarantees on
    the old values decide between that result and the abort. *)
Lemma setup_closed_form cfg log_min log_max initial_heap_size max_heap_size g :
  wf_sizing cfg log_min log_max ->
  (G1HeapRegionSize_is_default cfg = false -> 1 <= G1HeapRegionSize g < 2 ^ 64) ->
  exists c, log_min <= c <= log_max /\
    setup_heap_region_size cfg initial_heap_size max_heap_size g
    = if unset g
      then Normal {| LogOfHRGrainBytes := c;
                     LogOfHRGrainWords := c - LogHeapWordSize cfg;
                     GrainBytes := 2 ^ c;
                     GrainWords := 2 ^ (c - LogHeapWordSize cfg);
                     CardsPerRegion := Z.shiftr (2 ^ c) (card_shift cfg);
                     G1HeapRegionSize := 2 ^ c |}
      else Abort "we should only set it once".
Proof.
  intros [Hmin Hmax [Hlw Hlog] Htarget Hcard] Hflag.
  unfold setup_heap_region_size.
  set (rs0 := if G1HeapRegionSize_is_default cfg then _ else _).
  assert (Hpmin : 1 <= 2 ^ log_min < 2 ^ 64).
  { split; [| apply Z.pow_lt_mono_r; lia].
    assert (0 < 2 ^ log_min) by (apply Z.pow_pos_nonneg; lia). lia. }
  assert (Hrs0 : 1 <= rs0 < 2 ^ 64).
  { unfold rs0. destruct (G1HeapRegionSize_is_default cfg); [| auto].
    rewrite region_MAX2_max, Hmin.
    assert (Havg : 0 <= size_t (initial_heap_size + max_heap_size) / 2 < 2 ^ 64).
    { unfold size_t.
      pose proof (Z.mod_pos_bound (initial_heap_size + max_heap_size) (2 ^ 64) ltac:(lia)).
      split; [apply Z.div_pos; lia |].
      apply Z.div_lt_upper_bound; lia. }
    assert (0 <= size_t (initial_heap_size + max_heap_size) / 2
                 / HeapRegionBounds_target_number cfg < 2 ^ 64).
    { split; [apply Z.div_pos; lia |].
      apply Z.div_lt_upper_bound; [lia |]. nia. }
    lia. }
  rewrite (log2_long_correct rs0 Hrs0).
  assert (Hl0 : 0 <= Z.log2 rs0 < 64).
  { split; [apply Z.log2_nonneg |]. apply Z.log2_lt_pow2; lia. }
  rewrite (shift_one_ok _ Hl0), bind_Normal.
  set (c := if Z.log2 rs0 <? log_min then log_min
            else if Z.log2 rs0 >? log_max then log_max else Z.log2 rs0).
  assert (Hc : log_min <= c <= log_max).
  { unfold c. destruct (Z.ltb_spec (Z.log2 rs0) log_min);
      [lia | destruct (Z.gtb_spec (Z.log2 rs0) log_max); lia]. }
  assert (Hclamp :
    (if 2 ^ Z.log2 rs0 <? HeapRegionBounds_min_size cfg
     then HeapRegionBounds_min_size cfg
     else if 2 ^ Z.log2 rs0 >? HeapRegionBounds_max_size cfg
          then HeapRegionBounds_max_size cfg
          else 2 ^ Z.log2 rs0) = 2 ^ c).
  { rewrite Hmin, Hmax. unfold c.
    destruct (Z.ltb_spec (Z.log2 rs0) log_min) as [H1 | H1].
    - apply (Z.pow_lt_mono_r 2) in H1; [| lia | lia].
      destruct (Z.ltb_spec (2 ^ Z.log2 rs0) (2 ^ log_min)); [reflexivity | lia].
    - apply (Z.pow_le_mono_r 2) in H1; [| lia].
      destruct (Z.ltb_spec (2 ^ Z.log2 rs0) (2 ^ log_min)); [lia |].
      destruct (Z.gtb_spec (Z.log2 rs0) log_max) as [H2 | H2].
      + apply (Z.pow_lt_mono_r 2) in H2; [| lia | lia].
        destruct (Z.gtb_spec (2 ^ Z.log2 rs0) (2 ^ log_max)); [reflexivity | lia].
      + apply (Z.pow_le_mono_r 2) in H2; [| lia].
        destruct (Z.gtb_spec (2 ^ Z.log2 rs0) (2 ^ log_max)); [lia | reflexivity]. }
  exists c. split; [exact Hc |].
  cbv zeta. rewrite Hclamp.
  rewrite (log2_long_pow2 c) by lia.
  rewrite (shift_one_ok (c - LogHeapWordSize cfg)) by lia.
  assert (Hwords : Z.shiftr (2 ^ c) (LogHeapWordSize cfg) = 2 ^ (c - LogHeapWordSize cfg)).
  { rewrite Z.shiftr_div_pow2 by lia.
    rewrite <- Z.pow_sub_r by lia. reflexivity. }
  rewrite Hwords.
  unfold unset, guarantee.
  destruct (LogOfHRGrainBytes g =? 0); [| reflexivity].
  destruct (LogOfHRGrainWords g =? 0); [| reflexivity].
  destruct (GrainBytes g =? 0); [| reflexivity].
  destruct (GrainWords g =? 0); [| reflexivity].
  cbn [andb]. rewrite !bind_Normal, Z.eqb_refl.
  destruct (CardsPerRegion g =? 0); reflexivity.
Qed.

End RegionSizeFacts.

Example log2_long_examples :
  HeapRegion.log2_long 1 = 0 /\ HeapRegion.log2_long 5 = 2 /\
  HeapRegion.log2_long (2 ^ 63) = 63 /\ HeapRegion.log2_long 0 = -1.
Proof. repeat split. Qed.

Example setup_heap_region_size_example :
  HeapRegion.setup_heap_region_size example_sizing (2 ^ 30) (2 ^ 32)
    (HeapRegion.initial_globals 0)
  = Normal {| HeapRegion.LogOfHRGrainBytes := 20;
              HeapRegion.LogOfHRGrainWords := 17;
              HeapRegion.GrainBytes := 1048576;
              HeapRegion.GrainWords := 131072;
              HeapRegion.CardsPerRegion := 2048;
              HeapRegion.G1HeapRegionSize := 1048576 |}.
Proof. reflexivity. Qed.

(** C10.  Region-size set-up.  With the bounds of [HeapRegionBounds]
    powers of two and a command-line region size, if there is one, a
    positive [size_t], the set-up succeeds for every pair of heap sizes
    when the globals are still zero.  It leaves [GrainBytes] a power of
    two between the bounds, namely [2^LogOfHRGrainBytes], with
    [GrainWords == GrainBytes / HeapWordSize],
    [(1 << LogOfHRGrainWords) == GrainWords] and
    [CardsPerRegion == GrainBytes >> card_shift].  It runs only once:
    any further run, and any run on globals that are not all zero, ends
    in the guarantee. *)
Theorem heap_region_size_setup
    (cfg : RegionSizing) (log_min log_max : Z)
    (initial_heap_size max_heap_size : Z) (g : HeapRegion.globals) :
  HeapRegion.wf_sizing cfg log_min log_max ->
  (G1HeapRegionSize_is_default cfg = false ->
   1 <= HeapRegion.G1HeapRegionSize g < 2 ^ 64) ->
  (HeapRegion.unset g = true ->
   exists g',
     HeapRegion.setup_heap_region_size cfg initial_heap_size max_heap_size g
       = Normal g' /\
     HeapRegion.GrainBytes g' = 2 ^ HeapRegion.LogOfHRGrainBytes g' /\
     HeapRegionBounds_min_size cfg <= HeapRegion.GrainBytes g'
       <= HeapRegionBounds_max_size cfg /\
     HeapRegion.GrainWords g' = HeapRegion.GrainBytes g' / 2 ^ LogHeapWordSize cfg /\
     Z.shiftl 1 (HeapRegion.LogOfHRGrainWords g') = HeapRegion.GrainWords g' /\
     HeapRegion.CardsPerRegion g'
       = Z.shiftr (HeapRegion.GrainBytes g') (card_shift cfg) /\
     (forall i m, HeapRegion.setup_heap_region_size cfg i m g'
                  = Abort "we should only set it once")) /\
  (HeapRegion.unset g = false ->
   HeapRegion.setup_heap_region_size cfg initial_heap_size max_heap_size g
     = Abort "we should only set it once").
Proof.
  intros WF Hflag.
  destruct (setup_closed_form cfg log_min log_max initial_heap_size max_heap_size
              g WF Hflag) as (c & Hc & Hrun).
  pose proof WF as [Hmin Hmax [Hlw Hlog] Htarget Hcard].
  assert (Hpc : 1 <= 2 ^ c < 2 ^ 64).
  { split; [| apply Z.pow_lt_mono_r; lia].
    assert (0 < 2 ^ c) by (apply Z.pow_pos_nonneg; lia). lia. }
  split.
  - intros Hunset. rewrite Hunset in Hrun. eexists. split; [exact Hrun |].
    cbn. split; [reflexivity |]. split.
    { rewrite Hmin, Hmax. split; apply Z.pow_le_mono_r; lia. }
    split.
    { rewrite <- Z.pow_sub_r by lia. reflexivity. }
    split.
    { rewrite Z.shiftl_mul_pow2 by lia. lia. }
    split; [reflexivity |].
    intros i m.
    match goal with
    | |- HeapRegion.setup_heap_region_size _ _ _ ?g' = _ =>
        destruct (setup_closed_form cfg log_min log_max i m g' WF)
          as (c' & _ & Hagain)
    end.
    { intros _. exact Hpc. }
    rewrite Hagain. unfold HeapRegion.unset. cbn.
    destruct (Z.eqb_spec (2 ^ c) 0) as [? | _]; [lia |].
    rewrite !andb_false_r. reflexivity.
  - intros Hunset. rewrite Hunset in Hrun. exact Hrun.
Qed.

Lemma example_sizing_wf : HeapRegion.wf_sizing example_sizing 20 25.
Proof. constructor; cbn -[Z.pow]; first [reflexivity | lia]. Qed.

Lemma heap_region_size_setup_witness :
  (exists g',
     HeapRegion.setup_heap_region_size example_sizing (2 ^ 30) (2 ^ 32)
       (HeapRegion.initial_globals 0) = Normal g' /\
     1048576 <= HeapRegion.GrainBytes g' <= 33554432) /\
  HeapRegion.setup_heap_region_size example_sizing (2 ^ 30) (2 ^ 32)
    {| HeapRegion.LogOfHRGrainBytes := 20; HeapRegion.LogOfHRGrainWords := 17;
       HeapRegion.GrainBytes := 1048576; HeapRegion.GrainWords := 131072;
       HeapRegion.CardsPerRegion := 2048; HeapRegion.G1HeapRegionSize := 1048576 |}
  = Abort "we should only set it once".
Proof.
  split.
  - destruct (heap_region_size_setup example_sizing 20 25 (2 ^ 30) (2 ^ 32)
                (HeapRegion.initial_globals 0) example_sizing_wf)
      as [Hfirst _]; [discriminate |].
    destruct (Hfirst eq_refl) as (g' & Hrun & _ & Hbounds & _).
    exists g'. split; [exact Hrun | exact Hbounds].
  - match goal with
    | |- HeapRegion.setup_heap_region_size _ _ _ ?g = _ =>
        destruct (heap_region_size_setup example_sizing 20 25 (2 ^ 30) (2 ^ 32)
                    g example_sizing_wf) as [_ Hagain]
    end; [discriminate |].
    apply Hagain. reflexivity.
Defined.

(** ** Clearing a region *)

Lemma remset_clear_empty rs :
  HeapRegionRemSet.is_empty (HeapRegionRemSet.clear rs) = true.
Proof.
  unfold HeapRegionRemSet.is_empty, HeapRegionRemSet.clear. cbn.
  rewrite !bool_decide_eq_true_2 by reflexivity. reflexivity.
Qed.

(** [hr_clear] on a region that passes its two assertions, as one
    record: nothing but the named attributes changes. *)
Lemma hr_clear_unfold stamp keep_remset clear_space locked r :
  HeapRegion._humongous_start_region r = None ->
  HeapRegion.in_collection_set r = false ->
  exists r',
    HeapRegion.hr_clear stamp keep_remset clear_space locked r = Normal r' /\
    HeapRegion.bottom r' = HeapRegion.bottom r /\
    HeapRegion.top r' = (if clear_space then HeapRegion.bottom r else HeapRegion.top r) /\
    HeapRegion.rem_set r'
      = (if keep_remset then HeapRegion.rem_set r
         else HeapRegionRemSet.clear (HeapRegion.rem_set r)) /\
    HeapRegion._type r' = Free /\
    HeapRegion._humongous_start_region r' = None /\
    HeapRegion.in_collection_set r' = false /\
    HeapRegion.hr_clear stamp keep_remset clear_space locked r' = Normal r'.
Proof.
  intros Hhum Hcset. unfold HeapRegion.hr_clear.
  destruct r as [[b e t st ct ts] ty ac hs ics [yi sg ai] pd rs [pm nm pt nt]].
  cbn in Hhum, Hcset. subst hs ics.
  destruct keep_remset, clear_space, locked, sg;
    (eexists; split; [vm_compute; reflexivity |]);
    vm_compute; repeat split; reflexivity.
Qed.

(** C9.  Idempotent region clear.  For a non-humongous region outside
    the collection set that is already clear (Free, [top == bottom],
    empty remembered set), [hr_clear] without [keep_remset] passes its
    assertions and leaves [top], [bottom] and the emptiness of the
    remembered set as they were, so the region is clear again; and for
    any such region, clear or not, a second [hr_clear] with the same
    arguments returns the result of the first unchanged. *)
Theorem hr_clear_idempotent
    (stamp : Z) (clear_space locked : bool) (r : HeapRegion.t) :
  HeapRegion._humongous_start_region r = None ->
  HeapRegion.in_collection_set r = false ->
  (HeapRegion.already_clear r ->
   exists r',
     HeapRegion.hr_clear stamp false clear_space locked r = Normal r' /\
     HeapRegion.top r' = HeapRegion.top r /\
     HeapRegion.bottom r' = HeapRegion.bottom r /\
     HeapRegionRemSet.is_empty (HeapRegion.rem_set r')
       = HeapRegionRemSet.is_empty (HeapRegion.rem_set r) /\
     HeapRegion.already_clear r') /\
  (forall keep_remset, exists r1,
     HeapRegion.hr_clear stamp keep_remset clear_space locked r = Normal r1 /\
     HeapRegion.hr_clear stamp keep_remset clear_space locked r1 = Normal r1).
Proof.
  intros Hhum Hcset. split.
  - intros (Hfree & Htop & Hempty).
    destruct (hr_clear_unfold stamp false clear_space locked r Hhum Hcset)
      as (r' & Hrun & Hb & Ht & Hrs & Hty & _).
    assert (Htop' : HeapRegion.top r' = HeapRegion.top r).
    { rewrite Ht. destruct clear_space; congruence. }
    exists r'. split; [exact Hrun |]. split; [exact Htop' |].
    split; [exact Hb |].
    rewrite Hrs, remset_clear_empty, Hempty. split; [reflexivity |].
    unfold HeapRegion.already_clear.
    rewrite Hrs, remset_clear_empty. repeat split; congruence.
  - intros keep_remset.
    destruct (hr_clear_unfold stamp keep_remset clear_space locked r Hhum Hcset)
      as (r1 & Hrun & _ & _ & _ & _ & _ & _ & Hagain).
    exists r1. split; assumption.
Qed.

Lemma hr_clear_idempotent_witness :
  exists r',
    HeapRegion.hr_clear 7 false true false (example_region Free 8192 8192 None)
      = Normal r' /\
    HeapRegion.top r' = 8192 /\ HeapRegion.bottom r' = 8192.
Proof.
  destruct (hr_clear_idempotent 7 true false (example_region Free 8192 8192 None))
    as [Hclear _]; [reflexivity | reflexivity |].
  destruct Hclear as (r' & Hrun & Htop & Hbottom & _).
  - split; [reflexivity |]. split; reflexivity.
  - exists r'. split; [exact Hrun |]. split; [exact Htop | exact Hbottom].
Defined.

(** ** Scanning a card of a humongous region *)

(** A card of the continuation region, after the object is published:
    the closure is applied once, bounded by the card. *)
Example humongous_card_scan_example :
  HeapRegion.oops_on_card_seq_iterate_careful 0 (example_heap 77)
    (example_region ContinuesHumongous 5120 5632 (Some 0%nat))
    {| HeapRegion.mr_start := 5120; HeapRegion.mr_end := 5184 |}
  = Normal (true,
            [HeapRegion.oop_iterate_bounded 4096
               {| HeapRegion.mr_start := 5120; HeapRegion.mr_end := 5184 |}]).
Proof. reflexivity. Qed.



(* ===================================================================== *)
(** * Part III: further properties of the embedded code                   *)
(* ===================================================================== *)

(** ** The race of several workers to forward one object *)

Section ForwardingRace.
Import Forwarding.
Context {M : markOopDesc}.
Context (m0 : Z) (ps : list Z).
Context (Hm0 : is_marked m0 = false).
Context (Hps : forall p, p ∈ ps ->
           decode_pointer (encode_pointer_as_mark p) = p /\
           is_marked (encode_pointer_as_mark p) = true).

Lemma race_inv_entered :
  race_inv m0 ps {| _mark := m0; workers := entered ps |}.
Proof.
  split; [apply length_fmap |]. left. split; [reflexivity |].
  intros j p Hj. exists (AtEntry p). split; [| left; reflexivity].
  cbn. unfold entered. rewrite list_lookup_fmap, Hj. reflexivity.
Qed.

(** Replacing the point of worker [i] keeps a worker-wise property that
    the new point has and the other workers keep. *)
Lemma insert_clause (P Q : nat -> Z -> pc -> Prop) (l : list pc) i c' pi :
  ps !! i = Some pi -> length l = length ps ->
  Q i pi c' ->
  (forall j p c, j <> i -> P j p c -> Q j p c) ->
  (forall j p, ps !! j = Some p -> exists c, l !! j = Some c /\ P j p c) ->
  forall j p, ps !! j = Some p -> exists c, <[i:=c']> l !! j = Some c /\ Q j p c.
Proof.
  intros Hi Hlen Hnew Hkeep Hold j p Hj.
  destruct (Nat.eq_dec j i) as [-> | Hne].
  - exists c'. split.
    + apply list_lookup_insert_eq. rewrite Hlen. eapply lookup_lt_Some. exact Hi.
    + congruence.
  - destruct (Hold j p Hj) as (c & Hc & HP). exists c. split.
    + rewrite list_lookup_insert_ne by congruence. exact Hc.
    + apply Hkeep; assumption.
Qed.

Lemma race_inv_step i o : race_inv m0 ps o -> race_inv m0 ps (step i o).
Proof.
  intros [Hlen Hinv]. unfold step.
  destruct (workers o !! i) as [c |] eqn:Hc; [| split; assumption].
  assert (Hi : exists pi, ps !! i = Some pi).
  { apply lookup_lt_is_Some. rewrite <- Hlen. eapply lookup_lt_Some. exact Hc. }
  destruct Hi as [pi Hi].
  assert (Hpi := Hps pi (list_elem_of_lookup_2 _ _ _ Hi)). destruct Hpi as [Hdec Henc].
  destruct Hinv as [[Hmark Hall] | (w & pw & Hw & Hmark & Hall)].
  - destruct (Hall i pi Hi) as (c0 & Hc0 & [-> | ->]);
      rewrite Hc in Hc0; injection Hc0 as ->; cbn.
    + rewrite Hdec, Z.eqb_refl. split; [cbn; rewrite length_insert; exact Hlen |].
      left. split; [exact Hmark |]. cbn. rewrite Hmark.
      eapply (insert_clause (fun _ => waiting_pc m0)); eauto.
      right. reflexivity.
    + rewrite Hm0, Hmark, Z.eqb_refl.
      split; [cbn; rewrite length_insert; exact Hlen |].
      right. exists i, pi. split; [exact Hi |]. split; [reflexivity |]. cbn.
      eapply (insert_clause (fun _ => waiting_pc m0)); eauto.
      * left. split; [reflexivity |]. left. reflexivity.
      * intros j p c' Hne [-> | ->]; right; (split; [exact Hne |]);
          [left | right; left]; reflexivity.
  - assert (Hpw := Hps pw (list_elem_of_lookup_2 _ _ _ Hw)).
    destruct Hpw as [Hdecw Hencw].
    assert (Hdiff : (encode_pointer_as_mark pw =? m0) = false).
    { apply Z.eqb_neq. intros Heq. rewrite Heq in Hencw. congruence. }
    assert (Hgoal : forall c',
      ((i = w /\ winner_pc m0 pi c') \/
       (i <> w /\ loser_pc m0 (encode_pointer_as_mark pw) pi c')) ->
      race_inv m0 ps {| _mark := encode_pointer_as_mark pw;
                        workers := <[i:=c']> (workers o) |}).
    { intros c' Hnew. split; [cbn; rewrite length_insert; exact Hlen |].
      right. exists w, pw. split; [exact Hw |]. split; [reflexivity |]. cbn.
      eapply (insert_clause
                (fun j p c => (j = w /\ winner_pc m0 p c) \/
                   (j <> w /\ loser_pc m0 (encode_pointer_as_mark pw) p c)));
        eauto. }
    destruct (Hall i pi Hi) as (c0 & Hc0 & Hrole).
    rewrite Hc in Hc0. injection Hc0 as ->.
    rewrite Hmark.
    destruct Hrole as [[-> [-> | ->]] | [Hne [-> | [-> | [-> | [-> | ->]]]]]]; cbn.
    + rewrite Hw in Hi. injection Hi as ->.
      unfold is_forwarded. rewrite Hencw, Z.eqb_refl.
      apply Hgoal. left. split; [reflexivity |]. right. reflexivity.
    + split; [exact Hlen |]. right. exists w, pw. rewrite Hmark. auto.
    + rewrite Hdec, Z.eqb_refl. apply Hgoal. right. split; [exact Hne |].
      right. right. right. left. reflexivity.
    + rewrite Hm0, Hdiff. apply Hgoal. right. split; [exact Hne |].
      right. right. left. reflexivity.
    + unfold is_forwarded. rewrite Hencw, Hdiff. apply Hgoal. right.
      split; [exact Hne |]. right. right. right. left. reflexivity.
    + rewrite Hencw. apply Hgoal. right. split; [exact Hne |].
      right. right. right. right. reflexivity.
    + split; [exact Hlen |]. right. exists w, pw. rewrite Hmark. auto.
Qed.

Lemma race_inv_run sched : forall o, race_inv m0 ps o -> race_inv m0 ps (run sched o).
Proof.
  induction sched as [| i rest IH]; intros o Ho; [exact Ho |].
  cbn. apply IH, race_inv_step, Ho.
Qed.

End ForwardingRace.

(** X1.  One winner.  Let any number of workers enter
    [forward_to_atomic] on an object whose header is not marked, each
    with a non-null target that the mark word encodes reversibly, and
    let them take their header accesses in any order.  No assertion
    fails; as long as the header is unchanged nobody has returned; and
    once it is forwarded there is one worker [w] whose target the header
    holds: [w] is the only caller that gets NULL back, every other
    caller that has returned got the target of [w]. *)
Theorem forward_to_atomic_single_winner {M : markOopDesc}
    (m0 : Z) (ps : list Z) (sched : list nat) :
  is_marked m0 = false ->
  (forall p, p ∈ ps ->
     p <> NULL /\
     decode_pointer (encode_pointer_as_mark p) = p /\
     is_marked (encode_pointer_as_mark p) = true) ->
  let o := Forwarding.run sched
             {| Forwarding._mark := m0;
                Forwarding.workers := Forwarding.entered ps |} in
  (forall j p, Forwarding.workers o !! j <> Some (Forwarding.Crashed p)) /\
  ((Forwarding._mark o = m0 /\
    forall j p r, Forwarding.workers o !! j <> Some (Forwarding.Returned p r)) \/
   (exists w pw,
      ps !! w = Some pw /\
      Forwarding.is_forwarded (Forwarding._mark o) = true /\
      Forwarding.forwardee (Forwarding._mark o) = pw /\
      forall j p r,
        Forwarding.workers o !! j = Some (Forwarding.Returned p r) ->
        ps !! j = Some p /\ ((j = w /\ r = NULL) \/ (j <> w /\ r = pw /\ r <> NULL)))).
Proof.
  intros Hm0 Hps o.
  assert (Hps' : forall p, p ∈ ps ->
            decode_pointer (encode_pointer_as_mark p) = p /\
            is_marked (encode_pointer_as_mark p) = true)
    by (intros p Hp; destruct (Hps p Hp) as (_ & ? & ?); auto).
  assert (Hinv : Forwarding.race_inv m0 ps o).
  { apply race_inv_run; [exact Hm0 | exact Hps' |].
    apply race_inv_entered. }
  destruct Hinv as [Hlen Hinv].
  assert (Hrole : forall j c, Forwarding.workers o !! j = Some c ->
            exists p, ps !! j = Some p).
  { intros j c Hc. apply lookup_lt_is_Some. rewrite <- Hlen.
    eapply lookup_lt_Some. exact Hc. }
  split.
  - intros j p Hc. destruct (Hrole j _ Hc) as [p' Hp'].
    destruct Hinv as [[_ Hall] | (w & pw & _ & _ & Hall)];
      destruct (Hall j p' Hp') as (c & Hc' & Hwhere); rewrite Hc in Hc';
      injection Hc' as <-.
    + destruct Hwhere as [? | ?]; discriminate.
    + destruct Hwhere as [[_ [? | ?]] | [_ [? | [? | [? | [? | ?]]]]]]; discriminate.
  - destruct Hinv as [[Hmark Hall] | (w & pw & Hw & Hmark & Hall)].
    + left. split; [exact Hmark |]. intros j p r Hc.
      destruct (Hrole j _ Hc) as [p' Hp'].
      destruct (Hall j p' Hp') as (c & Hc' & Hwhere). rewrite Hc in Hc'.
      injection Hc' as <-. destruct Hwhere as [? | ?]; discriminate.
    + right. exists w, pw.
      destruct (Hps pw (list_elem_of_lookup_2 _ _ _ Hw)) as (Hnn & Hdec & Henc).
      split; [exact Hw |]. unfold Forwarding.is_forwarded, Forwarding.forwardee.
      rewrite Hmark. split; [exact Henc |]. split; [exact Hdec |].
      intros j p r Hc. destruct (Hrole j _ Hc) as [p' Hp'].
      destruct (Hall j p' Hp') as (c & Hc' & Hwhere). rewrite Hc in Hc'.
      injection Hc' as <-.
      destruct Hwhere as [[-> [Hc' | Hc']] | [Hne [Hc' | [Hc' | [Hc' | [Hc' | Hc']]]]]];
        try discriminate; injection Hc' as -> ->.
      * split; [exact Hp' |]. left. split; reflexivity.
      * split; [exact Hp' |]. right. unfold Forwarding.forwardee.
        rewrite Hdec. auto.
Qed.

Lemma forward_to_atomic_single_winner_witness :
  exists w pw,
    [4096; 8192; 12288] !! w = Some pw /\
    Forwarding.forwardee
      (Forwarding._mark
         (Forwarding.run [2; 1; 2; 0; 1; 0; 2; 1; 0; 1; 0]%nat
            {| Forwarding._mark := 1;
               Forwarding.workers := Forwarding.entered [4096; 8192; 12288] |}))
    = pw.
Proof.
  destruct (forward_to_atomic_single_winner (M := markOop64_ops) 1
              [4096; 8192; 12288] [2; 1; 2; 0; 1; 0; 2; 1; 0; 1; 0]%nat)
    as [_ [[Hstill _] | (w & pw & Hw & _ & Hfwd & _)]].
  - reflexivity.
  - intros p Hp. repeat (apply elem_of_cons in Hp as [-> | Hp]);
      [split; [discriminate | split; reflexivity] ..
      | apply elem_of_nil in Hp; contradiction].
  - vm_compute in Hstill. discriminate.
  - exists w, pw. split; [exact Hw | exact Hfwd].
Defined.

(** ** Oop fields *)

Section OopFieldFacts.
Import oopFields.
Context (U : Universe) (WF : oopDesc.wf_universe U).

Lemma load_store_eq mem p x : load (store mem p x) p = x.
Proof. unfold load, store. cbn. apply lookup_total_insert_eq. Qed.

Lemma load_store_ne mem p q x : p <> q -> load (store mem p x) q = load mem q.
Proof. intros Hne. unfold load, store. cbn. apply lookup_total_insert_ne. exact Hne. Qed.

(** A valid oop is encoded without a failed assertion, and the narrow
    value decodes back to it. *)
Lemma encode_valid v :
  valid_oop U v ->
  exists n, oopDesc.encode_heap_oop U v = Normal n /\
            oopDesc.decode_heap_oop U n = Normal v.
Proof.
  intros [-> | [Hin Hal]].
  - exists 0. split; reflexivity.
  - destruct (encode_in_heap U WF v Hin Hal) as (q & Hq & Hr & Hv).
    exists q. split; [exact Hq |].
    apply (decode_quotient U WF v q Hin Hal Hv). lia.
Qed.

Lemma encode_inj a b n :
  valid_oop U a -> valid_oop U b ->
  oopDesc.encode_heap_oop U a = Normal n ->
  oopDesc.encode_heap_oop U b = Normal n -> a = b.
Proof.
  intros Ha Hb Hea Heb.
  destruct (encode_valid a Ha) as (na & Hna & Hda).
  destruct (encode_valid b Hb) as (nb & Hnb & Hdb).
  rewrite Hea in Hna. injection Hna as <-.
  rewrite Heb in Hnb. injection Hnb as <-.
  rewrite Hda in Hdb. injection Hdb as ->. reflexivity.
Qed.

(** Storing a valid oop and loading it again, in either
    representation. *)
Lemma encode_store_load comp mem p v :
  valid_oop U v ->
  exists mem',
    encode_store_heap_oop U comp mem p v = Normal mem' /\
    load_decode_heap_oop U comp mem' p = Normal v /\
    barriers mem' = barriers mem /\
    (forall q, q <> p -> load mem' q = load mem q) /\
    holds U comp mem' p v.
Proof.
  intros Hv. unfold encode_store_heap_oop, load_decode_heap_oop, holds.
  destruct comp.
  - destruct (encode_valid v Hv) as (n & Hn & Hd).
    unfold encode_store_heap_oop_narrow, load_decode_heap_oop_narrow.
    rewrite Hn, bind_Normal. eexists. split; [reflexivity |].
    rewrite load_store_eq. repeat split; try assumption.
    intros q Hq. apply load_store_ne. congruence.
  - unfold encode_store_heap_oop_wide, load_decode_heap_oop_wide.
    eexists. split; [reflexivity |]. rewrite load_store_eq.
    repeat split. intros q Hq. apply load_store_ne. congruence.
Qed.

End OopFieldFacts.

(** X2.  Field round trip.  With the encoding globals well formed, a
    valid oop (null or an aligned address of the reserved heap) written
    by [obj_field_put], [release_obj_field_put] or [obj_field_put_raw]
    is what [obj_field] reads back at that offset, with or without
    compressed oops, and no assertion fails; the fields at other
    addresses keep their contents.  The raw store calls no barrier; the
    other two call the pre-barrier before the store and the post-barrier
    after it, with [release] set for the releasing store and, for the
    plain one, exactly when [always_do_update_barrier] is set. *)
Theorem obj_field_put_get (U : Universe)
    (UseCompressedOops always_do_update_barrier : bool)
    (mem : oopFields.memory) (this offset value : Z) :
  oopDesc.wf_universe U ->
  oopFields.valid_oop U value ->
  let p := oopFields.field_base this offset in
  let read_back mem' :=
    oopFields.obj_field U UseCompressedOops mem' this offset = Normal value /\
    forall q, q <> p -> oopFields.load mem' q = oopFields.load mem q in
  (exists mem',
     oopFields.obj_field_put_raw U UseCompressedOops mem this offset value
       = Normal mem' /\
     read_back mem' /\
     oopFields.barriers mem' = oopFields.barriers mem) /\
  (exists mem',
     oopFields.obj_field_put U UseCompressedOops always_do_update_barrier
       mem this offset value = Normal mem' /\
     read_back mem' /\
     oopFields.barriers mem'
     = oopFields.barriers mem
       ++ [oopFields.write_ref_field_pre p value;
           oopFields.write_ref_field p value always_do_update_barrier]) /\
  (exists mem',
     oopFields.release_obj_field_put U UseCompressedOops mem this offset value
       = Normal mem' /\
     read_back mem' /\
     oopFields.barriers mem'
     = oopFields.barriers mem
       ++ [oopFields.write_ref_field_pre p value;
           oopFields.write_ref_field p value true]).
Proof.
  intros WF Hv p read_back.
  assert (Hvol : exists mem',
     oopFields.oop_store_volatile U UseCompressedOops mem p value = Normal mem' /\
     read_back mem' /\
     oopFields.barriers mem'
     = oopFields.barriers mem
       ++ [oopFields.write_ref_field_pre p value;
           oopFields.write_ref_field p value true]).
  { unfold oopFields.oop_store_volatile.
    destruct (encode_store_load U WF UseCompressedOops
                (oopFields.update_barrier_set_pre mem p value) p value Hv)
      as (m1 & Hst & Hld & Hb & Hfr & _).
    rewrite Hst, bind_Normal. eexists. split; [reflexivity |].
    split; [split |].
    - exact Hld.
    - intros q Hq. apply (Hfr q Hq).
    - cbn. rewrite Hb. cbn. rewrite <- app_assoc. reflexivity. }
  split; [| split].
  - destruct (encode_store_load U WF UseCompressedOops mem p value Hv)
      as (m1 & Hst & Hld & Hb & Hfr & _).
    exists m1. split; [exact Hst |]. split; [split; assumption | exact Hb].
  - unfold oopFields.obj_field_put, oopFields.oop_store.
    destruct always_do_update_barrier; [exact Hvol |].
    destruct (encode_store_load U WF UseCompressedOops
                (oopFields.update_barrier_set_pre mem p value) p value Hv)
      as (m1 & Hst & Hld & Hb & Hfr & _).
    fold p. rewrite Hst, bind_Normal. eexists. split; [reflexivity |].
    split; [split |].
    + exact Hld.
    + intros q Hq. apply (Hfr q Hq).
    + cbn. rewrite Hb. cbn. rewrite <- app_assoc. reflexivity.
  - exact Hvol.
Qed.

Lemma obj_field_put_get_witness :
  exists mem',
    oopFields.obj_field_put example_universe true false
      example_memory (2 ^ 35 + 64) 16 (2 ^ 35 + 128) = Normal mem' /\
    oopFields.obj_field example_universe true mem' (2 ^ 35 + 64) 16
      = Normal (2 ^ 35 + 128).
Proof.
  destruct (obj_field_put_get example_universe true false example_memory
              (2 ^ 35 + 64) 16 (2 ^ 35 + 128) example_universe_wf)
    as (_ & (mem' & Hput & [Hget _] & _) & _).
  - right. split; reflexivity.
  - exists mem'. split; [exact Hput | exact Hget].
Defined.

(** X3.  Compare-and-exchange of an oop field.  Let the field hold the
    valid oop [cur], and let the value to store and the value to compare
    with be valid oops.  With or without compressed oops the call
    returns [cur]; afterwards the field holds the new value if [cur] is
    the compared value and [cur] otherwise, so comparing the narrow
    values decides as comparing the oops would; no other field changes.
    The pre-barrier, if asked for, is called whether or not the exchange
    takes place, and no other barrier is. *)
Theorem atomic_compare_exchange_oop_as_wide (U : Universe)
    (UseCompressedOops : bool) (mem : oopFields.memory)
    (exchange_value dest compare_value cur : Z) (prebarrier : bool) :
  oopDesc.wf_universe U ->
  oopFields.valid_oop U exchange_value ->
  oopFields.valid_oop U compare_value ->
  oopFields.valid_oop U cur ->
  oopFields.holds U UseCompressedOops mem dest cur ->
  exists mem',
    oopFields.atomic_compare_exchange_oop U UseCompressedOops mem
      exchange_value dest compare_value prebarrier = Normal (cur, mem') /\
    oopFields.holds U UseCompressedOops mem' dest
      (if decide (cur = compare_value) then exchange_value else cur) /\
    (forall q, q <> dest -> oopFields.load mem' q = oopFields.load mem q) /\
    oopFields.barriers mem'
    = oopFields.barriers mem
      ++ (if prebarrier then [oopFields.write_ref_field_pre dest exchange_value]
          else []).
Proof.
  intros WF Hx Hc Hcur Hholds.
  unfold oopFields.atomic_compare_exchange_oop, oopFields.holds in *.
  set (mem0 := if prebarrier
               then oopFields.update_barrier_set_pre mem dest exchange_value
               else mem).
  assert (Hload0 : forall q, oopFields.load mem0 q = oopFields.load mem q).
  { intros q. unfold mem0. destruct prebarrier; reflexivity. }
  assert (Hbar0 : oopFields.barriers mem0
                  = oopFields.barriers mem
                    ++ (if prebarrier
                        then [oopFields.write_ref_field_pre dest exchange_value]
                        else [])).
  { unfold mem0. destruct prebarrier; cbn; [reflexivity |].
    rewrite app_nil_r. reflexivity. }
  destruct UseCompressedOops.
  - destruct (encode_valid U WF _ Hx) as (val & Hval & _).
    destruct (encode_valid U WF _ Hc) as (cmp & Hcmp & _).
    destruct (encode_valid U WF _ Hcur) as (old & Hold & Hdold).
    rewrite Hholds in Hold. injection Hold as Hold.
    rewrite Hval, Hcmp, !bind_Normal, Hload0, Hold, Hdold, bind_Normal.
    eexists. split; [reflexivity |].
    destruct (Z.eqb_spec old cmp) as [Heq | Hne].
    + assert (cur = compare_value).
      { apply (encode_inj U WF cur compare_value old); congruence. }
      destruct (decide (cur = compare_value)); [| contradiction].
      rewrite load_store_eq. split; [exact Hval |].
      split; [| exact Hbar0].
      intros q Hq. rewrite load_store_ne by congruence. apply Hload0.
    + destruct (decide (cur = compare_value)) as [-> | _].
      { exfalso. apply Hne. rewrite Hholds in Hcmp. congruence. }
      rewrite Hload0. split; [congruence |].
      split; [intros q _; apply Hload0 | exact Hbar0].
  - rewrite Hload0, Hholds. eexists. split; [reflexivity |].
    destruct (Z.eqb_spec cur compare_value) as [Heq | Hne].
    + destruct (decide (cur = compare_value)); [| contradiction].
      rewrite load_store_eq. split; [reflexivity |].
      split; [| exact Hbar0].
      intros q Hq. rewrite load_store_ne by congruence. apply Hload0.
    + destruct (decide (cur = compare_value)); [contradiction |].
      rewrite Hload0. split; [exact Hholds |].
      split; [intros q _; apply Hload0 | exact Hbar0].
Qed.

Lemma atomic_compare_exchange_oop_as_wide_witness :
  exists mem',
    oopFields.atomic_compare_exchange_oop example_universe true example_memory
      (2 ^ 35 + 128) (2 ^ 35 + 80) (2 ^ 35 + 64) true
    = Normal (2 ^ 35 + 64, mem') /\
    oopFields.holds example_universe true mem' (2 ^ 35 + 80) (2 ^ 35 + 128).
Proof.
  destruct (atomic_compare_exchange_oop_as_wide example_universe true
              example_memory (2 ^ 35 + 128) (2 ^ 35 + 80) (2 ^ 35 + 64)
              (2 ^ 35 + 64) true example_universe_wf)
    as (mem' & Hrun & Hholds & _).
  - right. split; reflexivity.
  - right. split; reflexivity.
  - right. split; reflexivity.
  - reflexivity.
  - exists mem'. split; [exact Hrun | exact Hholds].
Defined.

(** X4.  Exchange of an oop field.  Let the field hold the valid oop
    [cur] and let the value to store be a valid oop.  With or without
    compressed oops the call returns [cur] and leaves the new value in
    the field; no other field changes and no barrier is called. *)
Theorem atomic_exchange_oop_as_wide (U : Universe)
    (UseCompressedOops : bool) (mem : oopFields.memory)
    (exchange_value dest cur : Z) :
  oopDesc.wf_universe U ->
  oopFields.valid_oop U exchange_value ->
  oopFields.valid_oop U cur ->
  oopFields.holds U UseCompressedOops mem dest cur ->
  exists mem',
    oopFields.atomic_exchange_oop U UseCompressedOops mem exchange_value dest
      = Normal (cur, mem') /\
    oopFields.holds U UseCompressedOops mem' dest exchange_value /\
    (forall q, q <> dest -> oopFields.load mem' q = oopFields.load mem q) /\
    oopFields.barriers mem' = oopFields.barriers mem.
Proof.
  intros WF Hx Hcur Hholds.
  unfold oopFields.atomic_exchange_oop, oopFields.holds in *.
  destruct UseCompressedOops.
  - destruct (encode_valid U WF _ Hx) as (val & Hval & _).
    destruct (encode_valid U WF _ Hcur) as (old & Hold & Hdold).
    rewrite Hholds in Hold. injection Hold as Hold.
    rewrite Hval, bind_Normal, Hold, Hdold, bind_Normal.
    eexists. split; [reflexivity |]. rewrite load_store_eq.
    repeat split. intros q Hq. apply load_store_ne. congruence.
  - rewrite Hholds. eexists. split; [reflexivity |]. rewrite load_store_eq.
    repeat split. intros q Hq. apply load_store_ne. congruence.
Qed.

Lemma atomic_exchange_oop_as_wide_witness :
  exists mem',
    oopFields.atomic_exchange_oop example_universe true example_memory
      NULL (2 ^ 35 + 80) = Normal (2 ^ 35 + 64, mem').
Proof.
  destruct (atomic_exchange_oop_as_wide example_universe true example_memory
              NULL (2 ^ 35 + 80) (2 ^ 35 + 64) example_universe_wf)
    as (mem' & Hrun & _).
  - left. reflexivity.
  - right. split; reflexivity.
  - reflexivity.
  - exists mem'. exact Hrun.
Defined.

(** ** PLAB sizing, round after round *)

(** Whatever a call returns has all its accumulators at zero. *)
Lemma adjust_returns_reset {F : Type} {filter : AdaptiveWeightedAverage F}
    (flags : PLABFlags) (s s' : G1EvacStats.t F) :
  G1EvacStats.adjust_desired_plab_sz flags s = Normal s' ->
  G1EvacStats.reset s' = s'.
Proof.
  unfold G1EvacStats.adjust_desired_plab_sz.
  destruct (negb (ResizePLAB flags)).
  - intros [= <-]. reflexivity.
  - destruct (G1EvacStats.is_object_aligned flags (max_size flags)
              && (min_size flags <=? max_size flags)); [| discriminate].
    rewrite vmassert_true, bind_Normal.
    destruct (G1EvacStats.guard_zero_allocation s) as [s1 | msg]; [| discriminate].
    rewrite bind_Normal. intros [= <-]. reflexivity.
Qed.

(** X5.  An idle round.  A call that follows a call that returned, with
    no allocation in between, always returns: the first call has reset
    the accumulators, so the assertion on the empty round holds.  With
    resizing off the second call changes nothing.  With resizing on it
    counts the empty round as one used word and so feeds the filter the
    candidate size of a single word,
    [plab_sz_of_waste(TargetPLABWastePct)], which pulls the desired size
    towards [min_size]. *)
Theorem adjust_desired_plab_sz_idle_round
    {F : Type} {filter : AdaptiveWeightedAverage F}
    (flags : PLABFlags) (s s' : G1EvacStats.t F) :
  G1EvacStats.adjust_desired_plab_sz flags s = Normal s' ->
  exists s'',
    G1EvacStats.adjust_desired_plab_sz flags s' = Normal s'' /\
    (ResizePLAB flags = false -> s'' = s') /\
    (ResizePLAB flags = true ->
     let f := sample (G1EvacStats._filter s')
                (plab_sz_of_waste flags (size_t (TargetPLABWastePct flags))) in
     G1EvacStats._filter s'' = f /\
     G1EvacStats._desired_net_plab_sz s'' = Z.max (min_size flags) (average f) /\
     G1EvacStats.reset s'' = s'').
Proof.
  intros Hrun. pose proof (adjust_returns_reset flags s s' Hrun) as Hreset.
  revert Hrun. unfold G1EvacStats.adjust_desired_plab_sz.
  destruct (ResizePLAB flags); cbn [negb].
  - destruct (G1EvacStats.is_object_aligned flags (max_size flags)
              && (min_size flags <=? max_size flags)); [| discriminate].
    intros _. rewrite vmassert_true, bind_Normal.
    rewrite <- Hreset. cbn. eexists. split; [reflexivity |].
    split; [discriminate |]. intros _. cbn.
    unfold G1EvacStats.cur_plab_sz, G1EvacStats.total_waste_allowed,
      G1EvacStats.used_for_waste_calculation, G1EvacStats.used. cbn.
    change (size_t (1 - size_t 0)) with 1. cbn.
    change (size_t 1) with 1. rewrite Z.mul_1_l, MAX2_max.
    repeat split.
  - intros _. exists s'. rewrite Hreset.
    split; [reflexivity |]. split; [reflexivity | discriminate].
Qed.

Lemma adjust_desired_plab_sz_idle_round_witness :
  exists s' s'',
    G1EvacStats.adjust_desired_plab_sz example_flags (example_stats 1600 40 55 5)
      = Normal s' /\
    G1EvacStats.adjust_desired_plab_sz example_flags s' = Normal s'' /\
    G1EvacStats._desired_net_plab_sz s'' = 258.
Proof.
  eexists.
  destruct (adjust_desired_plab_sz_idle_round example_flags
              (example_stats 1600 40 55 5) _ eq_refl)
    as (s'' & Hrun & _ & Hon).
  exists s''. split; [reflexivity |]. split; [exact Hrun |].
  destruct (Hon eq_refl) as (_ & Hsz & _). rewrite Hsz. reflexivity.
Defined.

(** ** The refinement service loop touches two flags only *)

Section RefineFrame.
Import ConcurrentG1RefineThread.

Lemma set_active_twice th x y : set_active (set_active th x) y = set_active th y.
Proof. reflexivity. Qed.

Lemma set_flag_length i x c : length (threads (set_flag i x c)) = length (threads c).
Proof.
  unfold set_flag. destruct (threads c !! i) as [th |]; [| reflexivity].
  destruct (negb (is_primary th)); [| reflexivity].
  cbn. apply length_insert.
Qed.

Lemma set_flag_frame i x c k thk :
  threads c !! k = Some thk ->
  threads (set_flag i x c) !! k = Some thk \/
  (k = i /\ threads (set_flag i x c) !! k = Some (set_active thk x)).
Proof.
  intros Hk. destruct (decide (i = k)) as [-> | Hne].
  - unfold set_flag. rewrite Hk.
    destruct (negb (is_primary thk)); [| left; exact Hk].
    right. split; [reflexivity |]. cbn.
    apply list_lookup_insert_eq. eapply lookup_lt_Some. exact Hk.
  - left. rewrite set_flag_other by exact Hne. exact Hk.
Qed.

Lemma service_pass_length yz i c :
  length (threads (service_pass yz i c).2) = length (threads c).
Proof.
  unfold service_pass. destruct (threads c !! i) as [th |]; [| reflexivity].
  set (c1 := if _ && _ then _ else c).
  assert (Hthreads1 : threads c1 = threads c).
  { unfold c1. destruct (_ && _); reflexivity. }
  destruct (DirtyCardQueueSet.apply_closure_to_completed_buffer _ _) as [p q] eqn:Hq.
  cbn [snd threads].
  destruct (_next th) as [j |]; [| exact (f_equal _ Hthreads1)].
  destruct (threads c1 !! j) as [nx |]; [| exact (f_equal _ Hthreads1)].
  destruct (negb (is_active j c1) && _); [| exact (f_equal _ Hthreads1)].
  unfold activate. rewrite set_flag_length. exact (f_equal _ Hthreads1).
Qed.

Lemma service_pass_frame yz i c k thk :
  threads c !! k = Some thk ->
  threads (service_pass yz i c).2 !! k = Some thk \/
  (threads c !! i ≫= _next = Some k /\
   threads (service_pass yz i c).2 !! k = Some (set_active thk true)).
Proof.
  intros Hk. unfold service_pass.
  destruct (threads c !! i) as [th |] eqn:Hi; [| left; exact Hk].
  set (c1 := if _ && _ then _ else c).
  assert (Hthreads1 : threads c1 = threads c).
  { unfold c1. destruct (_ && _); reflexivity. }
  destruct (DirtyCardQueueSet.apply_closure_to_completed_buffer _ _) as [p q] eqn:Hq.
  cbn [snd threads mbind option_bind].
  destruct (_next th) as [j |]; [| left; rewrite Hthreads1; exact Hk].
  destruct (threads c1 !! j) as [nx |]; [| left; rewrite Hthreads1; exact Hk].
  destruct (negb (is_active j c1) && _); [| left; rewrite Hthreads1; exact Hk].
  destruct (set_flag_frame j true c1 k thk) as [H | [-> H]].
  - rewrite Hthreads1. exact Hk.
  - left. exact H.
  - right. split; [reflexivity | exact H].
Qed.

Lemma only_successor_next succ ts0 ts i :
  only_successor_activated succ ts0 ts ->
  ts !! i ≫= _next = ts0 !! i ≫= _next.
Proof.
  intros [Hlen Hrel]. destruct (ts0 !! i) as [th0 |] eqn:H0.
  - destruct (Hrel i th0 H0) as [-> | [_ ->]]; reflexivity.
  - apply lookup_ge_None in H0. rewrite <- Hlen in H0.
    apply lookup_ge_None in H0. rewrite H0. reflexivity.
Qed.

Lemma service_loop_frame_gen yz i ts0 obs : forall c,
  only_successor_activated (ts0 !! i ≫= _next) ts0 (threads c) ->
  forall k thk, ts0 !! k = Some thk ->
    threads (service_loop yz obs i c) !! k = Some thk \/
    (ts0 !! i ≫= _next = Some k /\
     threads (service_loop yz obs i c) !! k = Some (set_active thk true)) \/
    (k = i /\ threads (service_loop yz obs i c) !! k = Some (set_active thk false)).
Proof.
  assert (Hend : forall c,
    only_successor_activated (ts0 !! i ≫= _next) ts0 (threads c) ->
    forall k thk, ts0 !! k = Some thk ->
      threads (deactivate i c) !! k = Some thk \/
      (ts0 !! i ≫= _next = Some k /\
       threads (deactivate i c) !! k = Some (set_active thk true)) \/
      (k = i /\ threads (deactivate i c) !! k = Some (set_active thk false))).
  { intros c [_ Hrel] k thk Hk. unfold deactivate.
    destruct (Hrel k thk Hk) as [H | [Hs H]].
    - destruct (set_flag_frame i false c k thk H) as [H' | [-> H']]; auto.
    - destruct (set_flag_frame i false c k _ H) as [H' | [-> H']]; auto. }
  assert (Hpass : forall c,
    only_successor_activated (ts0 !! i ≫= _next) ts0 (threads c) ->
    only_successor_activated (ts0 !! i ≫= _next) ts0
      (threads (service_pass yz i c).2)).
  { intros c Hinv. pose proof (only_successor_next _ _ _ i Hinv) as Hnx.
    destruct Hinv as [Hlen Hrel]. split.
    - rewrite service_pass_length. exact Hlen.
    - intros k thk Hk. destruct (Hrel k thk Hk) as [H | [Hs H]].
      + destruct (service_pass_frame yz i c k thk H) as [H' | [Hs' H']]; auto.
        right. split; [rewrite <- Hnx; exact Hs' | exact H'].
      + destruct (service_pass_frame yz i c k _ H) as [H' | [Hs' H']]; auto. }
  induction obs as [| o rest IH]; intros c Hinv k thk Hk.
  - destruct Hinv as [_ Hrel]. cbn [service_loop].
    destruct (Hrel k thk Hk) as [H | H]; auto.
  - cbn [service_loop].
    set (c0 := {| threads := threads c;
                  dcqs := DirtyCardQueueSet.enqueue_completed (dcqs c) (enqueued o) |}).
    assert (Hinv0 : only_successor_activated (ts0 !! i ≫= _next) ts0 (threads c0))
      by exact Hinv.
    destruct (should_terminate o); [apply Hend; assumption |].
    destruct (should_yield o); [apply IH; assumption |].
    pose proof (Hpass c0 Hinv0) as Hinv1.
    destruct (service_pass yz i c0) as [processed c1]. cbn [snd] in Hinv1.
    destruct processed; [apply IH; assumption | apply Hend; assumption].
Qed.

End RefineFrame.

(** X6.  What [run_service] of the thread at position [i] can change in
    the chain.  Along any list of observations every thread record stays
    in place; it is left as it was, or it is the record of the successor
    of [i] with the flag set, or the record of [i] itself with the flag
    cleared.  So the loop never changes an identifier, a link or a
    threshold, never clears the flag of another thread, and never sets a
    flag other than the successor's. *)
Theorem run_service_frame (yellow_zone : Z)
    (obs : list ConcurrentG1RefineThread.observation) (i : nat)
    (c : ConcurrentG1RefineThread.chain)
    (k : nat) (thk : ConcurrentG1RefineThread.t) :
  ConcurrentG1RefineThread.threads c !! k = Some thk ->
  let c' := ConcurrentG1RefineThread.service_loop yellow_zone obs i c in
  ConcurrentG1RefineThread.threads c' !! k = Some thk \/
  (ConcurrentG1RefineThread.threads c !! i ≫= ConcurrentG1RefineThread._next = Some k /\
   ConcurrentG1RefineThread.threads c' !! k
     = Some (ConcurrentG1RefineThread.set_active thk true)) \/
  (k = i /\
   ConcurrentG1RefineThread.threads c' !! k
     = Some (ConcurrentG1RefineThread.set_active thk false)).
Proof.
  intros Hk c'. unfold c'.
  apply (service_loop_frame_gen yellow_zone i (ConcurrentG1RefineThread.threads c)).
  - split; [reflexivity |]. intros k' th' H'. left. exact H'.
  - exact Hk.
Qed.

Lemma run_service_frame_witness :
  let c := example_chain 9 in
  let o := {| ConcurrentG1RefineThread.should_terminate := false;
              ConcurrentG1RefineThread.should_yield := false;
              ConcurrentG1RefineThread.enqueued := 0 |} in
  let c' := ConcurrentG1RefineThread.service_loop 6 [o] 0 c in
  let th1 := example_thread 1 (Some 2%nat) 8 5 in
  ConcurrentG1RefineThread.threads c' !! 1%nat = Some th1 \/
  (ConcurrentG1RefineThread.threads c !! 0%nat ≫= ConcurrentG1RefineThread._next
     = Some 1%nat /\
   ConcurrentG1RefineThread.threads c' !! 1%nat
     = Some (ConcurrentG1RefineThread.set_active th1 true)) \/
  (1%nat = 0%nat /\
   ConcurrentG1RefineThread.threads c' !! 1%nat
     = Some (ConcurrentG1RefineThread.set_active th1 false)).
Proof.
  intros c o c' th1.
  apply (run_service_frame 6 [o] 0 c 1 th1). reflexivity.
Defined.

(** ** Humongous regions and their way back to Free *)

Section HumongousFacts.
Import HeapRegion.

Lemma free_not_humongous r : _type r = Free -> is_humongous r = false.
Proof. intros H. unfold is_humongous. rewrite H. reflexivity. Qed.

Lemma set_starts_humongous_free self obj_top fill_size r :
  _type r = Free -> top r = bottom r ->
  set_starts_humongous self obj_top fill_size r
  = Normal (with_humongous_start_region (with_type r StartsHumongous) (Some self)).
Proof.
  intros Hty Htop. unfold set_starts_humongous, set_type_from_free.
  rewrite (free_not_humongous r Hty), Htop, Z.eqb_refl, Hty. reflexivity.
Qed.

Lemma set_continues_humongous_free table first first_hr r :
  _type r = Free -> top r = bottom r ->
  table !! first = Some first_hr -> is_starts_humongous first_hr = true ->
  set_continues_humongous table first r
  = Normal (with_humongous_start_region (with_type r ContinuesHumongous) (Some first)).
Proof.
  intros Hty Htop Hfirst Hsh. unfold set_continues_humongous, set_type_from_free.
  rewrite (free_not_humongous r Hty), Htop, Z.eqb_refl, Hfirst, Hsh, Hty.
  reflexivity.
Qed.

End HumongousFacts.

(** X7.  The life of a humongous start region.  A free, empty region
    becomes a start region that refers to itself.  From then on a second
    [set_starts_humongous] or [set_continues_humongous] fails its
    precondition, and so does [hr_clear], which wants the humongous
    regions filtered out.  The way back is [clear_humongous] first, which
    drops the reference but leaves the type, and [hr_clear] second,
    which frees the region; in the free region [clear_humongous] fails
    its precondition, so the two cannot be swapped, and the region can
    start a humongous object again. *)
Theorem humongous_region_lifecycle
    (cfg : RegionSizing) (g : HeapRegion.globals)
    (stamp : Z) (keep_remset clear_space locked : bool)
    (self : nat) (obj_top fill_size : Z)
    (table : list HeapRegion.t) (first : nat) (r : HeapRegion.t) :
  HeapRegion._type r = Free ->
  HeapRegion.top r = HeapRegion.bottom r ->
  HeapRegion.in_collection_set r = false ->
  HeapRegion.capacity cfg r = HeapRegion.GrainBytes g ->
  exists r1 r2 r3 r4,
    HeapRegion.set_starts_humongous self obj_top fill_size r = Normal r1 /\
    HeapRegion.is_starts_humongous r1 = true /\
    HeapRegion._humongous_start_region r1 = Some self /\
    HeapRegion.set_starts_humongous self obj_top fill_size r1
      = Abort "sanity / pre-condition" /\
    HeapRegion.set_continues_humongous table first r1
      = Abort "sanity / pre-condition" /\
    HeapRegion.hr_clear stamp keep_remset clear_space locked r1
      = Abort "we should have already filtered out humongous regions" /\
    HeapRegion.clear_humongous cfg g r1 = Normal r2 /\
    HeapRegion.is_starts_humongous r2 = true /\
    HeapRegion._humongous_start_region r2 = None /\
    HeapRegion.hr_clear stamp keep_remset clear_space locked r2 = Normal r3 /\
    HeapRegion._type r3 = Free /\
    HeapRegion.top r3 = HeapRegion.bottom r3 /\
    HeapRegion.clear_humongous cfg g r3 = Abort "pre-condition" /\
    HeapRegion.set_starts_humongous self obj_top fill_size r3 = Normal r4.
Proof.
  intros Hty Htop Hcset Hcap.
  set (r1 := HeapRegion.with_humongous_start_region
               (HeapRegion.with_type r StartsHumongous) (Some self)).
  set (r2 := HeapRegion.with_humongous_start_region r1 None).
  destruct (hr_clear_unfold stamp keep_remset clear_space locked r2 eq_refl Hcset)
    as (r3 & Hclear & Hbot & Htop3 & _ & Hty3 & _ & _ & _).
  exists r1, r2, r3,
    (HeapRegion.with_humongous_start_region
       (HeapRegion.with_type r3 StartsHumongous) (Some self)).
  assert (Htop3' : HeapRegion.top r3 = HeapRegion.bottom r3).
  { rewrite Htop3, Hbot. destruct clear_space; [reflexivity | exact Htop]. }
  split; [apply set_starts_humongous_free; assumption |].
  split; [reflexivity |]. split; [reflexivity |].
  split; [reflexivity |]. split; [reflexivity |]. split; [reflexivity |].
  split.
  { unfold HeapRegion.clear_humongous.
    change (HeapRegion.is_humongous r1) with true.
    change (HeapRegion.capacity cfg r1) with (HeapRegion.capacity cfg r).
    rewrite Hcap, Z.eqb_refl. reflexivity. }
  split; [reflexivity |]. split; [reflexivity |].
  split; [exact Hclear |]. split; [exact Hty3 |]. split; [exact Htop3' |].
  split.
  { unfold HeapRegion.clear_humongous.
    rewrite (free_not_humongous r3 Hty3). reflexivity. }
  apply set_starts_humongous_free; assumption.
Qed.

Lemma humongous_region_lifecycle_witness :
  exists r1 r2 r3,
    HeapRegion.set_starts_humongous 0 4608 0 (example_region Free 4096 4096 None)
      = Normal r1 /\
    HeapRegion.clear_humongous example_sizing
      (HeapRegion.Build_globals 13 10 8192 1024 16 8192) r1 = Normal r2 /\
    HeapRegion.hr_clear 0 false true false r2 = Normal r3 /\
    HeapRegion._type r3 = Free.
Proof.
  destruct (humongous_region_lifecycle example_sizing
              (HeapRegion.Build_globals 13 10 8192 1024 16 8192)
              0 false true false 0 4608 0 [] 0
              (example_region Free 4096 4096 None)
              eq_refl eq_refl eq_refl eq_refl)
    as (r1 & r2 & r3 & _ & H1 & _ & _ & _ & _ & _ & H2 & _ & _ & H3 & H4 & _).
  exists r1, r2, r3. repeat split; assumption.
Defined.

(** X8.  The back reference of a continuation region.  A free, empty
    region made the continuation of the start region at position
    [first] refers to that region, which is a start region; and a card
    of the continuation is scanned exactly as the same card range is on
    the start region: the object looked at is the one at the bottom of
    the start region, never one of the continuation itself. *)
Theorem continues_humongous_back_reference
    (g1h : HeapRegion.heap) (first : nat) (sr r : HeapRegion.t)
    (mr : HeapRegion.MemRegion) :
  HeapRegion._type r = Free ->
  HeapRegion.top r = HeapRegion.bottom r ->
  HeapRegion.regions g1h !! first = Some sr ->
  HeapRegion.is_starts_humongous sr = true ->
  HeapRegion._humongous_start_region sr = Some first ->
  exists cr,
    HeapRegion.set_continues_humongous (HeapRegion.regions g1h) first r = Normal cr /\
    HeapRegion._type cr = ContinuesHumongous /\
    (HeapRegion._humongous_start_region cr ≫= fun k => HeapRegion.regions g1h !! k)
      = Some sr /\
    HeapRegion.bottom cr = HeapRegion.bottom r /\
    HeapRegion.do_oops_on_card_in_humongous mr cr g1h
      = HeapRegion.do_oops_on_card_in_humongous mr sr g1h /\
    (forall its, HeapRegion.do_oops_on_card_in_humongous mr cr g1h = Normal (true, its) ->
       forall it, it ∈ its -> HeapRegion.iterated_object it = HeapRegion.bottom sr).
Proof.
  intros Hty Htop Hfirst Hsh Hself.
  eexists. split; [eapply set_continues_humongous_free; eassumption |].
  split; [reflexivity |].
  split; [cbn; exact Hfirst |].
  split; [reflexivity |].
  assert (Hsame :
    HeapRegion.do_oops_on_card_in_humongous mr
      (HeapRegion.with_humongous_start_region
         (HeapRegion.with_type r ContinuesHumongous) (Some first)) g1h
    = HeapRegion.do_oops_on_card_in_humongous mr sr g1h).
  { unfold HeapRegion.do_oops_on_card_in_humongous.
    assert (Hhum : HeapRegion.is_humongous sr = true).
    { unfold HeapRegion.is_starts_humongous in Hsh. unfold HeapRegion.is_humongous.
      destruct (HeapRegion._type sr); try discriminate; reflexivity. }
    rewrite Hhum, Hself.
    cbn [HeapRegion._humongous_start_region HeapRegion.with_humongous_start_region
         HeapRegion.is_humongous HeapRegion._type HeapRegion.with_type
         mbind option_bind].
    reflexivity. }
  split; [exact Hsame |].
  rewrite Hsame. unfold HeapRegion.do_oops_on_card_in_humongous.
  intros its Hrun it Hin. revert Hrun.
  destruct (HeapRegion.is_humongous sr); cbn; [| discriminate].
  rewrite Hself. cbn. rewrite Hfirst.
  destruct (negb (HeapRegion.is_gc_active g1h) && _); [discriminate |].
  destruct (negb (HeapRegion.is_obj_dead g1h _ sr)).
  - destruct (HeapRegion.is_objArray g1h _ || _); intros [= <-];
      apply list_elem_of_singleton in Hin; subst it; reflexivity.
  - intros [= <-]. apply elem_of_nil in Hin. contradiction.
Qed.

Lemma continues_humongous_back_reference_witness :
  exists cr,
    HeapRegion.set_continues_humongous (HeapRegion.regions (example_heap 7)) 0
      (example_region Free 6144 6144 None) = Normal cr /\
    HeapRegion.do_oops_on_card_in_humongous
      {| HeapRegion.mr_start := 6144; HeapRegion.mr_end := 6208 |} cr (example_heap 7)
    = Normal (true, [HeapRegion.oop_iterate_bounded 4096
                       {| HeapRegion.mr_start := 6144; HeapRegion.mr_end := 6208 |}]).
Proof.
  destruct (continues_humongous_back_reference (example_heap 7) 0
              (example_region StartsHumongous 4096 5120 (Some 0%nat))
              (example_region Free 6144 6144 None)
              {| HeapRegion.mr_start := 6144; HeapRegion.mr_end := 6208 |}
              eq_refl eq_refl eq_refl eq_refl eq_refl)
    as (cr & Hset & _ & _ & _ & Hscan & _).
  exists cr. split; [exact Hset |]. rewrite Hscan. reflexivity.
Defined.

(** ** Initialisation and the scan limit *)

Section ScanTopFacts.
Import HeapRegion.

Lemma record_timestamp_same stamp r :
  _gc_time_stamp (_space r) = stamp -> record_timestamp stamp r = Normal r.
Proof.
  intros H. unfold record_timestamp. rewrite H, Z.ltb_irrefl. reflexivity.
Qed.

Lemma scan_top_same stamp r :
  _gc_time_stamp (_space r) = stamp ->
  scan_top stamp r = Normal (_scan_top (_space r)).
Proof.
  intros H. unfold scan_top. rewrite H, Z.leb_refl, Z.ltb_irrefl. reflexivity.
Qed.

End ScanTopFacts.

(** X9.  [HeapRegion::initialize] on a region with an empty remembered
    set, no start region and outside the collection set returns, whatever
    the old bounds, tops and time stamp are.  The region then spans the
    memory region, is clear (Free, [top == bottom], nothing remembered),
    carries the time stamp of the heap with the scan limit at [bottom],
    so the closing [record_timestamp] never reaches its guarantee, and a
    following [hr_clear] changes nothing. *)
Theorem initialize_gives_clear_region
    (stamp : Z) (mr : HeapRegion.MemRegion) (clear_space : bool)
    (r : HeapRegion.t) :
  HeapRegionRemSet.is_empty (HeapRegion.rem_set r) = true ->
  HeapRegion._humongous_start_region r = None ->
  HeapRegion.in_collection_set r = false ->
  exists r',
    HeapRegion.initialize stamp mr clear_space r = Normal r' /\
    HeapRegion.bottom r' = HeapRegion.mr_start mr /\
    HeapRegion.end_ r' = HeapRegion.mr_end mr /\
    HeapRegion.already_clear r' /\
    HeapRegion._gc_time_stamp (HeapRegion._space r') = stamp /\
    HeapRegion.scan_top stamp r' = Normal (HeapRegion.mr_start mr) /\
    (forall keep_remset clear_space' locked,
       HeapRegion.hr_clear stamp keep_remset clear_space' locked r' = Normal r').
Proof.
  intros Hempty Hhum Hcset. unfold HeapRegion.initialize.
  rewrite Hempty, vmassert_true, bind_Normal.
  assert (Hrs : HeapRegion.rem_set r = HeapRegionRemSet.clear (HeapRegion.rem_set r)).
  { unfold HeapRegionRemSet.is_empty in Hempty.
    apply andb_prop in Hempty as [H1 H2].
    apply bool_decide_eq_true in H1. apply bool_decide_eq_true in H2.
    destruct (HeapRegion.rem_set r) as [o c]. cbn in H1, H2. subst. reflexivity. }
  destruct r as [[b e t st ct ts] ty ac hs ics [yi sg ai] pd rs [pm nm pt nt]].
  destruct mr as [ms me].
  change (rs = HeapRegionRemSet.clear rs) in Hrs.
  change (hs = None) in Hhum. change (ics = false) in Hcset.
  subst hs ics. rewrite Hrs. clear Hrs Hempty.
  destruct clear_space, sg;
    match goal with
    | |- context [HeapRegion.hr_clear ?s ?k ?c ?l ?x] =>
        eassert (Hclear : HeapRegion.hr_clear s k c l x = Normal _)
          by (vm_compute; reflexivity);
        rewrite Hclear, bind_Normal; clear Hclear
    end;
    (rewrite record_timestamp_same by (vm_compute; reflexivity));
    (eexists; split; [reflexivity |]);
    (split; [vm_compute; reflexivity |]);
    (split; [vm_compute; reflexivity |]);
    (split; [split; [vm_compute; reflexivity | split];
             vm_compute; reflexivity |]);
    (split; [vm_compute; reflexivity |]);
    (split; [rewrite scan_top_same by (vm_compute; reflexivity);
             vm_compute; reflexivity |]);
    intros [] [] []; vm_compute; reflexivity.
Qed.

Lemma initialize_gives_clear_region_witness :
  exists r',
    HeapRegion.initialize 3
      {| HeapRegion.mr_start := 8192; HeapRegion.mr_end := 9216 |} false
      (example_region Old 4096 4600 None) = Normal r' /\
    HeapRegion.already_clear r' /\
    HeapRegion.scan_top 3 r' = Normal 8192.
Proof.
  destruct (initialize_gives_clear_region 3
              {| HeapRegion.mr_start := 8192; HeapRegion.mr_end := 9216 |} false
              (example_region Old 4096 4600 None) eq_refl eq_refl eq_refl)
    as (r' & Hrun & _ & _ & Hclear & _ & Hscan & _).
  exists r'. repeat split; try assumption; apply Hclear.
Defined.


(** X10.  The scan limit and the time stamp.  While the stamp of a
    region is behind the stamp of the heap, [scan_top] follows [top].
    [record_timestamp] then requires the recorded limit to be [bottom]
    or [top], and once it has returned the limit is the recorded one
    whatever is allocated in the region afterwards; a second
    [record_timestamp] changes nothing, and only
    [record_retained_region] moves the limit up to [top] again. *)
Theorem scan_top_frozen_by_timestamp (stamp : Z) (r r1 : HeapRegion.t) :
  HeapRegion._gc_time_stamp (HeapRegion._space r) <= stamp ->
  HeapRegion.record_timestamp stamp r = Normal r1 ->
  (forall new_top,
     HeapRegion.scan_top stamp (HeapRegion.set_top r1 new_top)
     = Normal (HeapRegion._scan_top (HeapRegion._space r))) /\
  (HeapRegion._gc_time_stamp (HeapRegion._space r) < stamp ->
   (forall new_top,
      HeapRegion.scan_top stamp (HeapRegion.set_top r new_top) = Normal new_top) /\
   (HeapRegion._scan_top (HeapRegion._space r) = HeapRegion.bottom r \/
    HeapRegion._scan_top (HeapRegion._space r) = HeapRegion.top r)) /\
  HeapRegion.record_timestamp stamp r1 = Normal r1 /\
  (forall new_top,
     HeapRegion.scan_top stamp
       (HeapRegion.record_retained_region (HeapRegion.set_top r1 new_top))
     = Normal new_top).
Proof.
  intros Hle. unfold HeapRegion.record_timestamp.
  destruct (Z.ltb_spec (HeapRegion._gc_time_stamp (HeapRegion._space r)) stamp)
    as [Hlt | Hge].
  - unfold guarantee.
    destruct ((_ =? HeapRegion.bottom r) || (_ =? HeapRegion.top r)) eqn:Hinv;
      [| discriminate].
    rewrite bind_Normal. intros [= <-].
    split; [| split; [| split]].
    + intros new_top. rewrite scan_top_same by reflexivity. reflexivity.
    + intros _. split.
      * intros new_top. unfold HeapRegion.scan_top.
        change (HeapRegion._gc_time_stamp
                  (HeapRegion._space (HeapRegion.set_top r new_top)))
          with (HeapRegion._gc_time_stamp (HeapRegion._space r)).
        destruct (Z.leb_spec (HeapRegion._gc_time_stamp (HeapRegion._space r)) stamp);
          [| lia].
        destruct (Z.ltb_spec (HeapRegion._gc_time_stamp (HeapRegion._space r)) stamp);
          [reflexivity | lia].
      * apply orb_prop in Hinv as [H | H]; apply Z.eqb_eq in H; auto.
    + apply record_timestamp_same. reflexivity.
    + intros new_top. rewrite scan_top_same by reflexivity. reflexivity.
  - intros [= <-].
    assert (Heq : HeapRegion._gc_time_stamp (HeapRegion._space r) = stamp) by lia.
    split; [| split; [| split]].
    + intros new_top. rewrite scan_top_same by exact Heq. reflexivity.
    + intros Hlt. lia.
    + apply record_timestamp_same. exact Heq.
    + intros new_top. rewrite scan_top_same by exact Heq. reflexivity.
Qed.

Lemma scan_top_frozen_by_timestamp_witness :
  exists r1,
    HeapRegion.record_timestamp 3 (example_region Old 4096 4600 None) = Normal r1 /\
    HeapRegion.scan_top 3 (HeapRegion.set_top r1 4700) = Normal 4096 /\
    HeapRegion.scan_top 3
      (HeapRegion.set_top (example_region Old 4096 4600 None) 4700) = Normal 4700.
Proof.
  eexists. split; [reflexivity |].
  destruct (scan_top_frozen_by_timestamp 3 (example_region Old 4096 4600 None) _
              ltac:(cbn; lia) eq_refl) as (Hfrozen & Hbefore & _).
  split; [exact (Hfrozen 4700) |].
  destruct (Hbefore ltac:(cbn; lia)) as [Hfollow _]. exact (Hfollow 4700).
Defined.

(** ** The walk over the objects of a card *)

Section CardWalkFacts.
Import HeapRegion.
Context (g1h : heap) (r : t) (mr : MemRegion) (starts : Z -> Prop).
Hypothesis Hparsable : parsable g1h r (mr_end mr) starts.

Lemma card_application_later cur cur' it :
  cur <= cur' -> cur' < mr_end mr ->
  card_application g1h r mr cur' it -> card_application g1h r mr cur it.
Proof.
  intros Hle Hlt (H1 & H2 & H3 & H4). unfold card_application.
  repeat split; [lia | left; lia | exact H3 | exact H4].
Qed.

Lemma walk_card_spec (fuel : nat) : forall cur,
  starts cur ->
  Z.max 0 (mr_end mr - cur) < Z.of_nat fuel ->
  exists its,
    walk_card fuel g1h r mr cur = Normal its /\
    Forall (fun it => card_application g1h r mr cur it /\
                      starts (iterated_object it)) its /\
    StronglySorted Z.lt (map iterated_object its).
Proof.
  induction fuel as [| fuel IH]; intros cur Hcur Hfuel; [lia |].
  destruct (Hparsable cur Hcur) as ((Hoop & Hk & Hsz) & Hnext). cbv zeta in Hnext.
  assert (Hrec : forall cur', cur < cur' -> cur' < mr_end mr -> starts cur' ->
    exists rest,
      walk_card fuel g1h r mr cur' = Normal rest /\
      Forall (fun it => card_application g1h r mr cur it /\
                        starts (iterated_object it)) rest /\
      Forall (Z.lt cur) (map iterated_object rest) /\
      StronglySorted Z.lt (map iterated_object rest)).
  { intros cur' Hlt Hin Hst.
    destruct (IH cur' Hst ltac:(lia)) as (rest & Hrun & Hall & Hsorted).
    exists rest. split; [exact Hrun |]. split; [| split; [| exact Hsorted]].
    - eapply Forall_impl; [exact Hall |]. intros it [Hit Hs]. split; [| exact Hs].
      apply (card_application_later cur cur'); [lia | exact Hin | exact Hit].
    - apply Forall_map. eapply Forall_impl; [exact Hall |].
      intros it [(H1 & _) _]. cbn. lia. }
  cbn [walk_card]. rewrite Hoop, vmassert_true, bind_Normal.
  destruct (Z.eqb_spec (klass_or_null_acquire g1h cur) NULL) as [? | _];
    [contradiction |].
  cbn [negb]. rewrite vmassert_true, bind_Normal.
  destruct (is_obj_dead g1h cur r) eqn:Hdead.
  - destruct (Z.ltb_spec (cur + block_size g1h r cur) (mr_end mr)) as [Hin | Hout].
    + destruct (Hrec (cur + block_size g1h r cur) ltac:(lia) Hin (Hnext Hin))
        as (rest & Hrun & Hall & _ & Hsorted).
      rewrite Hrun, bind_Normal. exists rest. auto.
    + exists []. split; [reflexivity |]. split; constructor.
  - set (whole := negb (is_objArray g1h cur)
                  || ((mr_start mr <=? cur) && (cur + size g1h cur <=? mr_end mr))).
    assert (Hit : card_application g1h r mr cur
                    (if whole then oop_iterate cur else oop_iterate_bounded cur mr)).
    { unfold card_application, whole.
      destruct (is_objArray g1h cur) eqn:Harr; cbn [negb orb].
      - destruct (Z.leb_spec (mr_start mr) cur);
          destruct (Z.leb_spec (cur + size g1h cur) (mr_end mr));
          cbn [andb iterated_object]; rewrite ?Harr;
          (split; [lia |]); (split; [right; reflexivity |]);
          (split; [exact Hdead |]);
          first [ left; split; [reflexivity | right; lia]
                | right; split; [reflexivity | split; [reflexivity | lia]] ].
      - cbn [iterated_object]. rewrite Harr.
        split; [lia |]. split; [right; reflexivity |]. split; [exact Hdead |].
        left. split; [reflexivity | left; reflexivity]. }
    assert (Hobj : iterated_object
                     (if whole then oop_iterate cur else oop_iterate_bounded cur mr)
                   = cur) by (destruct whole; reflexivity).
    assert (Hstep :
      (let '(cur', its) :=
         if whole then (cur + size g1h cur, [oop_iterate cur])
         else (cur + size g1h cur, [oop_iterate_bounded cur mr]) in
       if cur' <? mr_end mr
       then walk_card fuel g1h r mr cur' ≫= λ rest, mret (its ++ rest)
       else mret its)
      = (if cur + size g1h cur <? mr_end mr
         then walk_card fuel g1h r mr (cur + size g1h cur) ≫=
                λ rest, mret ([if whole then oop_iterate cur
                               else oop_iterate_bounded cur mr] ++ rest)
         else mret [if whole then oop_iterate cur else oop_iterate_bounded cur mr]))
      by (destruct whole; reflexivity).
    rewrite Hstep. clear Hstep.
    destruct (Z.ltb_spec (cur + size g1h cur) (mr_end mr)) as [Hin | Hout].
    + destruct (Hrec (cur + size g1h cur) ltac:(lia) Hin (Hnext Hin))
        as (rest & Hrun & Hall & Hgt & Hsorted).
      rewrite Hrun, bind_Normal. eexists. split; [reflexivity |].
      split; [constructor; [split; [exact Hit | rewrite Hobj; exact Hcur] | exact Hall] |].
      cbn [app map]. rewrite Hobj. constructor; assumption.
    + eexists. split; [reflexivity |].
      split; [constructor; [split; [exact Hit | rewrite Hobj; exact Hcur]
                           | constructor] |].
      cbn [map]. rewrite Hobj. constructor; constructor.
Qed.

End CardWalkFacts.

(** X11.  The scan of a card of an old region that parses from the
    start of the block holding the first word of the card range.  With
    fuel for one step per word the call returns [true].  The closure is
    applied to live objects only, each of them one of the addresses the
    region parses at, at or after that block start and, the first block
    apart, before the end of the range; in address order, so to no
    object twice.  An application is bounded by the card range exactly
    for an object array that does not lie within it. *)
Theorem old_region_card_scan
    (fuel : nat) (g1h : HeapRegion.heap) (r : HeapRegion.t)
    (mr : HeapRegion.MemRegion) (starts : Z -> Prop) :
  HeapRegion.is_old r = true ->
  HeapRegion.contains
    {| HeapRegion.mr_start := HeapRegion.bottom r;
       HeapRegion.mr_end := HeapRegion.end_ r |} mr = true ->
  let cur := HeapRegion.block_start g1h r (HeapRegion.mr_start mr) in
  cur <= HeapRegion.mr_start mr < cur + HeapRegion.block_size g1h r cur ->
  starts cur ->
  HeapRegion.parsable g1h r (HeapRegion.mr_end mr) starts ->
  Z.max 0 (HeapRegion.mr_end mr - cur) < Z.of_nat fuel ->
  exists its,
    HeapRegion.oops_on_card_seq_iterate_careful fuel g1h r mr = Normal (true, its) /\
    Forall (fun it => HeapRegion.card_application g1h r mr cur it /\
                      starts (HeapRegion.iterated_object it)) its /\
    StronglySorted Z.lt (map HeapRegion.iterated_object its).
Proof.
  intros Hold Hcontains cur Hstart Hcur Hparsable Hfuel.
  destruct (walk_card_spec g1h r mr starts Hparsable fuel cur Hcur Hfuel)
    as (its & Hrun & Hall & Hsorted).
  exists its. split; [| split; assumption].
  unfold HeapRegion.oops_on_card_seq_iterate_careful.
  rewrite Hcontains, vmassert_true, bind_Normal.
  assert (Hhum : HeapRegion.is_humongous r = false).
  { unfold HeapRegion.is_old in Hold. unfold HeapRegion.is_humongous.
    destruct (HeapRegion._type r); try discriminate; reflexivity. }
  rewrite Hhum, Hold, vmassert_true, bind_Normal.
  fold cur.
  destruct (Z.leb_spec cur (HeapRegion.mr_start mr)); [| lia].
  rewrite vmassert_true, bind_Normal.
  destruct (Z.ltb_spec (HeapRegion.mr_start mr)
              (cur + HeapRegion.block_size g1h r cur)); [| lia].
  rewrite vmassert_true, bind_Normal, Hrun. reflexivity.
Qed.

Lemma old_region_card_scan_witness :
  exists its,
    HeapRegion.oops_on_card_seq_iterate_careful 100 example_old_heap
      (example_region Old 4096 5120 None)
      {| HeapRegion.mr_start := 4104; HeapRegion.mr_end := 4168 |}
    = Normal (true, its) /\
    StronglySorted Z.lt (map HeapRegion.iterated_object its).
Proof.
  destruct (old_region_card_scan 100 example_old_heap
              (example_region Old 4096 5120 None)
              {| HeapRegion.mr_start := 4104; HeapRegion.mr_end := 4168 |}
              (fun a => a mod 16 = 0))
    as (its & Hrun & _ & Hsorted).
  - reflexivity.
  - reflexivity.
  - vm_compute. split; [discriminate | reflexivity].
  - reflexivity.
  - intros a Ha. split.
    + split; [apply Z.eqb_eq; exact Ha |]. split; [discriminate |].
      cbn. destruct (a =? 4112); lia.
    + cbn. intros _. destruct (a =? 4112);
        rewrite <- (Z.mul_1_l 16) at 1; rewrite Z.mod_add by lia; exact Ha.
  - vm_compute. reflexivity.
  - exists its. split; assumption.
Defined.

(** ** The region size as a function of the request *)

Section RegionSizeValue.
Import HeapRegion.

Lemma requested_region_size_range cfg log_min log_max i m g :
  wf_sizing cfg log_min log_max ->
  (G1HeapRegionSize_is_default cfg = false -> 1 <= G1HeapRegionSize g < 2 ^ 64) ->
  1 <= requested_region_size cfg i m g < 2 ^ 64.
Proof.
  intros [Hmin Hmax [Hlw Hlog] Htarget Hcard] Hflag.
  assert (Hpmin : 1 <= 2 ^ log_min < 2 ^ 64).
  { split; [| apply Z.pow_lt_mono_r; lia].
    assert (0 < 2 ^ log_min) by (apply Z.pow_pos_nonneg; lia). lia. }
  unfold requested_region_size.
  destruct (G1HeapRegionSize_is_default cfg); [| auto].
  cbv zeta. rewrite region_MAX2_max, Hmin.
  assert (Havg : 0 <= size_t (i + m) / 2 < 2 ^ 64).
  { unfold size_t.
    pose proof (Z.mod_pos_bound (i + m) (2 ^ 64) ltac:(lia)).
    split; [apply Z.div_pos; lia |].
    apply Z.div_lt_upper_bound; lia. }
  assert (0 <= size_t (i + m) / 2 / HeapRegionBounds_target_number cfg < 2 ^ 64).
  { split; [apply Z.div_pos; lia |].
    apply Z.div_lt_upper_bound; [lia |]. nia. }
  lia.
Qed.

(** The set-up on fresh globals, with the exponent of the region size
    spelled out. *)
Lemma setup_grain_exponent cfg log_min log_max i m g :
  wf_sizing cfg log_min log_max ->
  (G1HeapRegionSize_is_default cfg = false -> 1 <= G1HeapRegionSize g < 2 ^ 64) ->
  unset g = true ->
  let c := Z.min log_max (Z.max log_min (Z.log2 (requested_region_size cfg i m g))) in
  setup_heap_region_size cfg i m g
  = Normal {| LogOfHRGrainBytes := c;
              LogOfHRGrainWords := c - LogHeapWordSize cfg;
              GrainBytes := 2 ^ c;
              GrainWords := 2 ^ (c - LogHeapWordSize cfg);
              CardsPerRegion := Z.shiftr (2 ^ c) (card_shift cfg);
              G1HeapRegionSize := 2 ^ c |}.
Proof.
  intros WF Hflag Hunset c.
  pose proof (requested_region_size_range cfg log_min log_max i m g WF Hflag) as Hrs0.
  destruct WF as [Hmin Hmax [Hlw Hlog] Htarget Hcard].
  unfold setup_heap_region_size.
  fold (requested_region_size cfg i m g).
  set (rs0 := requested_region_size cfg i m g) in *.
  rewrite (log2_long_correct rs0 Hrs0).
  assert (Hl0 : 0 <= Z.log2 rs0 < 64).
  { split; [apply Z.log2_nonneg |]. apply Z.log2_lt_pow2; lia. }
  rewrite (shift_one_ok _ Hl0), bind_Normal.
  assert (Hc : log_min <= c <= log_max) by (unfold c; lia).
  assert (Hclamp :
    (if 2 ^ Z.log2 rs0 <? HeapRegionBounds_min_size cfg
     then HeapRegionBounds_min_size cfg
     else if 2 ^ Z.log2 rs0 >? HeapRegionBounds_max_size cfg
          then HeapRegionBounds_max_size cfg
          else 2 ^ Z.log2 rs0) = 2 ^ c).
  { rewrite Hmin, Hmax. unfold c.
    destruct (Z.lt_ge_cases (Z.log2 rs0) log_min) as [H1 | H1].
    - replace (Z.min log_max (Z.max log_min (Z.log2 rs0))) with log_min by lia.
      apply (Z.pow_lt_mono_r 2) in H1; [| lia | lia].
      destruct (Z.ltb_spec (2 ^ Z.log2 rs0) (2 ^ log_min)); [reflexivity | lia].
    - pose proof H1 as H1'.
      apply (Z.pow_le_mono_r 2) in H1; [| lia].
      destruct (Z.ltb_spec (2 ^ Z.log2 rs0) (2 ^ log_min)); [lia |].
      destruct (Z.lt_ge_cases log_max (Z.log2 rs0)) as [H2 | H2].
      + replace (Z.min log_max (Z.max log_min (Z.log2 rs0))) with log_max by lia.
        apply (Z.pow_lt_mono_r 2) in H2; [| lia | lia].
        destruct (Z.gtb_spec (2 ^ Z.log2 rs0) (2 ^ log_max)); [reflexivity | lia].
      + replace (Z.min log_max (Z.max log_min (Z.log2 rs0))) with (Z.log2 rs0) by lia.
        apply (Z.pow_le_mono_r 2) in H2; [| lia].
        destruct (Z.gtb_spec (2 ^ Z.log2 rs0) (2 ^ log_max)); [lia | reflexivity]. }
  cbv zeta. rewrite Hclamp.
  rewrite (log2_long_pow2 c) by lia.
  rewrite (shift_one_ok (c - LogHeapWordSize cfg)) by lia.
  assert (Hwords : Z.shiftr (2 ^ c) (LogHeapWordSize cfg) = 2 ^ (c - LogHeapWordSize cfg)).
  { rewrite Z.shiftr_div_pow2 by lia.
    rewrite <- Z.pow_sub_r by lia. reflexivity. }
  rewrite Hwords.
  unfold unset in Hunset.
  apply andb_prop in Hunset as [Hunset H5]. apply andb_prop in Hunset as [Hunset H4].
  apply andb_prop in Hunset as [Hunset H3]. apply andb_prop in Hunset as [H1 H2].
  unfold guarantee. rewrite H1, H2, H3, H4, H5, !bind_Normal, Z.eqb_refl.
  reflexivity.
Qed.

End RegionSizeValue.

(** X12.  The region size as a function of the requested size, which
    is the flag if given and else the ergonomic size.  For a flag that,
    if given, is at least 1 (a [size_t], so below [2^64]), the set-up on
    fresh globals returns with [GrainBytes] a power of two between the
    bounds: the minimum for a request below the minimum, the maximum
    for a request at or above the maximum, and in between the largest
    power of two at most the request; a request that is a power of two
    within the bounds is taken as it is.  [GrainWords] is never below
    [min_region_size_in_words()]. *)
Theorem region_size_rounds_down_and_clamps
    (cfg : RegionSizing) (log_min log_max : Z)
    (initial_heap_size max_heap_size : Z) (g : HeapRegion.globals) :
  HeapRegion.wf_sizing cfg log_min log_max ->
  (G1HeapRegionSize_is_default cfg = false ->
   1 <= HeapRegion.G1HeapRegionSize g < 2 ^ 64) ->
  HeapRegion.unset g = true ->
  let R := HeapRegion.requested_region_size cfg initial_heap_size max_heap_size g in
  exists g',
    HeapRegion.setup_heap_region_size cfg initial_heap_size max_heap_size g
      = Normal g' /\
    (exists k, log_min <= k <= log_max /\ HeapRegion.GrainBytes g' = 2 ^ k) /\
    (R < HeapRegionBounds_min_size cfg ->
     HeapRegion.GrainBytes g' = HeapRegionBounds_min_size cfg) /\
    (HeapRegionBounds_min_size cfg <= R < HeapRegion.max_region_size cfg ->
     HeapRegion.GrainBytes g' = 2 ^ Z.log2 R /\
     HeapRegion.GrainBytes g' <= R < 2 * HeapRegion.GrainBytes g' /\
     (forall k, 0 <= k -> 2 ^ k <= R -> 2 ^ k <= HeapRegion.GrainBytes g')) /\
    (HeapRegion.max_region_size cfg <= R ->
     HeapRegion.GrainBytes g' = HeapRegion.max_region_size cfg) /\
    (forall k, log_min <= k <= log_max -> R = 2 ^ k ->
     HeapRegion.GrainBytes g' = R) /\
    HeapRegion.min_region_size_in_words cfg <= HeapRegion.GrainWords g'.
Proof.
  intros WF Hflag Hunset R.
  pose proof (requested_region_size_range cfg log_min log_max
                initial_heap_size max_heap_size g WF Hflag) as HR. fold R in HR.
  pose proof (setup_grain_exponent cfg log_min log_max initial_heap_size
                max_heap_size g WF Hflag Hunset) as Hrun.
  cbv zeta in Hrun. fold R in Hrun.
  destruct WF as [Hmin Hmax [Hlw Hlog] Htarget Hcard].
  destruct (Z.log2_spec R ltac:(lia)) as [Hlo Hhi].
  rewrite Z.pow_succ_r in Hhi by apply Z.log2_nonneg.
  eexists. split; [exact Hrun |].
  unfold HeapRegion.max_region_size, HeapRegion.min_region_size_in_words.
  cbn [HeapRegion.GrainBytes HeapRegion.GrainWords]. rewrite Hmin, Hmax.
  split; [| split; [| split; [| split; [| split]]]].
  - eexists. split; [| reflexivity]. lia.
  - intros Hlt. f_equal.
    assert (Z.log2 R < log_min); [| lia].
    apply Z.log2_lt_pow2; lia.
  - intros [Hge Hlt].
    assert (log_min <= Z.log2 R) by (apply Z.log2_le_pow2; lia).
    assert (Z.log2 R < log_max) by (apply Z.log2_lt_pow2; lia).
    replace (Z.min log_max (Z.max log_min (Z.log2 R))) with (Z.log2 R) by lia.
    split; [reflexivity |]. split; [lia |].
    intros k Hk Hle. apply Z.pow_le_mono_r; [lia |].
    apply Z.log2_le_pow2; lia.
  - intros Hge. f_equal.
    assert (log_max <= Z.log2 R) by (apply Z.log2_le_pow2; lia).
    lia.
  - intros k Hk ->. f_equal. rewrite Z.log2_pow2 by lia. lia.
  - rewrite Z.shiftr_div_pow2 by lia.
    rewrite <- Z.pow_sub_r by lia.
    apply Z.pow_le_mono_r; lia.
Qed.

Lemma region_size_rounds_down_and_clamps_witness :
  (exists g',
     HeapRegion.setup_heap_region_size example_sizing (2 ^ 32) (2 ^ 33)
       (HeapRegion.initial_globals 0) = Normal g' /\
     HeapRegion.GrainBytes g' = 2097152 /\
     HeapRegion.GrainBytes g' <= 3145728 < 2 * HeapRegion.GrainBytes g') /\
  (exists g',
     HeapRegion.setup_heap_region_size example_flag_sizing (2 ^ 32) (2 ^ 33)
       (HeapRegion.initial_globals 1000) = Normal g' /\
     HeapRegion.GrainBytes g' = 1048576) /\
  (exists g',
     HeapRegion.setup_heap_region_size example_flag_sizing (2 ^ 32) (2 ^ 33)
       (HeapRegion.initial_globals 5000000) = Normal g' /\
     HeapRegion.GrainBytes g' = 4194304).
Proof.
  assert (Hwf : HeapRegion.wf_sizing example_flag_sizing 20 25)
    by (constructor; cbn -[Z.pow]; first [reflexivity | lia]).
  split; [| split].
  - destruct (region_size_rounds_down_and_clamps example_sizing 20 25
                (2 ^ 32) (2 ^ 33) (HeapRegion.initial_globals 0)
                example_sizing_wf ltac:(discriminate) eq_refl)
      as (g' & Hrun & _ & _ & Hmid & _).
    exists g'. split; [exact Hrun |].
    destruct Hmid as (Hpow & Hbounds & _).
    + vm_compute. split; [discriminate | reflexivity].
    + split; [rewrite Hpow; reflexivity | exact Hbounds].
  - destruct (region_size_rounds_down_and_clamps example_flag_sizing 20 25
                (2 ^ 32) (2 ^ 33) (HeapRegion.initial_globals 1000) Hwf)
      as (g' & Hrun & _ & Hlow & _).
    + intros _. cbn. lia.
    + reflexivity.
    + exists g'. split; [exact Hrun |]. apply Hlow. reflexivity.
  - destruct (region_size_rounds_down_and_clamps example_flag_sizing 20 25
                (2 ^ 32) (2 ^ 33) (HeapRegion.initial_globals 5000000) Hwf)
      as (g' & Hrun & _ & _ & Hmid & _).
    + intros _. cbn. lia.
    + reflexivity.
    + exists g'. split; [exact Hrun |].
      destruct Hmid as (Hpow & _).
      * vm_compute. split; [discriminate | reflexivity].
      * rewrite Hpow. reflexivity.
Defined.

(** X13.  The ergonomic region size grows with the heap.  Without the
    flag, and for heap sizes whose sum fits a [size_t], a larger sum of
    initial and maximum heap size never gives a smaller region. *)
Theorem ergonomic_region_size_monotone
    (cfg : RegionSizing) (log_min log_max : Z)
    (initial1 max1 initial2 max2 : Z) (g : HeapRegion.globals) :
  HeapRegion.wf_sizing cfg log_min log_max ->
  G1HeapRegionSize_is_default cfg = true ->
  HeapRegion.unset g = true ->
  0 <= initial1 + max1 <= initial2 + max2 ->
  initial2 + max2 < 2 ^ 64 ->
  exists g1 g2,
    HeapRegion.setup_heap_region_size cfg initial1 max1 g = Normal g1 /\
    HeapRegion.setup_heap_region_size cfg initial2 max2 g = Normal g2 /\
    HeapRegion.GrainBytes g1 <= HeapRegion.GrainBytes g2.
Proof.
  intros WF Hdefault Hunset Hle Hfit.
  assert (Hflag : G1HeapRegionSize_is_default cfg = false ->
                  1 <= HeapRegion.G1HeapRegionSize g < 2 ^ 64)
    by (rewrite Hdefault; discriminate).
  pose proof (setup_grain_exponent cfg log_min log_max initial1 max1 g
                WF Hflag Hunset) as Hrun1.
  pose proof (setup_grain_exponent cfg log_min log_max initial2 max2 g
                WF Hflag Hunset) as Hrun2.
  pose proof (requested_region_size_range cfg log_min log_max initial1 max1 g
                WF Hflag) as HR1.
  cbv zeta in Hrun1, Hrun2.
  eexists. eexists. split; [exact Hrun1 |]. split; [exact Hrun2 |].
  cbn [HeapRegion.GrainBytes].
  destruct WF as [Hmin Hmax [Hlw Hlog] Htarget Hcard].
  apply Z.pow_le_mono_r; [lia |].
  apply Z.min_le_compat_l, Z.max_le_compat_l, Z.log2_le_mono.
  unfold HeapRegion.requested_region_size. rewrite Hdefault. cbv zeta.
  rewrite !region_MAX2_max.
  apply Z.max_le_compat_r.
  rewrite !size_t_small by lia.
  apply Z.div_le_mono; [lia |]. apply Z.div_le_mono; lia.
Qed.

Lemma ergonomic_region_size_monotone_witness :
  exists g1 g2,
    HeapRegion.setup_heap_region_size example_sizing (2 ^ 30) (2 ^ 32)
      (HeapRegion.initial_globals 0) = Normal g1 /\
    HeapRegion.setup_heap_region_size example_sizing (2 ^ 32) (2 ^ 34)
      (HeapRegion.initial_globals 0) = Normal g2 /\
    HeapRegion.GrainBytes g1 <= HeapRegion.GrainBytes g2.
Proof.
  apply (ergonomic_region_size_monotone example_sizing 20 25
           (2 ^ 30) (2 ^ 32) (2 ^ 32) (2 ^ 34) (HeapRegion.initial_globals 0)
           example_sizing_wf eq_refl eq_refl).
  - vm_compute. split; discriminate.
  - reflexivity.
Defined.

(** ** A refinement thread leaves its loop inactive *)

Section RefineExit.
Import ConcurrentG1RefineThread.

Lemma is_active_set_flag i x c th :
  threads c !! i = Some th -> is_active i (set_flag i x c) = x.
Proof.
  intros Hi. unfold set_flag, is_active. rewrite Hi.
  destruct (is_primary th) eqn:Hp; cbn [negb threads dcqs].
  - rewrite Hi, Hp. reflexivity.
  - rewrite list_lookup_insert_eq by (eapply lookup_lt_Some; exact Hi).
    change (is_primary (set_active th x)) with (is_primary th).
    rewrite Hp. reflexivity.
Qed.

Lemma is_active_deactivate i c : is_active i (deactivate i c) = false.
Proof.
  destruct (threads c !! i) as [th |] eqn:Hi.
  - apply (is_active_set_flag i false c th Hi).
  - unfold deactivate, set_flag, is_active. rewrite Hi, Hi. reflexivity.
Qed.

Lemma service_loop_exit yz i o : should_terminate o = true ->
  forall obs c, is_active i (service_loop yz (obs ++ [o]) i c) = false.
Proof.
  intros Hterm. induction obs as [| o' rest IH]; intros c.
  - cbn [app service_loop]. rewrite Hterm. apply is_active_deactivate.
  - cbn [app service_loop].
    destruct (should_terminate o'); [apply is_active_deactivate |].
    destruct (should_yield o'); [apply IH |].
    destruct (service_pass yz i _) as [processed c1].
    destruct processed; [apply IH | apply is_active_deactivate].
Qed.

End RefineExit.

(** X14.  Activation, and how [run_service] ends.  [activate] makes
    [is_active] hold for a thread of the chain, the primary one through
    the flag of the queue and the others through their own; and when the
    thread leaves the inner loop of [run_service], by a termination
    request or because no buffer was processed, it is inactive, whatever
    happened before, also if it is its own successor. *)
Theorem run_service_ends_inactive (yellow_zone : Z) (i : nat)
    (c : ConcurrentG1RefineThread.chain) (th : ConcurrentG1RefineThread.t)
    (obs : list ConcurrentG1RefineThread.observation)
    (o : ConcurrentG1RefineThread.observation) :
  ConcurrentG1RefineThread.threads c !! i = Some th ->
  ConcurrentG1RefineThread.should_terminate o = true ->
  ConcurrentG1RefineThread.is_active i (ConcurrentG1RefineThread.activate i c) = true /\
  ConcurrentG1RefineThread.is_active i
    (ConcurrentG1RefineThread.service_loop yellow_zone (obs ++ [o]) i
       (ConcurrentG1RefineThread.activate i c)) = false.
Proof.
  intros Hi Hterm. split.
  - apply (is_active_set_flag i true c th Hi).
  - apply service_loop_exit. exact Hterm.
Qed.

Lemma run_service_ends_inactive_witness :
  let pass := {| ConcurrentG1RefineThread.should_terminate := false;
                 ConcurrentG1RefineThread.should_yield := false;
                 ConcurrentG1RefineThread.enqueued := 2 |} in
  let stop := {| ConcurrentG1RefineThread.should_terminate := true;
                 ConcurrentG1RefineThread.should_yield := false;
                 ConcurrentG1RefineThread.enqueued := 0 |} in
  ConcurrentG1RefineThread.is_active 1
    (ConcurrentG1RefineThread.activate 1 (example_chain 9)) = true /\
  ConcurrentG1RefineThread.is_active 1
    (ConcurrentG1RefineThread.service_loop 6 ([pass; pass] ++ [stop]) 1
       (ConcurrentG1RefineThread.activate 1 (example_chain 9))) = false.
Proof.
  intros pass stop.
  apply (run_service_ends_inactive 6 1 (example_chain 9)
           (example_thread 1 (Some 2%nat) 8 5) [pass; pass] stop);
    reflexivity.
Defined.

(** ** What passes [is_oop] can be compressed *)

Section IsOopFacts.
Context (U : Universe) (WF : oopDesc.wf_universe U).

Lemma is_oop_inv k m sp obj ign :
  oopDesc.is_oop U k m sp obj ign = true ->
  oopDesc.check_obj_alignment U obj = true /\
  oopDesc.is_in_reserved U obj = true /\
  oopDesc.is_in_reserved U k = false /\
  (ign = true \/ m <> NULL \/ sp = false).
Proof.
  unfold oopDesc.is_oop.
  destruct (oopDesc.check_obj_alignment U obj); [| discriminate].
  destruct (oopDesc.is_in_reserved U obj); [| discriminate].
  destruct (oopDesc.is_in_reserved U k); [discriminate |].
  cbn [negb]. intros H. split; [reflexivity |]. split; [reflexivity |].
  split; [reflexivity |].
  destruct ign; [left; reflexivity | right].
  destruct (Z.eqb_spec m NULL) as [-> | Hm]; cbn [negb] in H; [| left; exact Hm].
  destruct sp; [discriminate | right; reflexivity].
Qed.

Lemma in_heap_not_null a : oopDesc.is_in_reserved U a = true -> a <> NULL.
Proof.
  intros Hin. pose proof (in_reserved_bounds U a Hin).
  destruct WF as [Hbase _ _ _ _ _ _]. unfold NULL. lia.
Qed.

Lemma encode_in_heap_nonzero a q :
  oopDesc.is_in_reserved U a = true ->
  a = oopDesc.narrow_target U q -> 0 <= q -> q <> 0.
Proof.
  intros Hin Ha Hq ->. pose proof (in_reserved_bounds U a Hin).
  destruct WF as [Hbase _ _ _ _ _ _].
  unfold oopDesc.narrow_target in Ha. lia.
Qed.

End IsOopFacts.

(** X15.  An address that passes [is_oop], with or without the check of
    the mark word, is not null, passes [is_oop] with the mark word
    ignored and [is_oop_or_null], and has a klass word outside the
    reserved heap; and with the encoding globals well formed it is
    encoded without a failed assertion to a narrow value that is not
    zero and decodes back to it. *)
Theorem is_oop_can_be_compressed (U : Universe)
    (klass_or_null mark : Z) (is_at_safepoint ignore_mark_word : bool) (obj : Z) :
  oopDesc.wf_universe U ->
  oopDesc.is_oop U klass_or_null mark is_at_safepoint obj ignore_mark_word = true ->
  obj <> NULL /\
  oopDesc.is_oop U klass_or_null mark is_at_safepoint obj true = true /\
  oopDesc.is_oop_or_null U klass_or_null mark is_at_safepoint obj ignore_mark_word
    = true /\
  oopDesc.is_in_reserved U klass_or_null = false /\
  exists n,
    oopDesc.encode_heap_oop_not_null U obj = Normal n /\
    n <> 0 /\ 0 <= n < 2 ^ 32 /\
    oopDesc.decode_heap_oop_not_null U n = Normal obj.
Proof.
  intros WF Hoop.
  destruct (is_oop_inv U _ _ _ _ _ Hoop) as (Hal & Hin & Hk & _).
  pose proof (in_heap_not_null U WF obj Hin) as Hnn.
  split; [exact Hnn |].
  split; [unfold oopDesc.is_oop; rewrite Hal, Hin, Hk; reflexivity |].
  split.
  { unfold oopDesc.is_oop_or_null.
    destruct (Z.eqb_spec obj NULL); [reflexivity | exact Hoop]. }
  split; [exact Hk |].
  destruct (encode_in_heap U WF obj Hin Hal) as (q & Hq & Hr & Hv).
  pose proof (encode_in_heap_nonzero U WF obj q Hin Hv ltac:(lia)) as Hq0.
  pose proof (decode_quotient U WF obj q Hin Hal Hv ltac:(lia)) as Hd.
  exists q.
  unfold oopDesc.encode_heap_oop, oopDesc.is_null in Hq.
  destruct (Z.eqb_spec obj 0) as [? | _]; [contradiction |].
  unfold oopDesc.decode_heap_oop, oopDesc.is_null in Hd.
  destruct (Z.eqb_spec q 0) as [? | _]; [contradiction |].
  auto.
Qed.

Lemma is_oop_can_be_compressed_witness :
  exists n,
    oopDesc.encode_heap_oop_not_null example_universe (2 ^ 35 + 64) = Normal n /\
    oopDesc.decode_heap_oop_not_null example_universe n = Normal (2 ^ 35 + 64).
Proof.
  destruct (is_oop_can_be_compressed example_universe 4096 1 true false
              (2 ^ 35 + 64) example_universe_wf eq_refl)
    as (_ & _ & _ & _ & n & He & _ & _ & Hd).
  exists n. split; assumption.
Defined.

(** X16.  The list pointer kept in the klass word during a collection.
    With the encoding globals well formed, what [set_klass_to_list_ptr]
    stores for a valid oop is what [list_ptr_from_klass] gives back,
    with or without compressed class pointers, and no assertion fails;
    the stored word is zero exactly for the null pointer, and with
    compressed class pointers it fits the 32 bits of the field. *)
Theorem list_ptr_round_trip (U : Universe)
    (UseCompressedClassPointers : bool) (k : Z) :
  oopDesc.wf_universe U ->
  oopFields.valid_oop U k ->
  exists w,
    oopDesc.set_klass_to_list_ptr U UseCompressedClassPointers k = Normal w /\
    oopDesc.list_ptr_from_klass U UseCompressedClassPointers w = Normal k /\
    (w = 0 <-> k = NULL) /\
    (UseCompressedClassPointers = true -> 0 <= w < 2 ^ 32).
Proof.
  intros WF Hk.
  unfold oopDesc.set_klass_to_list_ptr, oopDesc.list_ptr_from_klass.
  destruct UseCompressedClassPointers.
  - destruct Hk as [-> | [Hin Hal]].
    + exists 0. repeat split; try reflexivity; lia.
    + destruct (encode_in_heap U WF k Hin Hal) as (q & Hq & Hr & Hv).
      pose proof (encode_in_heap_nonzero U WF k q Hin Hv ltac:(lia)) as Hq0.
      pose proof (in_heap_not_null U WF k Hin) as Hnn.
      assert (Hn : narrowOop q = q) by (unfold narrowOop; apply Z.mod_small; lia).
      rewrite Hq, bind_Normal. exists (narrowOop q). rewrite !Hn.
      split; [reflexivity |].
      split; [apply (decode_quotient U WF k q Hin Hal Hv); lia |].
      split; [split; intros; contradiction | intros _; exact Hr].
  - exists k. split; [reflexivity |]. split; [reflexivity |].
    split; [reflexivity | discriminate].
Qed.

Lemma list_ptr_round_trip_witness :
  exists w,
    oopDesc.set_klass_to_list_ptr example_universe true (2 ^ 35 + 64) = Normal w /\
    oopDesc.list_ptr_from_klass example_universe true w = Normal (2 ^ 35 + 64).
Proof.
  destruct (list_ptr_round_trip example_universe true (2 ^ 35 + 64)
              example_universe_wf (or_intror (conj eq_refl eq_refl)))
    as (w & Hs & Hl & _).
  exists w. split; assumption.
Defined.

(** ** The walk of the dirty-card closure over a region *)

Section WalkMemRegionFacts.
Import HeapRegion.

Lemma sorted_between_app a b c l1 l2 :
  sorted_between a b l1 -> sorted_between b c l2 -> b <= c -> a <= b ->
  sorted_between a c (l1 ++ l2).
Proof.
  intros [Hs1 Hb1] [Hs2 Hb2] Hbc Hab. split.
  - induction Hs1 as [| x l Hs IH Hx]; [exact Hs2 |].
    cbn [app]. constructor.
    + apply IH. inversion Hb1; assumption.
    + apply Forall_app. split; [exact Hx |].
      inversion Hb1 as [| ? ? Hxb _]; subst.
      eapply Forall_impl; [exact Hb2 |]. cbn. intros y Hy. lia.
  - apply Forall_app. split.
    + eapply Forall_impl; [exact Hb1 |]. cbn. intros y Hy. lia.
    + eapply Forall_impl; [exact Hb2 |]. cbn. intros y Hy. lia.
Qed.

Lemma sorted_between_nil a b : sorted_between a b [].
Proof. split; constructor. Qed.

Lemma sorted_between_one a b x : a <= x < b -> sorted_between a b [x].
Proof. intros H. split; repeat constructor; lia. Qed.

Context (g1h : heap) (r : t) (mr : MemRegion) (bottom top : Z)
        (blocks : Z -> Prop).
Hypothesis Hblocks : blocks_below g1h r top blocks.

Lemma walk_mem_region_loop_spec (fuel : nat) : forall cur,
  blocks cur -> bottom < cur < top ->
  top - cur < Z.of_nat fuel ->
  exists last its,
    walk_mem_region_loop fuel g1h r top cur (cur + block_size g1h r cur)
      = Normal (last, its) /\
    cur <= last < top /\ top <= last + block_size g1h r last /\
    Forall (region_application g1h r mr bottom top) its /\
    sorted_between cur last (map iterated_object its).
Proof.
  induction fuel as [| fuel IH]; intros cur Hcur Hrange Hfuel; [lia |].
  destruct (Hblocks cur Hcur) as [Hsz Hnext].
  cbn [walk_mem_region_loop].
  destruct (Z.ltb_spec (cur + block_size g1h r cur) top) as [Hin | Hout].
  - destruct (IH (cur + block_size g1h r cur) (Hnext Hin) ltac:(lia) ltac:(lia))
      as (last & rest & Hrun & Hlast & Hend & Hall & Hsorted).
    rewrite Hrun, bind_Normal. cbn [fst snd].
    exists last. eexists. split; [reflexivity |].
    split; [lia |]. split; [exact Hend |].
    destruct (is_obj_dead g1h cur r) eqn:Hdead; cbn [negb app].
    + split; [exact Hall |].
      destruct Hsorted as [Hs Hb]. split; [exact Hs |].
      eapply Forall_impl; [exact Hb |]. cbn. intros y Hy. lia.
    + split.
      * constructor; [| exact Hall].
        split; [exact Hdead |]. left. cbn [iterated_object].
        split; [reflexivity | lia].
      * change (map iterated_object (oop_iterate cur :: rest))
          with ([cur] ++ map iterated_object rest).
        apply (sorted_between_app cur (cur + block_size g1h r cur) last);
          [apply sorted_between_one; lia | exact Hsorted | lia | lia].
  - exists cur, []. split; [reflexivity |].
    split; [lia |]. split; [lia |]. split; [constructor |].
    apply sorted_between_nil.
Qed.

End WalkMemRegionFacts.

(** X17.  [HeapRegionDCTOC::walk_mem_region] over blocks that parse
    below [top].  With fuel for one step per word the walk ends.  The
    closure is applied to live objects only, in strictly increasing
    address order from [bottom] on and, the first object apart, below
    [top].  An application is unbounded only for an object after the
    first whose block ends below [top]; on the first object and on the
    last one, whose block reaches [top], it is bounded by the memory
    region. *)
Theorem walk_mem_region_filters_and_bounds
    (fuel : nat) (g1h : HeapRegion.heap) (r : HeapRegion.t)
    (mr : HeapRegion.MemRegion) (bottom top : Z) (blocks : Z -> Prop) :
  HeapRegion.blocks_below g1h r top blocks ->
  let first_size :=
    if HeapRegion.is_obj_dead g1h bottom r
    then HeapRegion.block_size g1h r bottom
    else HeapRegion.size g1h bottom in
  1 <= first_size ->
  (bottom + first_size < top -> blocks (bottom + first_size)) ->
  top - bottom < Z.of_nat fuel ->
  exists its,
    HeapRegion.walk_mem_region fuel g1h r mr bottom top = Normal its /\
    Forall (HeapRegion.region_application g1h r mr bottom top) its /\
    HeapRegion.sorted_between bottom (Z.max top (bottom + 1))
      (map HeapRegion.iterated_object its).
Proof.
  intros Hblocks first_size Hfirst Hnext Hfuel.
  unfold HeapRegion.walk_mem_region.
  set (first := if negb (HeapRegion.is_obj_dead g1h bottom r) then _ else _).
  assert (Hf1 : first.1 = first_size).
  { unfold first, first_size.
    destruct (HeapRegion.is_obj_dead g1h bottom r); reflexivity. }
  assert (Hf2 : Forall (HeapRegion.region_application g1h r mr bottom top) first.2 /\
                HeapRegion.sorted_between bottom (bottom + 1)
                  (map HeapRegion.iterated_object first.2)).
  { unfold first.
    destruct (HeapRegion.is_obj_dead g1h bottom r) eqn:Hdead; cbn [negb snd map].
    - split; [constructor | apply sorted_between_nil].
    - split; [| apply sorted_between_one; cbn; lia].
      constructor; [| constructor].
      split; [exact Hdead |]. right. split; [reflexivity | left; reflexivity]. }
  destruct Hf2 as [Hall0 Hsorted0].
  cbv zeta. rewrite Hf1.
  destruct (Z.ltb_spec (bottom + first_size) top) as [Hin | Hout].
  - destruct (walk_mem_region_loop_spec g1h r mr bottom top blocks Hblocks fuel
                (bottom + first_size) (Hnext Hin) ltac:(lia) ltac:(lia))
      as (last & its1 & Hrun & Hlast & Hend & Hall1 & Hsorted1).
    rewrite Hrun, bind_Normal. cbn [fst snd].
    eexists. split; [reflexivity |].
    set (its2 := if negb (HeapRegion.is_obj_dead g1h last r) then _ else _).
    assert (H2 : Forall (HeapRegion.region_application g1h r mr bottom top) its2 /\
                 HeapRegion.sorted_between last (last + 1)
                   (map HeapRegion.iterated_object its2)).
    { unfold its2.
      destruct (HeapRegion.is_obj_dead g1h last r) eqn:Hdead; cbn [negb map].
      - split; [constructor | apply sorted_between_nil].
      - split; [| apply sorted_between_one; cbn; lia].
        constructor; [| constructor].
        split; [exact Hdead |]. right. split; [reflexivity |].
        right. cbn [HeapRegion.iterated_object]. lia. }
    destruct H2 as [Hall2 Hsorted2].
    split; [repeat (apply Forall_app; split); assumption |].
    rewrite !map_app.
    apply (sorted_between_app bottom (bottom + 1)); [exact Hsorted0 | | lia | lia].
    destruct Hsorted1 as [Hs1 Hb1].
    apply (sorted_between_app (bottom + 1) last); [| | lia | lia].
    + split; [exact Hs1 |]. eapply Forall_impl; [exact Hb1 |]. cbn. intros y Hy. lia.
    + destruct Hsorted2 as [Hs2 Hb2]. split; [exact Hs2 |].
      eapply Forall_impl; [exact Hb2 |]. cbn. intros y Hy. lia.
  - eexists. split; [reflexivity |]. split; [exact Hall0 |].
    destruct Hsorted0 as [Hs Hb]. split; [exact Hs |].
    eapply Forall_impl; [exact Hb |]. cbn. intros y Hy. lia.
Qed.

Lemma walk_mem_region_filters_and_bounds_witness :
  exists its,
    HeapRegion.walk_mem_region 100 example_old_heap
      (example_region Old 4096 5120 None)
      {| HeapRegion.mr_start := 4104; HeapRegion.mr_end := 4168 |} 4096 4168
    = Normal its /\
    Forall (HeapRegion.region_application example_old_heap
              (example_region Old 4096 5120 None)
              {| HeapRegion.mr_start := 4104; HeapRegion.mr_end := 4168 |}
              4096 4168) its.
Proof.
  destruct (walk_mem_region_filters_and_bounds 100 example_old_heap
              (example_region Old 4096 5120 None)
              {| HeapRegion.mr_start := 4104; HeapRegion.mr_end := 4168 |}
              4096 4168 (fun a => a mod 16 = 0))
    as (its & Hrun & Hall & _).
  - intros a Ha. split; [cbn; lia |]. cbn. intros _.
    rewrite <- (Z.mul_1_l 16) at 1. rewrite Z.mod_add by lia. exact Ha.
  - cbn. lia.
  - intros _. reflexivity.
  - vm_compute. reflexivity.
  - exists its. split; assumption.
Defined.

Example walk_mem_region_example :
  HeapRegion.walk_mem_region 100 example_old_heap
    (example_region Old 4096 5120 None)
    {| HeapRegion.mr_start := 4104; HeapRegion.mr_end := 4168 |} 4096 4168
  = Normal [HeapRegion.oop_iterate_bounded 4096
              {| HeapRegion.mr_start := 4104; HeapRegion.mr_end := 4168 |};
            HeapRegion.oop_iterate 4128; HeapRegion.oop_iterate 4144;
            HeapRegion.oop_iterate_bounded 4160
              {| HeapRegion.mr_start := 4104; HeapRegion.mr_end := 4168 |}].
Proof. reflexivity. Qed.

(** ** The array of log outputs *)

Section LogOutputFacts.
Import LogConfiguration.

Lemma disable_outputs_from_spec (l : list LogOutput) : forall (i : nat) ev,
  (i <= length l)%nat ->
  disable_outputs_from i {| _outputs := take (Nat.max i 2) l; events := ev |}
  = Normal {| _outputs := take 2 l;
              events := ev ++ concat (reverse (imap disable_events (take i l))) |}.
Proof.
  induction i as [| i IH]; intros ev Hi.
  - cbn. rewrite app_nil_r. reflexivity.
  - destruct (lookup_lt_is_Some_2 l i ltac:(lia)) as [x Hx].
    rewrite (take_S_r l i x Hx), imap_app, reverse_app. cbn [imap reverse concat].
    rewrite length_take, Nat.min_l, Nat.add_0_r by lia.
    cbn [disable_outputs_from]. unfold disable_output. cbn [_outputs events].
    assert (Hlen : length (take (Nat.max (S i) 2) l) = Nat.min (Nat.max (S i) 2) (length l))
      by apply length_take.
    assert (Hlook : take (Nat.max (S i) 2) l !! i = Some x).
    { rewrite lookup_take_lt by lia. exact Hx. }
    destruct (Nat.ltb_spec i (length (take (Nat.max (S i) 2) l))) as [_ | Hge];
      [| lia].
    rewrite vmassert_true, bind_Normal, Hlook.
    unfold disable_events at 1.
    destruct (Nat.ltb_spec 1 i) as [H1 | H1].
    + unfold delete_output. cbn [_outputs events].
      replace (Nat.max (S i) 2) with (S i) in * by lia.
      rewrite Hlen, Nat.min_l by lia.
      rewrite (proj2 (Nat.ltb_lt 1 i) H1), (proj2 (Nat.ltb_lt i (S i))) by lia.
      cbn [andb]. rewrite vmassert_true, bind_Normal.
      replace (S i - 1)%nat with i by lia. rewrite Hlook.
      cbn [mret outcome_ret mbind outcome_bind].
      rewrite take_insert_ge by lia.
      rewrite take_take, Nat.min_l by lia.
      pose proof (IH (ev ++ [set_output_level_Off x] ++ [delete_output_object x])
                    ltac:(lia)) as IH'.
      replace (Nat.max i 2) with i in IH' by lia.
      rewrite <- app_assoc. rewrite IH'. rewrite reverse_singleton. cbn [app concat].
      rewrite <- !app_assoc. reflexivity.
    + cbn [mret outcome_ret mbind outcome_bind].
      replace (Nat.max (S i) 2) with (Nat.max i 2) by lia.
      rewrite IH by lia. rewrite reverse_singleton. cbn [app concat].
      rewrite <- !app_assoc. reflexivity.
Qed.

Lemma find_output_from_absent l : forall k nm,
  nm ∉ map name l -> find_output_from l k nm = SIZE_MAX.
Proof.
  induction l as [| o rest IH]; intros k nm Hnot; [reflexivity |].
  cbn [find_output_from]. cbn [map] in Hnot.
  apply not_elem_of_cons in Hnot as [Hne Hrest].
  destruct (String.eqb_spec (name o) nm) as [Heq | _]; [congruence |].
  apply IH. exact Hrest.
Qed.

Lemma find_output_from_present l : forall k nm,
  nm ∈ map name l ->
  exists j o,
    find_output_from l k nm = Z.of_nat (k + j) /\
    l !! j = Some o /\ name o = nm /\
    (forall j' o', (j' < j)%nat -> l !! j' = Some o' -> name o' <> nm).
Proof.
  induction l as [| o rest IH]; intros k nm Hin; [inversion Hin |].
  cbn [find_output_from].
  destruct (String.eqb_spec (name o) nm) as [Heq | Hne].
  - exists 0%nat, o. rewrite Nat.add_0_r.
    repeat split; [exact Heq | intros; lia].
  - cbn [map] in Hin. apply elem_of_cons in Hin as [Heq | Hin]; [congruence |].
    destruct (IH (S k) nm Hin) as (j & o' & Hf & Hl & Hn & Hfirst).
    exists (S j), o'. split; [rewrite Hf; f_equal; lia |].
    split; [exact Hl |]. split; [exact Hn |].
    intros [| j'] o'' Hlt Hl'.
    + cbn in Hl'. injection Hl' as <-. exact Hne.
    + apply (Hfirst j' o''); [lia | exact Hl'].
Qed.

Lemma name_in_dec (nm : string) (l : list LogOutput) :
  nm ∈ map name l \/ nm ∉ map name l.
Proof.
  destruct (in_dec string_dec nm (map name l)) as [H | H].
  - left. apply list_elem_of_In. exact H.
  - right. intros H'. apply H. apply list_elem_of_In. exact H'.
Qed.

Lemma find_output_absent_iff s nm :
  Z.of_nat (length (_outputs s)) <= SIZE_MAX ->
  find_output s nm = SIZE_MAX <-> nm ∉ map name (_outputs s).
Proof.
  intros Hlen. unfold find_output. split.
  - intros Hf Hin.
    destruct (find_output_from_present (_outputs s) 0 nm Hin)
      as (j & o & Hj & Hl & _).
    apply lookup_lt_Some in Hl. rewrite Hf in Hj. lia.
  - apply find_output_from_absent.
Qed.

(** The outputs left by the swap of [delete_output]. *)
Lemma delete_swap_elements (l : list LogOutput) (idx : nat) (last : LogOutput) :
  (idx < length l)%nat -> l !! (length l - 1)%nat = Some last ->
  forall x, x ∈ take (length l - 1) (<[idx := last]> l)
    <-> exists j, j <> idx /\ l !! j = Some x.
Proof.
  intros Hidx Hlast x. rewrite list_elem_of_lookup. split.
  - intros [j Hj].
    apply lookup_take_Some in Hj as [Hj Hlt].
    destruct (decide (j = idx)) as [-> | Hne].
    + rewrite list_lookup_insert_eq in Hj by lia. injection Hj as <-.
      exists (length l - 1)%nat. split; [lia | exact Hlast].
    + rewrite list_lookup_insert_ne in Hj by congruence.
      exists j. split; assumption.
  - intros (j & Hne & Hj).
    pose proof (lookup_lt_Some _ _ _ Hj) as Hlt.
    destruct (decide (j = length l - 1)%nat) as [-> | Hnl].
    + exists idx. apply lookup_take_Some. split; [| lia].
      rewrite list_lookup_insert_eq by lia. congruence.
    + exists j. apply lookup_take_Some. split; [| lia].
      rewrite list_lookup_insert_ne by congruence. exact Hj.
Qed.

End LogOutputFacts.

(** X18.  [disable_logging] on any array of outputs returns; no index
    is out of range and no assertion fails.  The array is cut down to
    its first two outputs, stdout and stderr.  Going from the last
    output to the first, every output is switched off on the tag sets
    once; then the outputs from index 2 on are deleted, so each of them
    exactly once, and stdout and stderr have their description set to
    all=off. *)
Theorem disable_logging_deletes_each_once (s : LogConfiguration.t) :
  LogConfiguration.disable_logging s
  = Normal {| LogConfiguration._outputs := take 2 (LogConfiguration._outputs s);
              LogConfiguration.events :=
                LogConfiguration.events s ++
                concat (reverse (imap LogConfiguration.disable_events
                                   (LogConfiguration._outputs s))) |}.
Proof.
  destruct s as [l ev]. unfold LogConfiguration.disable_logging.
  cbn [LogConfiguration._outputs LogConfiguration.events].
  pose proof (disable_outputs_from_spec l (length l) ev ltac:(lia)) as H.
  rewrite firstn_all in H.
  rewrite take_ge in H by lia. exact H.
Qed.

(** X19.  Looking outputs up by name.  In an array whose outputs have
    different names, [find_output] gives [SIZE_MAX] exactly for a name
    that no output has; an output added under a new name is found at
    the index [add_output] returned; and after [delete_output] the name
    of the deleted output is no longer found, every other name is found
    exactly if it was before, and stdout and stderr are still at the
    indices 0 and 1. *)
Theorem find_add_delete_output (s : LogConfiguration.t) :
  NoDup (map LogConfiguration.name (LogConfiguration._outputs s)) ->
  Z.of_nat (length (LogConfiguration._outputs s)) < LogConfiguration.SIZE_MAX ->
  (forall nm,
     LogConfiguration.find_output s nm = LogConfiguration.SIZE_MAX
     <-> nm ∉ map LogConfiguration.name (LogConfiguration._outputs s)) /\
  (forall out,
     LogConfiguration.name out
       ∉ map LogConfiguration.name (LogConfiguration._outputs s) ->
     LogConfiguration.find_output (LogConfiguration.add_output s out).2
       (LogConfiguration.name out)
     = Z.of_nat (LogConfiguration.add_output s out).1) /\
  (forall idx s',
     LogConfiguration.delete_output idx s = Normal s' ->
     exists out,
       LogConfiguration._outputs s !! idx = Some out /\
       LogConfiguration.find_output s' (LogConfiguration.name out)
         = LogConfiguration.SIZE_MAX /\
       (forall nm, nm <> LogConfiguration.name out ->
          (LogConfiguration.find_output s' nm = LogConfiguration.SIZE_MAX
           <-> LogConfiguration.find_output s nm = LogConfiguration.SIZE_MAX)) /\
       LogConfiguration._outputs s' !! 0%nat = LogConfiguration._outputs s !! 0%nat /\
       LogConfiguration._outputs s' !! 1%nat = LogConfiguration._outputs s !! 1%nat).
Proof.
  intros Hnodup Hlen. split; [| split].
  - intros nm. apply find_output_absent_iff. lia.
  - intros out Hnew. unfold LogConfiguration.add_output, LogConfiguration.find_output.
    cbn [fst snd LogConfiguration._outputs].
    destruct (find_output_from_present (LogConfiguration._outputs s ++ [out]) 0
                (LogConfiguration.name out)) as (j & o & Hf & Hl & Hn & Hfirst).
    { rewrite map_app. apply elem_of_app. right. cbn. apply elem_of_cons. left. reflexivity. }
    rewrite Hf. f_equal. cbn [Nat.add].
    destruct (Nat.lt_trichotomy j (length (LogConfiguration._outputs s)))
      as [Hlt | [Heq | Hgt]]; [| exact Heq |].
    + exfalso. apply Hnew. rewrite lookup_app_l in Hl by exact Hlt.
      rewrite <- Hn. apply list_elem_of_fmap. exists o.
      split; [reflexivity | eapply list_elem_of_lookup_2; exact Hl].
    + exfalso. apply lookup_lt_Some in Hl. rewrite length_app in Hl. cbn in Hl. lia.
  - intros idx s'. unfold LogConfiguration.delete_output.
    destruct (Nat.ltb_spec 1 idx) as [H1 | ?]; [| discriminate].
    destruct (Nat.ltb_spec idx (length (LogConfiguration._outputs s))) as [Hidx | ?];
      [| discriminate].
    cbn [andb]. rewrite vmassert_true, bind_Normal.
    destruct (LogConfiguration._outputs s !! idx) as [out |] eqn:Hout; [| discriminate].
    destruct (LogConfiguration._outputs s !! (length (LogConfiguration._outputs s) - 1)%nat)
      as [last |] eqn:Hlast; [| discriminate].
    intros [= <-]. exists out. split; [reflexivity |].
    pose proof (delete_swap_elements (LogConfiguration._outputs s) idx last Hidx Hlast)
      as Hel.
    set (l' := take _ _) in *.
    assert (Hnames : forall nm, nm ∈ map LogConfiguration.name l'
                      <-> nm ∈ map LogConfiguration.name (LogConfiguration._outputs s)
                          /\ nm <> LogConfiguration.name out).
    { intros nm. rewrite !list_elem_of_fmap. split.
      - intros (x & -> & Hx). apply Hel in Hx as (j & Hne & Hj).
        split; [exists x; split; [reflexivity | eapply list_elem_of_lookup_2; exact Hj] |].
        intros Heq. apply Hne.
        apply (NoDup_lookup _ j idx (LogConfiguration.name x) Hnodup).
        + rewrite list_lookup_fmap, Hj. reflexivity.
        + rewrite list_lookup_fmap, Hout. cbn. f_equal. symmetry. exact Heq.
      - intros [(x & -> & Hx) Hne].
        apply list_elem_of_lookup in Hx as [j Hj].
        exists x. split; [reflexivity |]. apply Hel. exists j.
        split; [| exact Hj]. intros ->. rewrite Hout in Hj. congruence. }
    assert (Hlen' : Z.of_nat (length l') <= LogConfiguration.SIZE_MAX).
    { unfold l'. rewrite length_take. lia. }
    split; [| split; [| split]].
    + apply (find_output_absent_iff {| LogConfiguration._outputs := l' |}); [exact Hlen' |].
      cbn. rewrite Hnames. tauto.
    + intros nm Hne.
      rewrite (find_output_absent_iff {| LogConfiguration._outputs := l' |})
        by exact Hlen'.
      rewrite find_output_absent_iff by lia. cbn. rewrite Hnames. tauto.
    + cbn. unfold l'. rewrite lookup_take_lt by lia.
      apply list_lookup_insert_ne. lia.
    + cbn. unfold l'. rewrite lookup_take_lt by lia.
      apply list_lookup_insert_ne. lia.
Qed.

Lemma find_add_delete_output_witness :
  exists s',
    LogConfiguration.delete_output 2 example_outputs = Normal s' /\
    LogConfiguration.find_output s' "file=gc.log" = LogConfiguration.SIZE_MAX /\
    LogConfiguration.find_output s' "file=safepoint.log" <> LogConfiguration.SIZE_MAX.
Proof.
  eexists. split; [reflexivity |].
  destruct (find_add_delete_output example_outputs) as (_ & _ & Hdel).
  - cbn. repeat constructor; rewrite ?elem_of_cons, ?elem_of_nil;
      intros H; repeat (destruct H as [H | H]; try discriminate H); exact H.
  - reflexivity.
  - destruct (Hdel 2%nat _ eq_refl) as (out & Hout & Hgone & Hkeep & _).
    injection Hout as <-. split; [exact Hgone |].
    intros H. apply (Hkeep "file=safepoint.log"%string) in H; discriminate.
Defined.

(** ** Read edges between modules *)

Section ModuleReadFacts.
Import ModuleEntry.

Lemma contains_elem_of l m : contains l m = true <-> m ∈ l.
Proof.
  unfold contains. rewrite existsb_exists. split.
  - intros (x & Hin & Heq). apply Nat.eqb_eq in Heq. subst x.
    apply list_elem_of_In. exact Hin.
  - intros Hin. exists m. split; [apply list_elem_of_In; exact Hin |].
    apply Nat.eqb_refl.
Qed.

Lemma append_if_missing_elem_of l m x :
  x ∈ append_if_missing l m <-> x ∈ l \/ x = m.
Proof.
  unfold append_if_missing. destruct (contains l m) eqn:Hc.
  - apply contains_elem_of in Hc. split; [auto |]. intros [H | ->]; assumption.
  - rewrite elem_of_app, list_elem_of_singleton. tauto.
Qed.

Lemma append_if_missing_NoDup l m : NoDup l -> NoDup (append_if_missing l m).
Proof.
  intros Hl. unfold append_if_missing. destruct (contains l m) eqn:Hc; [exact Hl |].
  apply NoDup_app. split; [exact Hl |]. split; [| apply NoDup_singleton].
  intros x Hx Hm. apply list_elem_of_singleton in Hm. subst x.
  apply contains_elem_of in Hx. congruence.
Qed.

Lemma set_read_walk_required_reads w this c :
  _reads (set_read_walk_required w this c) = _reads this /\
  _is_named (set_read_walk_required w this c) = _is_named this /\
  _has_default_read_edges (set_read_walk_required w this c)
    = _has_default_read_edges this /\
  _loader_data (set_read_walk_required w this c) = _loader_data this.
Proof.
  unfold set_read_walk_required. destruct (_ && _ && _); repeat split.
Qed.

(** The reads list after [add_read] of a module. *)
Lemma add_read_reads w this m :
  _reads (add_read w this (Some m))
  = Some (append_if_missing (default [] (_reads this)) m) /\
  _is_named (add_read w this (Some m)) = _is_named this /\
  _has_default_read_edges (add_read w this (Some m)) = _has_default_read_edges this.
Proof.
  unfold add_read.
  destruct (_reads this) as [l |] eqn:Hr.
  - destruct (set_read_walk_required_reads w this (loader_data_of w m))
      as (H1 & H2 & H3 & _).
    rewrite H1, Hr. cbn. auto.
  - destruct (set_read_walk_required_reads w (with_reads this (Some []))
                (loader_data_of w m)) as (H1 & H2 & H3 & _).
    rewrite H1. cbn. auto.
Qed.

Lemma has_reads_elem this l x : _reads this = Some l -> x ∈ l -> has_reads this = true.
Proof.
  intros Hr Hx. unfold has_reads. rewrite Hr.
  destruct l; [inversion Hx |]. reflexivity.
Qed.

(** [can_read] of a module that is not null never fails. *)
Lemma can_read_readable w this m :
  can_read w this (Some m) = Normal (readable w this m).
Proof.
  unfold can_read, readable, has_reads.
  destruct (_is_named this); [| reflexivity]. cbn [negb orb].
  destruct (bool_decide (javabase_moduleEntry w = Some m)); [reflexivity |].
  cbn [orb].
  destruct (_has_default_read_edges this && negb (is_named_of w m)
            && (is_the_null_class_loader_data w (loader_data_of w m)
                || is_system_class_loader_data w (loader_data_of w m)));
    [reflexivity |].
  cbn [orb]. destruct (_reads this) as [[| a l] |]; reflexivity.
Qed.

Lemma readable_iff w this m :
  readable w this m = true <->
  _is_named this = false \/ javabase_moduleEntry w = Some m \/
  (_has_default_read_edges this = true /\ is_named_of w m = false /\
   (is_the_null_class_loader_data w (loader_data_of w m) = true \/
    is_system_class_loader_data w (loader_data_of w m) = true)) \/
  (exists l, _reads this = Some l /\ m ∈ l).
Proof.
  unfold readable.
  rewrite !orb_true_iff, !andb_true_iff, !negb_true_iff, orb_true_iff,
    bool_decide_eq_true.
  split.
  - intros [[[H | H] | H] | H]; auto.
    + right. right. left. tauto.
    + right. right. right. destruct (_reads this) as [l |]; [| discriminate].
      exists l. split; [reflexivity | apply contains_elem_of; exact H].
  - intros [H | [H | [H | (l & Hl & Hin)]]]; auto.
    + left. right. tauto.
    + right. rewrite Hl. apply contains_elem_of. exact Hin.
Qed.

Lemma can_read_true_iff w this m :
  can_read w this (Some m) = Normal true <->
  _is_named this = false \/ javabase_moduleEntry w = Some m \/
  (_has_default_read_edges this = true /\ is_named_of w m = false /\
   (is_the_null_class_loader_data w (loader_data_of w m) = true \/
    is_system_class_loader_data w (loader_data_of w m) = true)) \/
  (exists l, _reads this = Some l /\ m ∈ l).
Proof.
  rewrite can_read_readable, <- readable_iff.
  split; [intros [= H]; exact H | intros ->; reflexivity].
Qed.

End ModuleReadFacts.

(** X20.  Read edges.  [can_read] of the null module fails its
    assertion.  After [add_read] of a module [m] the module can read
    [m]; whatever it could read before it still can, after [add_read]
    of any module or of the null module; the only module that becomes
    readable by [add_read] of [m] is [m]; and a reads list without
    duplicates stays so. *)
Theorem add_read_establishes_readability
    (w : ModuleEntry.world) (this : ModuleEntry.t) (m : nat) :
  ModuleEntry.can_read w this None
    = Abort "No module to lookup in this module's reads list" /\
  ModuleEntry.can_read w (ModuleEntry.add_read w this (Some m)) (Some m)
    = Normal true /\
  (forall x m',
     ModuleEntry.can_read w this (Some m') = Normal true ->
     ModuleEntry.can_read w (ModuleEntry.add_read w this x) (Some m') = Normal true) /\
  (forall m',
     ModuleEntry.can_read w (ModuleEntry.add_read w this (Some m)) (Some m')
       = Normal true ->
     m' = m \/ ModuleEntry.can_read w this (Some m') = Normal true) /\
  (forall l l',
     ModuleEntry._reads this = Some l ->
     ModuleEntry._reads (ModuleEntry.add_read w this (Some m)) = Some l' ->
     NoDup l -> NoDup l').
Proof.
  destruct (add_read_reads w this m) as (Hr & Hn & Hd).
  split; [reflexivity |]. split; [| split; [| split]].
  - apply can_read_true_iff. right. right. right.
    eexists. split; [exact Hr |]. apply append_if_missing_elem_of. right. reflexivity.
  - intros [x |] m' H.
    + destruct (add_read_reads w this x) as (Hrx & Hnx & Hdx).
      apply can_read_true_iff in H. apply can_read_true_iff.
      rewrite Hnx, Hdx.
      destruct H as [H | [H | [H | (l & Hl & Hin)]]]; auto.
      right. right. right. eexists. split; [exact Hrx |].
      apply append_if_missing_elem_of. left. rewrite Hl. exact Hin.
    + apply can_read_true_iff in H. apply can_read_true_iff. exact H.
  - intros m' H. apply can_read_true_iff in H. rewrite Hn, Hd in H.
    destruct H as [H | [H | [H | (l & Hl & Hin)]]];
      try (right; apply can_read_true_iff; auto; fail).
    rewrite Hr in Hl. injection Hl as <-.
    apply append_if_missing_elem_of in Hin as [Hin | ->]; [| left; reflexivity].
    right. apply can_read_true_iff. right. right. right.
    destruct (ModuleEntry._reads this) as [l |]; [| inversion Hin].
    exists l. split; [reflexivity | exact Hin].
  - intros l l' Hl Hl' Hnd. rewrite Hr, Hl in Hl'. injection Hl' as <-.
    apply append_if_missing_NoDup. exact Hnd.
Qed.

(** ** Purging the reads list *)

Section PurgeReadsFacts.
Import ModuleEntry.

Lemma delete_at_app (a : list nat) (x : nat) (sv : list nat) :
  exists sv', delete_at (a ++ x :: sv) (length a) = a ++ sv' /\ sv' ≡ₚ sv.
Proof.
  unfold delete_at.
  destruct sv as [| y sv0 _] using rev_ind.
  - exists []. split; [| reflexivity].
    rewrite length_app. cbn [length].
    replace (length a + 1 - 1)%nat with (length a) by lia.
    rewrite Nat.ltb_irrefl, app_nil_r. apply take_app_length.
  - exists (y :: sv0). split; [| apply Permutation_cons_append].
    assert (Hlen : (length (a ++ x :: sv0 ++ [y]) - 1)%nat = length (a ++ x :: sv0)).
    { rewrite !length_app. cbn [length]. rewrite length_app. cbn [length]. lia. }
    rewrite Hlen.
    assert (Hlt : (length a <? length (a ++ x :: sv0))%nat = true).
    { apply Nat.ltb_lt. rewrite length_app. cbn [length]. lia. }
    rewrite Hlt.
    assert (Hlast : (a ++ x :: sv0 ++ [y]) !! length (a ++ x :: sv0) = Some y).
    { change (a ++ x :: sv0 ++ [y]) with (a ++ (x :: sv0) ++ [y]).
      rewrite app_assoc. rewrite lookup_app_r by lia.
      rewrite Nat.sub_diag. reflexivity. }
    rewrite Hlast.
    rewrite insert_app_r_alt by lia. rewrite Nat.sub_diag. cbn [insert list_insert].
    replace (length (a ++ x :: sv0)) with (length (a ++ y :: sv0))
      by (rewrite !length_app; reflexivity).
    change (a ++ y :: sv0 ++ [y]) with (a ++ (y :: sv0) ++ [y]).
    rewrite app_assoc. apply take_app_length.
Qed.

Lemma set_read_walk_required_normal w this r b c :
  set_read_walk_required w (with_must_walk_reads (with_reads this r) b) c
  = with_must_walk_reads (with_reads this r)
      (b || (negb (Nat.eqb (_loader_data this) c)
             && negb (is_builtin_class_loader_data w c))).
Proof.
  unfold set_read_walk_required. cbn [_must_walk_reads _loader_data
    with_must_walk_reads with_reads].
  destruct b, (Nat.eqb (_loader_data this) c),
    (is_builtin_class_loader_data w c); reflexivity.
Qed.

Lemma purge_reads_loop_spec w this0 l0 : forall n sv b,
  (n <= length l0)%nat ->
  sv ≡ₚ List.filter (live w) (drop n l0) ->
  b = existsb (needs_walk w this0) (List.filter (live w) (drop n l0)) ->
  exists l',
    purge_reads_loop w n
      (with_must_walk_reads (with_reads this0 (Some (take n l0 ++ sv))) b)
    = Normal (with_must_walk_reads (with_reads this0 (Some l'))
                (existsb (needs_walk w this0) (List.filter (live w) l0))) /\
    l' ≡ₚ List.filter (live w) l0.
Proof.
  induction n as [| idx IH]; intros sv b Hn Hsv Hb.
  - rewrite drop_0 in Hsv, Hb. exists sv. subst b. split; [reflexivity | exact Hsv].
  - destruct (lookup_lt_is_Some_2 l0 idx ltac:(lia)) as [x Hx].
    assert (Hdrop : drop idx l0 = x :: drop ((S idx)) l0)
      by (apply drop_S; exact Hx).
    assert (Hlen : length (take idx l0) = idx) by (rewrite length_take; lia).
    cbn [purge_reads_loop _reads with_must_walk_reads with_reads].
    rewrite (take_S_r l0 idx x Hx), <- app_assoc. cbn [app].
    assert (Hlook : (take idx l0 ++ x :: sv) !! idx = Some x).
    { rewrite lookup_app_r by lia. rewrite Hlen, Nat.sub_diag. reflexivity. }
    rewrite Hlook.
    destruct (is_unloading w (loader_data_of w x)) eqn:Hun.
    + destruct (delete_at_app (take idx l0) x sv) as (sv' & Hdel & Hsv').
      rewrite Hlen in Hdel. rewrite Hdel.
      assert (Hf : List.filter (live w) (drop idx l0)
                   = List.filter (live w) (drop ((S idx)) l0)).
      { rewrite Hdrop. cbn [List.filter]. unfold live at 1. rewrite Hun. reflexivity. }
      apply (IH sv' b); [lia | rewrite Hsv', Hsv, Hf; reflexivity | rewrite Hf; exact Hb].
    + rewrite set_read_walk_required_normal.
      assert (Hf : List.filter (live w) (drop idx l0)
                   = x :: List.filter (live w) (drop ((S idx)) l0)).
      { rewrite Hdrop. cbn [List.filter]. unfold live at 1. rewrite Hun. reflexivity. }
      apply (IH (x :: sv)); [lia | rewrite Hf, Hsv; reflexivity |].
      rewrite Hf. cbn [existsb]. rewrite Hb. unfold needs_walk at 2.
      apply orb_comm.
Qed.

End PurgeReadsFacts.

(** X21.  [purge_reads] at a safepoint.  Outside a safepoint the call
    fails its assertion.  An entry whose reads list need not be walked
    is left as it is, dead modules included.  Otherwise no index is out
    of range, the reads list is left with exactly the modules whose
    loader is not being unloaded, each as often as before, and nothing
    else of the entry changes but the walk flag, which for a list that
    was not empty says whether a remaining module has a loader that is
    neither the entry's own nor a builtin one.  What the entry can read
    among the live modules is as before. *)
Theorem purge_reads_keeps_live
    (w : ModuleEntry.world) (this : ModuleEntry.t) (l : list nat) :
  ModuleEntry._reads this = Some l ->
  ModuleEntry.purge_reads w false this = Abort "must be at safepoint" /\
  exists this' l',
    ModuleEntry.purge_reads w true this = Normal this' /\
    ModuleEntry._reads this' = Some l' /\
    (ModuleEntry._must_walk_reads this = false -> this' = this) /\
    (ModuleEntry._must_walk_reads this = true ->
     l' ≡ₚ List.filter (ModuleEntry.live w) l /\
     (l <> [] ->
      ModuleEntry._must_walk_reads this'
      = existsb (ModuleEntry.needs_walk w this)
          (List.filter (ModuleEntry.live w) l)) /\
     this' = ModuleEntry.with_must_walk_reads
               (ModuleEntry.with_reads this (Some l'))
               (ModuleEntry._must_walk_reads this') /\
     forall m, ModuleEntry.live w m = true ->
       ModuleEntry.can_read w this' (Some m) = ModuleEntry.can_read w this (Some m)).
Proof.
  intros Hr. split; [reflexivity |].
  unfold ModuleEntry.purge_reads. rewrite vmassert_true, bind_Normal.
  destruct this as [nm ld rd mw cu de]. cbn in Hr. subst rd.
  destruct mw; cbn [ModuleEntry._must_walk_reads andb].
  2: { exists (ModuleEntry.Build_t nm ld (Some l) false cu de), l.
       split; [reflexivity |]. split; [reflexivity |].
       split; [reflexivity | discriminate]. }
  destruct l as [| a l].
  { eexists. exists []. split; [reflexivity |]. split; [reflexivity |].
    split; [discriminate |]. intros _.
    split; [reflexivity |]. split; [congruence |]. split; reflexivity. }
  set (l0 := a :: l).
  set (this0 := ModuleEntry.Build_t nm ld (Some l0) true cu de).
  change (ModuleEntry.has_reads this0) with true. cbv iota.
  cbn [ModuleEntry._reads ModuleEntry.with_must_walk_reads].
  destruct (purge_reads_loop_spec w this0 l0 (length l0) [] false ltac:(lia))
    as (l' & Hrun & Hperm).
  { rewrite drop_all. reflexivity. }
  { rewrite drop_all. reflexivity. }
  rewrite firstn_all, app_nil_r in Hrun.
  eexists. exists l'. split; [exact Hrun |]. split; [reflexivity |].
  split; [discriminate |]. intros _.
  split; [exact Hperm |]. split; [reflexivity |]. split; [reflexivity |].
  intros m Hlive. rewrite !can_read_readable. f_equal.
  unfold ModuleEntry.readable.
  cbn [ModuleEntry._is_named ModuleEntry._has_default_read_edges ModuleEntry._reads
       ModuleEntry.with_must_walk_reads ModuleEntry.with_reads this0].
  f_equal.
  apply eq_true_iff_eq. rewrite !contains_elem_of, Hperm.
  rewrite (list_elem_of_In (List.filter _ _) m), filter_In, <- list_elem_of_In.
  tauto.
Qed.

Lemma purge_reads_keeps_live_witness :
  exists this' l',
    ModuleEntry.purge_reads example_world true
      (example_module (Some [1; 3; 2; 4; 5; 0]%nat) true) = Normal this' /\
    ModuleEntry._reads this' = Some l' /\
    l' ≡ₚ [1; 2; 0]%nat /\
    ModuleEntry._must_walk_reads this' = false.
Proof.
  destruct (purge_reads_keeps_live example_world
              (example_module (Some [1; 3; 2; 4; 5; 0]%nat) true)
              [1; 3; 2; 4; 5; 0]%nat eq_refl)
    as (_ & this' & l' & Hrun & Hl' & _ & Hwalk).
  destruct (Hwalk eq_refl) as (Hperm & Hflag & _).
  exists this', l'. split; [exact Hrun |]. split; [exact Hl' |].
  split; [exact Hperm |]. apply Hflag. discriminate.
Defined.

Lemma add_read_establishes_readability_witness :
  ModuleEntry.can_read example_world (example_module None false) (Some 3%nat)
    = Normal false /\
  ModuleEntry.can_read example_world
    (ModuleEntry.add_read example_world (example_module None false) (Some 3%nat))
    (Some 3%nat) = Normal true.
Proof.
  split; [reflexivity |].
  destruct (add_read_establishes_readability example_world
              (example_module None false) 3) as (_ & H & _).
  exact H.
Defined.

(** ** The system dictionary *)

Section DictionaryFacts.
Import Dictionary.

Lemma in_pd_set_elem_of pds pd : in_pd_set pds pd = true <-> pd ∈ pds.
Proof.
  unfold in_pd_set. rewrite existsb_exists. split.
  - intros (x & Hin & Heq). apply Z.eqb_eq in Heq. subst x.
    apply list_elem_of_In. exact Hin.
  - intros Hin. exists pd. split; [apply list_elem_of_In; exact Hin |].
    apply Z.eqb_refl.
Qed.

(** Under the invariant the debug block never fires. *)
Lemma contains_protection_domain_ok w e pd :
  pd_set_ok w e ->
  contains_protection_domain w e pd
  = Normal ((pd =? klass_protection_domain w (_klass e)) || in_pd_set (_pd_set e) pd).
Proof.
  intros Hok. unfold contains_protection_domain.
  destruct (Z.eqb_spec pd (klass_protection_domain w (_klass e))) as [-> | Hne].
  - rewrite Hok. reflexivity.
  - reflexivity.
Qed.

Lemma get_entry_from_lookup w chain : forall pos hash name loader p e,
  get_entry_from w chain pos hash name loader = Some (p, e) ->
  (pos <= p)%nat /\ chain !! (p - pos)%nat = Some e /\
  _hash e = hash /\ equals w e name loader = true.
Proof.
  induction chain as [| x rest IH]; intros pos hash name loader p e; [discriminate |].
  cbn [get_entry_from].
  destruct ((_hash x =? hash) && equals w x name loader) eqn:Hx.
  - intros [= <- <-]. apply andb_prop in Hx as [Hh He]. apply Z.eqb_eq in Hh.
    rewrite Nat.sub_diag. auto.
  - intros H. apply IH in H as (Hle & Hl & Hh & He).
    split; [lia |]. split; [| auto].
    replace (p - pos)%nat with (S (p - S pos)) by lia. exact Hl.
Qed.

(** Replacing the entry found by one with the same key leaves it
    found. *)
Lemma get_entry_from_insert w chain e' : forall pos hash name loader p e,
  get_entry_from w chain pos hash name loader = Some (p, e) ->
  _hash e' = _hash e -> _klass e' = _klass e -> _loader_data e' = _loader_data e ->
  get_entry_from w (<[(p - pos)%nat := e']> chain) pos hash name loader = Some (p, e').
Proof.
  induction chain as [| x rest IH]; intros pos hash name loader p e; [discriminate |].
  cbn [get_entry_from].
  destruct ((_hash x =? hash) && equals w x name loader) eqn:Hx.
  - intros [= <- <-] Hh Hk Hl. rewrite Nat.sub_diag. cbn [insert list_insert get_entry_from].
    unfold equals in *. rewrite Hh, Hk, Hl, Hx. reflexivity.
  - intros H Hh Hk Hl.
    pose proof (get_entry_from_lookup w rest _ _ _ _ _ _ H) as (Hle & _).
    replace (p - pos)%nat with (S (p - S pos)) by lia.
    cbn [insert list_insert get_entry_from]. rewrite Hx.
    apply (IH _ _ _ _ _ e); assumption.
Qed.

Lemma purge_entry_kept w probe :
  (is_strongly_reachable w (_loader_data probe) (_klass probe) = false ->
   is_the_null_class_loader_data w (_loader_data probe) = false) ->
  purge_entry w probe = Normal (negb (kept w probe)).
Proof.
  intros Hnull. unfold purge_entry, kept.
  destruct (is_strongly_reachable w (_loader_data probe) (_klass probe));
    [reflexivity |].
  rewrite (Hnull eq_refl). cbn [negb orb]. rewrite vmassert_true, bind_Normal.
  destruct (is_unloading w (_loader_data probe)) eqn:Hl; [reflexivity |].
  destruct (is_unloading w (class_loader_data w (_klass probe))) eqn:Hk;
    [| reflexivity].
  destruct (Z.eqb_spec (class_loader_data w (_klass probe)) (_loader_data probe))
    as [Heq | _]; [congruence | reflexivity].
Qed.

Lemma do_unloading_chain_spec w chain : forall current,
  (forall e, e ∈ chain ->
     is_strongly_reachable w (_loader_data e) (_klass e) = false ->
     is_the_null_class_loader_data w (_loader_data e) = false) ->
  exists current',
    do_unloading_chain w chain current
      = Normal (List.filter (kept w) chain, current') /\
    (current' = current \/ current' = NULL) /\
    (current' = current <->
     current = NULL \/
     forall e, e ∈ chain -> entry_address e = current -> kept w e = true).
Proof.
  induction chain as [| probe rest IH]; intros current Hnull.
  - exists current. split; [reflexivity |]. split; [left; reflexivity |].
    split; [intros _; right; intros e He; inversion He | reflexivity].
  - cbn [do_unloading_chain List.filter].
    rewrite (purge_entry_kept w probe)
      by (apply Hnull; apply elem_of_cons; left; reflexivity).
    rewrite bind_Normal.
    assert (Hrest : forall e, e ∈ rest ->
              is_strongly_reachable w (_loader_data e) (_klass e) = false ->
              is_the_null_class_loader_data w (_loader_data e) = false)
      by (intros e He; apply Hnull; apply elem_of_cons; right; exact He).
    destruct (kept w probe) eqn:Hk; cbn [negb].
    + destruct (IH current Hrest) as (c' & Hrun & Hc & Hiff).
      rewrite Hrun, bind_Normal. exists c'. split; [reflexivity |].
      split; [exact Hc |]. rewrite Hiff. split.
      * intros [H | H]; [left; exact H | right].
        intros e He Ha. apply elem_of_cons in He as [-> | He]; [exact Hk | auto].
      * intros [H | H]; [left; exact H | right].
        intros e He. apply H. apply elem_of_cons. right. exact He.
    + destruct (Z.eqb_spec (entry_address probe) current) as [Heq | Hne].
      * destruct (IH NULL Hrest) as (c' & Hrun & Hc & _).
        rewrite Hrun. exists c'. split; [reflexivity |].
        assert (Hc' : c' = NULL) by (destruct Hc; assumption).
        split; [right; exact Hc' |]. subst c'. split.
        -- intros H. left. symmetry. exact H.
        -- intros [H | H]; [symmetry; exact H |].
           specialize (H probe ltac:(apply elem_of_cons; left; reflexivity) Heq).
           congruence.
      * destruct (IH current Hrest) as (c' & Hrun & Hc & Hiff).
        rewrite Hrun. exists c'. split; [reflexivity |].
        split; [exact Hc |]. rewrite Hiff. split.
        -- intros [H | H]; [left; exact H | right].
           intros e He Ha. apply elem_of_cons in He as [-> | He];
             [contradiction | auto].
        -- intros [H | H]; [left; exact H | right].
           intros e He. apply H. apply elem_of_cons. right. exact He.
Qed.

Lemma do_unloading_buckets_spec w buckets : forall current,
  (forall chain e, chain ∈ buckets -> e ∈ chain ->
     is_strongly_reachable w (_loader_data e) (_klass e) = false ->
     is_the_null_class_loader_data w (_loader_data e) = false) ->
  exists current',
    do_unloading_buckets w buckets current
      = Normal (map (List.filter (kept w)) buckets, current') /\
    (current' = current \/ current' = NULL) /\
    (current' = current <->
     current = NULL \/
     forall chain e, chain ∈ buckets -> e ∈ chain ->
       entry_address e = current -> kept w e = true).
Proof.
  induction buckets as [| chain rest IH]; intros current Hnull.
  - exists current. split; [reflexivity |]. split; [left; reflexivity |].
    split; [intros _; right; intros c e Hc; inversion Hc | reflexivity].
  - cbn [do_unloading_buckets map].
    destruct (do_unloading_chain_spec w chain current) as (c1 & Hrun1 & Hc1 & Hiff1).
    { intros e He. apply (Hnull chain e); [apply elem_of_cons; left; reflexivity | exact He]. }
    rewrite Hrun1, bind_Normal. cbn [fst snd].
    destruct (IH c1) as (c2 & Hrun2 & Hc2 & Hiff2).
    { intros c e Hc He. apply (Hnull c e); [apply elem_of_cons; right; exact Hc | exact He]. }
    rewrite Hrun2, bind_Normal. cbn [fst snd].
    exists c2. split; [reflexivity |].
    split; [destruct Hc1 as [-> | ->], Hc2 as [-> | ->]; auto |].
    split.
    + intros Heq. destruct (Z.eq_dec current NULL) as [? | Hcur]; [left; assumption |].
      right. assert (Hc1' : c1 = current).
      { destruct Hc1 as [? | Hc1]; [assumption |]. subst c1.
        destruct Hc2 as [Hc2 | Hc2]; congruence. }
      subst c1. intros c e Hc He Ha.
      apply elem_of_cons in Hc as [-> | Hc].
      * destruct (proj1 Hiff1 eq_refl) as [? | H]; [contradiction | auto].
      * destruct (proj1 Hiff2 Heq) as [? | H]; [contradiction | eauto].
    + intros [-> | H].
      * assert (c1 = NULL) by (destruct Hc1; assumption). subst c1.
        destruct Hc2; assumption.
      * assert (Hc1' : c1 = current).
        { apply Hiff1. right. intros e He.
          apply (H chain e); [apply elem_of_cons; left; reflexivity | exact He]. }
        subst c1. apply Hiff2. right. intros c e Hc He.
        apply (H c e); [apply elem_of_cons; right; exact Hc | exact He].
Qed.

End DictionaryFacts.

(** X22.  Adding a protection domain.  For an entry that the lookup
    finds and whose set of protection domains does not hold the
    protection domain of its own klass, [Dictionary::add_protection_domain]
    of a protection domain that is not null passes all its assertions,
    those of the debug block of [contains_protection_domain] and the
    closing one included.  The entry is then found at the same place
    with the same klass; it contains the new protection domain and all it
    contained before; its set is the old one or the old one with the new
    domain in front; and it still does not hold the protection domain of
    its own klass. *)
Theorem add_protection_domain_keeps_invariant
    (w : Dictionary.world) (d : Dictionary.t)
    (index hash klass loader_data protection_domain : Z)
    (pos : nat) (e : Dictionary.DictionaryEntry) :
  Dictionary.get_entry w d index hash (Dictionary.klass_name w klass) loader_data
    = Some (pos, e) ->
  protection_domain <> NULL ->
  Dictionary.pd_set_ok w e ->
  (Z.to_nat index < length (Dictionary._buckets d))%nat ->
  exists d' e',
    Dictionary.add_protection_domain w d index hash klass loader_data protection_domain
      = Normal d' /\
    Dictionary.get_entry w d' index hash (Dictionary.klass_name w klass) loader_data
      = Some (pos, e') /\
    Dictionary._klass e' = Dictionary._klass e /\
    Dictionary.contains_protection_domain w e' protection_domain = Normal true /\
    (forall pd, Dictionary.contains_protection_domain w e pd = Normal true ->
                Dictionary.contains_protection_domain w e' pd = Normal true) /\
    (Dictionary._pd_set e' = Dictionary._pd_set e \/
     Dictionary._pd_set e' = protection_domain :: Dictionary._pd_set e) /\
    Dictionary.pd_set_ok w e'.
Proof.
  intros Hget Hnn Hok Hidx.
  unfold Dictionary.add_protection_domain. rewrite Hget.
  destruct (Z.eqb_spec protection_domain NULL) as [? | _]; [contradiction |].
  cbn [negb]. rewrite vmassert_true, bind_Normal.
  unfold Dictionary.add_protection_domain_entry.
  rewrite (contains_protection_domain_ok w e protection_domain Hok), bind_Normal.
  set (c := (protection_domain =? _) || _).
  set (e' := if negb c then Dictionary.with_pd_set e
                              (protection_domain :: Dictionary._pd_set e) else e).
  assert (Hmret : (if negb c
                   then mret (Dictionary.with_pd_set e
                                (protection_domain :: Dictionary._pd_set e))
                   else mret e) = Normal e') by (unfold e'; destruct c; reflexivity).
  rewrite Hmret, bind_Normal.
  assert (Hok' : Dictionary.pd_set_ok w e').
  { unfold e'. destruct c eqn:Hc; cbn [negb]; [exact Hok |].
    unfold c in Hc. apply orb_false_elim in Hc as [Hne _].
    unfold Dictionary.pd_set_ok, Dictionary.in_pd_set in *.
    cbn [Dictionary.with_pd_set Dictionary._pd_set Dictionary._klass existsb].
    rewrite Z.eqb_sym, Hne. exact Hok. }
  assert (Hk : Dictionary._klass e' = Dictionary._klass e)
    by (unfold e'; destruct c; reflexivity).
  assert (Hcont : Dictionary.contains_protection_domain w e' protection_domain
                  = Normal true).
  { rewrite (contains_protection_domain_ok w e' protection_domain Hok'), Hk.
    f_equal. unfold e'. destruct c eqn:Hc; cbn [negb]; [exact Hc |].
    cbn [Dictionary.with_pd_set Dictionary._pd_set Dictionary.in_pd_set existsb].
    rewrite Z.eqb_refl. apply orb_true_r. }
  rewrite Hcont, bind_Normal, vmassert_true, bind_Normal.
  eexists. exists e'. split; [reflexivity |].
  split.
  { unfold Dictionary.get_entry, Dictionary.bucket in *.
    cbn [Dictionary._buckets].
    rewrite list_lookup_total_insert_eq by exact Hidx.
    pose proof (get_entry_from_insert w _ e' _ _ _ _ _ _ Hget) as H.
    rewrite Nat.sub_0_r in H. apply H; unfold e'; destruct c; reflexivity. }
  split; [exact Hk |]. split; [exact Hcont |].
  split.
  { intros pd. rewrite (contains_protection_domain_ok w e pd Hok),
      (contains_protection_domain_ok w e' pd Hok'), Hk.
    intros [= H]. f_equal. apply orb_prop in H as [H | H]; [rewrite H; reflexivity |].
    apply orb_true_iff. right. unfold e'. destruct c; cbn [negb]; [exact H |].
    cbn [Dictionary.with_pd_set Dictionary._pd_set Dictionary.in_pd_set existsb].
    unfold Dictionary.in_pd_set in H. rewrite H. apply orb_true_r. }
  split; [unfold e'; destruct c; cbn; auto | exact Hok'].
Qed.

Lemma add_protection_domain_keeps_invariant_witness :
  exists d' e',
    Dictionary.add_protection_domain example_dictionary_world example_dictionary
      0 114 12 2 301 = Normal d' /\
    Dictionary.get_entry example_dictionary_world d' 0 114 112 2 = Some (0%nat, e') /\
    Dictionary._pd_set e' = [301; 300].
Proof.
  destruct (add_protection_domain_keeps_invariant example_dictionary_world
              example_dictionary 0 114 12 2 301 0 (example_entry 12 2 [300])
              eq_refl ltac:(discriminate) eq_refl ltac:(cbn; lia))
    as (d' & e' & Hrun & Hget & _ & _ & _ & Hset & _).
  exists d', e'. split; [exact Hrun |]. split; [exact Hget |].
  vm_compute in Hrun. injection Hrun as <-.
  vm_compute in Hget. injection Hget as <-. reflexivity.
Defined.

(** X23.  Unloading.  Outside a safepoint [do_unloading] fails its
    assertion.  At a safepoint, if no entry that is not strongly
    reachable belongs to the null class loader, the call returns: the
    assertion on the defining loader can then never fail.  Every bucket
    is left with exactly its entries that are strongly reachable or have
    neither their loader nor the defining loader of their klass being
    unloaded, in their old order; and the entry of the class iterator is
    reset to null exactly if it was one of the entries removed. *)
Theorem do_unloading_removes_dead_entries
    (w : Dictionary.world) (d : Dictionary.t) :
  (forall chain e, chain ∈ Dictionary._buckets d -> e ∈ chain ->
     Dictionary.is_strongly_reachable w (Dictionary._loader_data e) (Dictionary._klass e)
       = false ->
     Dictionary.is_the_null_class_loader_data w (Dictionary._loader_data e) = false) ->
  Dictionary.do_unloading w false d = Abort "must be at safepoint" /\
  exists d',
    Dictionary.do_unloading w true d = Normal d' /\
    Dictionary._buckets d'
      = map (List.filter (Dictionary.kept w)) (Dictionary._buckets d) /\
    (Dictionary._current_class_entry d' = Dictionary._current_class_entry d \/
     Dictionary._current_class_entry d' = NULL) /\
    (Dictionary._current_class_entry d' = Dictionary._current_class_entry d <->
     Dictionary._current_class_entry d = NULL \/
     forall chain e, chain ∈ Dictionary._buckets d -> e ∈ chain ->
       Dictionary.entry_address e = Dictionary._current_class_entry d ->
       Dictionary.kept w e = true).
Proof.
  intros Hnull. split; [reflexivity |].
  unfold Dictionary.do_unloading. rewrite vmassert_true, bind_Normal.
  destruct (do_unloading_buckets_spec w (Dictionary._buckets d)
              (Dictionary._current_class_entry d) Hnull)
    as (c' & Hrun & Hc & Hiff).
  rewrite Hrun, bind_Normal. eexists. split; [reflexivity |].
  cbn [fst snd Dictionary._buckets Dictionary._current_class_entry].
  auto.
Qed.

Lemma do_unloading_removes_dead_entries_witness :
  exists d',
    Dictionary.do_unloading example_dictionary_world true example_dictionary
      = Normal d' /\
    Dictionary._buckets d'
      = [ [example_entry 12 2 [300]; example_entry 11 1 []]; [] ] /\
    Dictionary._current_class_entry d' = NULL.
Proof.
  destruct (do_unloading_removes_dead_entries example_dictionary_world
              example_dictionary) as (_ & d' & Hrun & Hb & _).
  - intros chain e Hc He.
    repeat (apply elem_of_cons in Hc as [-> | Hc]);
      [| | apply elem_of_nil in Hc; contradiction];
      repeat (apply elem_of_cons in He as [-> | He]);
      try (apply elem_of_nil in He; contradiction);
      cbn; intros H; first [discriminate H | reflexivity].
  - exists d'. split; [exact Hrun |]. split; [exact Hb |].
    vm_compute in Hrun. injection Hrun as <-. reflexivity.
Defined.

Section DictionaryLookupFacts.
Import Dictionary.

Lemma get_entry_from_shift w chain : forall pos pos' hash name loader,
  snd <$> get_entry_from w chain pos hash name loader
  = snd <$> get_entry_from w chain pos' hash name loader.
Proof.
  induction chain as [| x rest IH]; intros pos pos' hash name loader; [reflexivity |].
  cbn [get_entry_from].
  destruct ((_hash x =? hash) && equals w x name loader); [reflexivity |].
  apply IH.
Qed.

Lemma find_class_entry w d index hash name loader :
  index = index_for w name loader ->
  find_class w d index hash name loader
  = Normal (default NULL
              (_klass <$> (snd <$> get_entry w d index hash name loader))).
Proof.
  intros ->. unfold find_class. rewrite Z.eqb_refl, vmassert_true, bind_Normal.
  destruct (get_entry w d _ hash name loader) as [[p e] |]; reflexivity.
Qed.

End DictionaryLookupFacts.

(** X24.  Adding and finding a class.  In a table with as many buckets
    as its size says, [add_klass] of a klass under its own name and a
    loader that is not null passes its assertions, an instance klass
    taken; [find_class] for that
    name and loader then gives the klass added, also if the pair was in
    the table before, and for every other pair of name and loader it
    gives what it gave before. *)
Theorem add_klass_then_find_class
    (w : Dictionary.world) (d : Dictionary.t)
    (address class_name loader_data obj : Z) :
  obj <> NULL ->
  Dictionary.klass_name w obj = class_name ->
  Dictionary.is_instance_klass w obj = true ->
  loader_data <> NULL ->
  0 < Dictionary.table_size w ->
  Z.of_nat (length (Dictionary._buckets d)) = Dictionary.table_size w ->
  exists d',
    Dictionary.add_klass w d address class_name loader_data obj = Normal d' /\
    Dictionary.find_class w d'
      (Dictionary.index_for w class_name loader_data)
      (Dictionary.compute_hash w class_name loader_data) class_name loader_data
    = Normal obj /\
    forall name' loader',
      (name', loader') <> (class_name, loader_data) ->
      Dictionary.find_class w d'
        (Dictionary.index_for w name' loader')
        (Dictionary.compute_hash w name' loader') name' loader'
      = Dictionary.find_class w d
          (Dictionary.index_for w name' loader')
          (Dictionary.compute_hash w name' loader') name' loader'.
Proof.
  intros Hobj Hname Hinst Hloader Hsize Hlen.
  unfold Dictionary.add_klass, Dictionary.new_entry.
  destruct (Z.eqb_spec obj NULL) as [? | _]; [contradiction |].
  destruct (Z.eqb_spec loader_data NULL) as [? | _]; [contradiction |].
  rewrite Hname, Z.eqb_refl, Hinst. cbn [negb].
  rewrite !vmassert_true, !bind_Normal.
  eexists. split; [reflexivity |].
  set (hash := Dictionary.compute_hash w class_name loader_data).
  set (index := Dictionary.hash_to_index w hash).
  assert (Hindex : (Z.to_nat index < length (Dictionary._buckets d))%nat).
  { unfold index, Dictionary.hash_to_index.
    pose proof (Z.mod_pos_bound hash (Dictionary.table_size w) Hsize). lia. }
  split.
  - rewrite find_class_entry by reflexivity.
    unfold Dictionary.get_entry, Dictionary.bucket, Dictionary.index_for.
    cbn [Dictionary._buckets]. fold hash. fold index.
    rewrite list_lookup_total_insert_eq by exact Hindex.
    cbn [Dictionary.get_entry_from Dictionary._hash]. unfold Dictionary.equals.
    cbn [Dictionary._klass Dictionary._loader_data].
    rewrite Hname, !Z.eqb_refl. reflexivity.
  - intros name' loader' Hne.
    rewrite !find_class_entry by reflexivity. do 3 f_equal.
    unfold Dictionary.get_entry, Dictionary.bucket. cbn [Dictionary._buckets].
    set (index' := Dictionary.index_for w name' loader').
    destruct (decide (Z.to_nat index = Z.to_nat index')) as [Heq | Hdiff].
    + rewrite <- Heq. rewrite list_lookup_total_insert_eq by exact Hindex.
      cbn [Dictionary.get_entry_from]. unfold Dictionary.equals at 1.
      cbn [Dictionary._klass Dictionary._loader_data]. rewrite Hname.
      destruct (Z.eqb_spec class_name name') as [-> | ?];
        destruct (Z.eqb_spec loader_data loader') as [-> | ?];
        try contradiction; rewrite ?andb_false_r; cbn [andb];
        apply get_entry_from_shift.
    + rewrite list_lookup_total_insert_ne by exact Hdiff. reflexivity.
Qed.

Lemma add_klass_then_find_class_witness :
  exists d',
    Dictionary.add_klass example_dictionary_world example_dictionary 1014 114 2 14
      = Normal d' /\
    Dictionary.find_class example_dictionary_world d' 0 116 114 2 = Normal 14 /\
    Dictionary.find_class example_dictionary_world d' 0 114 112 2 = Normal 12.
Proof.
  destruct (add_klass_then_find_class example_dictionary_world example_dictionary
              1014 114 2 14 ltac:(discriminate) eq_refl eq_refl
              ltac:(discriminate) eq_refl eq_refl) as (d' & Hrun & Hnew & Hold).
  exists d'. split; [exact Hrun |]. split; [exact Hnew |].
  exact (Hold 112 2 ltac:(discriminate)).
Defined.

(** ** Forwarding without a race *)

Section LateWorker.
Import Forwarding.
Context {M : markOopDesc}.

Lemma late_run i q sched : forall o k,
  is_marked (_mark o) = true ->
  decode_pointer (encode_pointer_as_mark q) = q ->
  workers o !! i = Some (late_pc q (_mark o) k) ->
  _mark (run sched o) = _mark o /\
  workers (run sched o) !! i = Some (late_pc q (_mark o) (k + turns i sched)).
Proof.
  induction sched as [| j rest IH]; intros o k Hm Hq Hw.
  - cbn. rewrite Nat.add_0_r. auto.
  - cbn [run].
    pose proof (step_marked_stable j o Hm) as Hstable.
    destruct (Nat.eq_dec i j) as [<- | Hne].
    + rewrite turns_cons_eq.
      destruct (IH (step i o) (S k)) as [IH1 IH2].
      * rewrite Hstable. exact Hm.
      * exact Hq.
      * rewrite (step_lookup_eq i o _ Hw), Hstable.
        destruct k as [| [| k']]; cbn.
        -- rewrite Hq, Z.eqb_refl. reflexivity.
        -- rewrite Hm. reflexivity.
        -- reflexivity.
      * rewrite IH1, IH2, Hstable, Nat.add_succ_r. auto.
    + rewrite (turns_cons_ne i j rest Hne).
      destruct (IH (step j o) k) as [IH1 IH2].
      * rewrite Hstable. exact Hm.
      * exact Hq.
      * rewrite step_lookup_ne by exact Hne. rewrite Hstable. exact Hw.
      * rewrite IH1, IH2, Hstable. auto.
Qed.

End LateWorker.


(** ** From the entry of [forward_to_atomic] to its result *)

Section ForwardingResult.
Import Forwarding.
Context {M : markOopDesc}.

Lemma run_app s1 s2 : forall o, run (s1 ++ s2) o = run s2 (run s1 o).
Proof. induction s1 as [| i rest IH]; intros o; [reflexivity | apply IH]. Qed.

Lemma run_marked_stable sched : forall o,
  is_marked (_mark o) = true -> _mark (run sched o) = _mark o.
Proof.
  induction sched as [| j rest IH]; intros o Hm; [reflexivity |].
  cbn [run]. rewrite IH; rewrite step_marked_stable by exact Hm; auto.
Qed.

Lemma step_length j o : length (workers (step j o)) = length (workers o).
Proof.
  unfold step. destruct (workers o !! j) as [c |]; [| reflexivity].
  destruct (thread_step (_mark o) c) as [[m' c'] |]; [| reflexivity].
  cbn. apply length_insert.
Qed.

Lemma run_length sched : forall o,
  length (workers (run sched o)) = length (workers o).
Proof.
  induction sched as [| j rest IH]; intros o; [reflexivity |].
  cbn [run]. rewrite IH. apply step_length.
Qed.

(** A worker whose [curMark], if it differs from [oldMark], is a
    forwarded header gets closer to its return with every access. *)
Lemma accesses_left_step m c m' c' :
  (forall p old cur, c = AtAssert p old cur -> cur = old \/ is_marked cur = true) ->
  thread_step m c = Some (m', c') ->
  (accesses_left c' < accesses_left c)%nat.
Proof.
  intros Hgood.
  destruct c as [p | p old | p old cur | p r | p]; cbn [thread_step accesses_left].
  - destruct (_ =? p); intros [= <- <-]; cbn [accesses_left];
      [destruct (is_marked m) |]; lia.
  - destruct (is_marked old) eqn:Hold; intros [= <- <-]; cbn [accesses_left];
      [lia |]. destruct (_ =? old); lia.
  - destruct (is_forwarded m); [| intros [= <- <-]; cbn; destruct (cur =? old); lia].
    destruct (Z.eqb_spec cur old) as [-> | Hne]; intros [= <- <-]; cbn [accesses_left];
      [lia |].
    destruct (Hgood p old cur eq_refl) as [? | Hcur]; [contradiction |].
    rewrite Hcur. lia.
  - discriminate.
  - discriminate.
Qed.

Context (m0 : Z) (ps : list Z).
Context (Hm0 : is_marked m0 = false).
Context (Hps : forall p, p ∈ ps ->
           decode_pointer (encode_pointer_as_mark p) = p /\
           is_marked (encode_pointer_as_mark p) = true).

(** In a race the worker [i] has made its way after at most as many
    accesses as [accesses_left] says. *)
Lemma race_accesses_left i sched : forall o c,
  race_inv m0 ps o -> workers o !! i = Some c ->
  exists c', workers (run sched o) !! i = Some c' /\
             (accesses_left c' <= accesses_left c - turns i sched)%nat.
Proof.
  induction sched as [| j rest IH]; intros o c Hinv Hc.
  - exists c. split; [exact Hc | cbn; lia].
  - cbn [run].
    pose proof (race_inv_step m0 ps Hm0 Hps j o Hinv) as Hinv'.
    destruct (Nat.eq_dec i j) as [<- | Hne].
    + rewrite turns_cons_eq.
      pose proof (step_lookup_eq i o c Hc) as Hstep.
      destruct (thread_step (_mark o) c) as [[m' c1] |] eqn:Hts.
      * assert (Hlt : (accesses_left c1 < accesses_left c)%nat).
        { eapply accesses_left_step; [| exact Hts].
          intros p old cur ->.
          destruct Hinv as [Hlen Hinv].
          assert (Hi : exists pi, ps !! i = Some pi).
          { apply lookup_lt_is_Some. rewrite <- Hlen. eapply lookup_lt_Some. exact Hc. }
          destruct Hi as [pi Hi].
          destruct Hinv as [[_ Hall] | (w & pw & Hw & _ & Hall)];
            destruct (Hall i pi Hi) as (c0 & Hc0 & Hwhere);
            rewrite Hc in Hc0; injection Hc0 as <-.
          - destruct Hwhere as [? | ?]; discriminate.
          - destruct (Hps pw (list_elem_of_lookup_2 _ _ _ Hw)) as [_ Henc].
            destruct Hwhere as [[_ [H | H]] | [_ [H | [H | [H | [H | H]]]]]];
              try discriminate H; injection H as _ -> ->; auto. }
        destruct (IH (step i o) c1 Hinv' Hstep) as (c' & Hc' & Hle).
        exists c'. split; [exact Hc' | lia].
      * destruct (IH (step i o) c Hinv' Hstep) as (c' & Hc' & Hle).
        exists c'. split; [exact Hc' |].
        destruct c; cbn in Hts; try discriminate; cbn in *; try lia.
        -- destruct (_ =? p); discriminate.
        -- destruct (is_marked oldMark); discriminate.
        -- destruct (is_forwarded (_mark o)); [destruct (_ =? _) |]; discriminate.
    + rewrite (turns_cons_ne i j rest Hne).
      apply IH; [exact Hinv' |]. rewrite step_lookup_ne by exact Hne. exact Hc.
Qed.

End ForwardingResult.

(** C1.  Forwarding monotonicity.  Let any number of GC workers enter
    [forward_to_atomic] on one object, each with its own target, and take
    their header accesses in any order; the header at the start is
    either not forwarded or forwarded by somebody before.  Every call
    has returned after at most four header accesses of its worker.  A
    call that succeeded, that is returned NULL, has installed its target
    [p]: the header is forwarded and [forwardee()] is [p] then and in
    every later state.  A call that failed returned the forwardee that
    was installed already, by another worker of the race or before it,
    which [forwardee()] gives then and in every later state; the header
    is not changed by that call. *)
Theorem forwarding_monotone {M : markOopDesc}
    (m0 : Z) (ps : list Z) (sched later : list nat) :
  (is_marked m0 = true -> decode_pointer m0 <> NULL) ->
  (forall q, q ∈ ps ->
     q <> NULL /\
     decode_pointer (encode_pointer_as_mark q) = q /\
     is_marked (encode_pointer_as_mark q) = true) ->
  let o := Forwarding.run sched
             {| Forwarding._mark := m0;
                Forwarding.workers := Forwarding.entered ps |} in
  let o' := Forwarding.run later o in
  (forall i p, ps !! i = Some p -> (4 <= Forwarding.turns i sched)%nat ->
     exists r, Forwarding.workers o !! i = Some (Forwarding.Returned p r)) /\
  (forall i p r,
     Forwarding.workers o !! i = Some (Forwarding.Returned p r) ->
     ps !! i = Some p /\
     (r = NULL ->
      is_marked m0 = false /\
      Forwarding._mark o' = encode_pointer_as_mark p /\
      Forwarding.is_forwarded (Forwarding._mark o') = true /\
      Forwarding.forwardee (Forwarding._mark o') = p) /\
     (r <> NULL ->
      Forwarding._mark o' = Forwarding._mark o /\
      Forwarding.is_forwarded (Forwarding._mark o') = true /\
      Forwarding.forwardee (Forwarding._mark o') = r /\
      ((is_marked m0 = true /\ Forwarding._mark o = m0) \/
       (exists w pw, w <> i /\ ps !! w = Some pw /\ r = pw /\
          Forwarding._mark o = encode_pointer_as_mark pw)))).
Proof.
  intros Hfwd0 Hps o o'.
  set (o0 := {| Forwarding._mark := m0;
                Forwarding.workers := Forwarding.entered ps |}) in *.
  assert (Hps' : forall q, q ∈ ps ->
            decode_pointer (encode_pointer_as_mark q) = q /\
            is_marked (encode_pointer_as_mark q) = true)
    by (intros q Hq; destruct (Hps q Hq) as (_ & ? & ?); auto).
  assert (Hentered : forall i p, ps !! i = Some p ->
            Forwarding.workers o0 !! i = Some (Forwarding.AtEntry p)).
  { intros i p Hi. cbn. unfold Forwarding.entered.
    rewrite list_lookup_fmap, Hi. reflexivity. }
  assert (Hrole : forall i c, Forwarding.workers o !! i = Some c ->
            exists p, ps !! i = Some p).
  { intros i c Hc. apply lookup_lt_is_Some.
    apply lookup_lt_Some in Hc. unfold o in Hc. rewrite run_length in Hc.
    cbn in Hc. unfold Forwarding.entered in Hc. rewrite length_fmap in Hc. exact Hc. }
  destruct (is_marked m0) eqn:Hm0.
  - (* the header was forwarded before the workers entered *)
    specialize (Hfwd0 eq_refl).
    assert (Hlate : forall i p, ps !! i = Some p ->
              Forwarding._mark o = m0 /\
              Forwarding.workers o !! i
                = Some (Forwarding.late_pc p m0 (Forwarding.turns i sched))).
    { intros i p Hi.
      destruct (Hps' p (list_elem_of_lookup_2 _ _ _ Hi)) as [Hdec _].
      exact (late_run i p sched o0 0 Hm0 Hdec (Hentered i p Hi)). }
    assert (Hmark : Forwarding._mark o = m0).
    { unfold o. rewrite run_marked_stable by exact Hm0. reflexivity. }
    assert (Hmark' : Forwarding._mark o' = m0).
    { unfold o'. rewrite run_marked_stable by (rewrite Hmark; exact Hm0).
      exact Hmark. }
    split.
    + intros i p Hi Hturns. destruct (Hlate i p Hi) as [_ Hw]. rewrite Hw.
      destruct (Forwarding.turns i sched) as [| [| k]]; [lia | lia |].
      eexists. reflexivity.
    + intros i p r Hc. destruct (Hrole i _ Hc) as [p' Hi].
      destruct (Hlate i p' Hi) as [_ Hw]. rewrite Hc in Hw.
      destruct (Forwarding.turns i sched) as [| [| k]];
        cbn [Forwarding.late_pc] in Hw; try discriminate.
      injection Hw as -> ->.
      split; [exact Hi |]. split; [intros Hr; contradiction |].
      intros _. rewrite Hmark', Hmark.
      split; [reflexivity |]. split; [exact Hm0 |]. split; [reflexivity |].
      left. split; reflexivity.
  - (* the race for a header that is not forwarded *)
    assert (Hinv0 : Forwarding.race_inv m0 ps o0) by apply race_inv_entered.
    assert (Hinv : Forwarding.race_inv m0 ps o)
      by (apply race_inv_run; assumption).
    split.
    + intros i p Hi Hturns.
      destruct (race_accesses_left m0 ps Hm0 Hps' i sched o0 _ Hinv0
                  (Hentered i p Hi)) as (c' & Hc' & Hle).
      cbn [Forwarding.accesses_left] in Hle.
      assert (Hzero : Forwarding.accesses_left c' = 0%nat) by lia.
      fold o in Hc'. destruct Hinv as [_ Hinv].
      destruct Hinv as [[_ Hall] | (w & pw & Hw & _ & Hall)];
        destruct (Hall i p Hi) as (c0 & Hc0 & Hwhere);
        rewrite Hc' in Hc0; injection Hc0 as <-.
      * destruct Hwhere as [-> | ->]; cbn in Hzero; [lia |].
        rewrite Hm0 in Hzero. lia.
      * destruct (Hps' pw (list_elem_of_lookup_2 _ _ _ Hw)) as [_ Henc].
        destruct Hwhere as [[_ [-> | ->]] | [_ [-> | [-> | [-> | [-> | ->]]]]]];
          cbn in Hzero; rewrite ?Hm0, ?Henc, ?Z.eqb_refl in Hzero;
          try lia; try (eexists; exact Hc').
        destruct (encode_pointer_as_mark pw =? m0); lia.
    + intros i p r Hc. destruct (Hrole i _ Hc) as [p' Hi].
      destruct Hinv as [_ Hinv].
      destruct Hinv as [[_ Hall] | (w & pw & Hw & Hmark & Hall)];
        destruct (Hall i p' Hi) as (c0 & Hc0 & Hwhere);
        rewrite Hc in Hc0; injection Hc0 as <-.
      { destruct Hwhere as [? | ?]; discriminate. }
      destruct (Hps pw (list_elem_of_lookup_2 _ _ _ Hw)) as (Hnn & Hdec & Henc).
      assert (Hmark' : Forwarding._mark o' = encode_pointer_as_mark pw).
      { unfold o'. rewrite run_marked_stable by (rewrite Hmark; exact Henc).
        exact Hmark. }
      unfold Forwarding.is_forwarded, Forwarding.forwardee.
      destruct Hwhere as [[-> [H | H]] | [Hne [H | [H | [H | [H | H]]]]]];
        try discriminate H.
      * injection H as -> ->. rewrite Hw in Hi. injection Hi as ->.
        split; [exact Hw |]. split; [| intros Hr; contradiction].
        intros _. rewrite Hmark'. auto.
      * injection H as -> ->. unfold Forwarding.forwardee. rewrite Hdec.
        split; [exact Hi |]. split; [intros Hr; contradiction |].
        intros _. rewrite Hmark', Hmark, Hdec.
        split; [reflexivity |]. split; [exact Henc |]. split; [reflexivity |].
        right. exists w, pw. auto.
Qed.

Lemma forwarding_monotone_witness :
  let o := Forwarding.run (M := markOop64_ops) [1; 0; 1; 1; 0; 0; 0]%nat
             {| Forwarding._mark := 1;
                Forwarding.workers := Forwarding.entered [4096; 8192] |} in
  Forwarding.workers o !! 1%nat = Some (Forwarding.Returned 8192 NULL) /\
  Forwarding.workers o !! 0%nat = Some (Forwarding.Returned 4096 8192) /\
  Forwarding.forwardee (M := markOop64_ops)
    (Forwarding._mark (Forwarding.run (M := markOop64_ops) [0; 1; 0]%nat o)) = 8192.
Proof.
  intros o.
  destruct (forwarding_monotone (M := markOop64_ops) 1 [4096; 8192]
              [1; 0; 1; 1; 0; 0; 0]%nat [0; 1; 0]%nat) as [Hdone Hres].
  - intros H. discriminate H.
  - intros q Hq.
    apply elem_of_cons in Hq as [-> | Hq];
      [| apply elem_of_cons in Hq as [-> | Hq]];
      [split; [discriminate | split; reflexivity] ..
      | apply elem_of_nil in Hq; contradiction].
  - split; [reflexivity |].
    destruct (Hdone 0%nat 4096 eq_refl ltac:(cbn; lia)) as [r Hr].
    assert (Hr' : r = 8192).
    { change (Forwarding.run [1; 0; 1; 1; 0; 0; 0]%nat
                {| Forwarding._mark := 1;
                   Forwarding.workers := Forwarding.entered [4096; 8192] |})
        with o in Hr.
      assert (Hc : Forwarding.workers o !! 0%nat
                   = Some (Forwarding.Returned 4096 8192)) by reflexivity.
      rewrite Hc in Hr. injection Hr as <-. reflexivity. }
    subst r. split; [exact Hr |].
    destruct (Hres 1%nat 8192 NULL eq_refl) as (_ & Hwon & _).
    destruct (Hwon eq_refl) as (_ & _ & _ & Hfwd). exact Hfwd.
Defined.
(** X25.  Forwarding outside a race.  [forward_to(p)] of a target that
    is not aligned fails its first assertion.  For an aligned target of
    the reserved heap whose encoding is reversible and marked,
    [forward_to] stores the encoded target whatever the header held, so
    unlike [forward_to_atomic] it replaces an earlier forwarding;
    [cas_forward_to] stores it exactly if the header equals [compare] and
    says so.  A worker that enters [forward_to_atomic(q)] afterwards,
    under any schedule and next to any other workers, leaves the header
    as it is and, from its second access on, has returned [p]. *)
Theorem forward_to_then_atomic {M : markOopDesc} (U : Universe) (p q : Z)
    (others : list Forwarding.pc) (sched : list nat) :
  oopDesc.check_obj_alignment U p = true ->
  oopDesc.is_in_reserved U p = true ->
  decode_pointer (encode_pointer_as_mark p) = p ->
  is_marked (encode_pointer_as_mark p) = true ->
  decode_pointer (encode_pointer_as_mark q) = q ->
  (forall p', oopDesc.check_obj_alignment U p' = false ->
     Forwarding.forward_to U p' = Abort "forwarding to something not aligned") /\
  Forwarding.forward_to U p = Normal (encode_pointer_as_mark p) /\
  Forwarding.is_forwarded (encode_pointer_as_mark p) = true /\
  Forwarding.forwardee (encode_pointer_as_mark p) = p /\
  (forall mark compare,
     Forwarding.cas_forward_to U mark p compare
     = Normal (if mark =? compare then encode_pointer_as_mark p else mark,
               mark =? compare)) /\
  let o := Forwarding.run sched
             {| Forwarding._mark := encode_pointer_as_mark p;
                Forwarding.workers := Forwarding.AtEntry q :: others |} in
  Forwarding._mark o = encode_pointer_as_mark p /\
  ((2 <= Forwarding.turns 0 sched)%nat ->
   Forwarding.workers o !! 0%nat = Some (Forwarding.Returned q p)).
Proof.
  intros Hal Hin Hp Hmarked Hq.
  split.
  { intros p' Hp'. unfold Forwarding.forward_to. rewrite Hp'. reflexivity. }
  split.
  { unfold Forwarding.forward_to. rewrite Hal, Hin, Hp, Z.eqb_refl. reflexivity. }
  split; [exact Hmarked |]. split; [exact Hp |].
  split.
  { intros mark compare. unfold Forwarding.cas_forward_to.
    rewrite Hal, Hin, Hp, Z.eqb_refl. reflexivity. }
  destruct (late_run 0 q sched
              {| Forwarding._mark := encode_pointer_as_mark p;
                 Forwarding.workers := Forwarding.AtEntry q :: others |} 0
              Hmarked Hq eq_refl) as [Hmark Hw].
  cbv zeta. split; [exact Hmark |].
  intros Hturns. rewrite Hw. cbn [Forwarding._mark Nat.add].
  destruct (Forwarding.turns 0 sched) as [| [| k]]; [lia | lia |].
  cbn [Forwarding.late_pc]. unfold Forwarding.forwardee. rewrite Hp. reflexivity.
Qed.

Lemma forward_to_then_atomic_witness :
  Forwarding.forward_to (M := markOop64_ops) example_universe (2 ^ 35 + 64)
    = Normal (2 ^ 35 + 67) /\
  Forwarding.workers
    (Forwarding.run (M := markOop64_ops) [0; 1; 0]%nat
       {| Forwarding._mark := 2 ^ 35 + 67;
          Forwarding.workers := [Forwarding.AtEntry (2 ^ 35 + 128);
                                 Forwarding.AtEntry (2 ^ 35 + 256)] |}) !! 0%nat
  = Some (Forwarding.Returned (2 ^ 35 + 128) (2 ^ 35 + 64)).
Proof.
  destruct (forward_to_then_atomic (M := markOop64_ops) example_universe
              (2 ^ 35 + 64) (2 ^ 35 + 128)
              [Forwarding.AtEntry (2 ^ 35 + 256)] [0; 1; 0]%nat)
    as (_ & Hfwd & _ & _ & _ & _ & Hret); try reflexivity.
  split; [exact Hfwd |]. apply Hret. cbn. lia.
Defined.
